(** * Smart ride sharing: matching, routing, pricing and booking

    A shallow embedding of the TypeScript sources
      - [src/types/index.ts]
      - [src/algorithms/distance.ts], [routing.ts], [matching.ts], [pricing.ts]
      - [src/services/RideService.ts], [RideCompletionService.ts]
    together with the properties stated about them.

    Conventions.
      - A JavaScript [number] that holds a measurement (kilometres, fares,
        scores) is a rational [Q]; counts, minutes and array positions,
        which the code only ever produces as integers, are [Z].  Arithmetic
        is exact: the rounding of IEEE doubles is not modelled, and a
        quotient by zero is [0] where JavaScript has [Infinity] or [NaN]
        (only the score of a route of length zero divides by zero, and
        nothing proved below depends on the value of a score except the
        concrete runs, whose routes have positive length).
      - [calculateDistance] is the haversine formula.  It is built from
        [Math.sin], [Math.cos], [Math.atan2] and [Math.sqrt], none of which
        is a rational function, so it is a parameter of the development and
        every general theorem holds for an arbitrary distance function.
        Concrete runs use [localDistance], the plane form of the formula.
      - A thrown exception is [None] (algorithms) or [inl error] (services).
      - [while] loops and the recursion of [permute] take a fuel argument;
        [permute_arrangements] with [arrangements_fuel_enough] and
        [greedyLoop_terminates] show that the fuel handed over is enough.
      - The store is a record of row lists.  A connection keeps the state
        saved by [BEGIN], so that [ROLLBACK] is a step like any other.  The
        store is sequential: row locks, the cache and the per-request lease
        are not modelled, and the store and cache are taken to be
        reachable.
      - Time enters only the sweep of expired rides, through two
        parameters: [created_at] of a ride, which no statement writes, as a
        function of the ride's id, and [NOW()]. *)

From Stdlib Require Import ZArith QArith Qround Qminmax Qabs.
From Stdlib Require Import String Bool List Lia Lqa Permutation Sorted.
Import ListNotations.

(** ** JavaScript helpers *)

Module JS.

Local Open Scope Q_scope.

(** [Math.round]: nearest integer, halves towards plus infinity. *)
Definition Math_round (x : Q) : Z := Qfloor (x + (1 # 2)).

Definition Math_ceil (x : Q) : Z := Qceiling x.

Definition Math_max (a b : Q) : Q := Qmax a b.

Definition Math_min (a b : Q) : Q := Qmin a b.

(** [a < b] on numbers. *)
Definition ltb (a b : Q) : bool := negb (Qle_bool b a).

Definition leb (a b : Q) : bool := Qle_bool a b.

(** [Math.max(...xs)] for a non-empty argument list; with no argument
    JavaScript answers [-Infinity], which no caller here can observe. *)
Definition Math_max_list (xs : list Z) : Z :=
  match xs with
  | [] => 0%Z
  | x :: rest => fold_left Z.max rest x
  end.

(** [arr.findIndex(p)]: the first index whose element satisfies [p],
    [-1] when there is none. *)
Fixpoint findIndexFrom {A} (p : A -> bool) (i : Z) (arr : list A) : Z :=
  match arr with
  | [] => (-1)%Z
  | x :: rest => if p x then i else findIndexFrom p (i + 1)%Z rest
  end.

Definition findIndex {A} (p : A -> bool) (arr : list A) : Z :=
  findIndexFrom p 0%Z arr.

(** [arr[i]] for a possibly negative index; [None] is [undefined]. *)
Definition at_ {A} (arr : list A) (i : Z) : option A :=
  if (i <? 0)%Z then None else nth_error arr (Z.to_nat i).

(** [arr.slice(0, n)]. *)
Definition slice0 {A} (n : nat) (arr : list A) : list A := firstn n arr.

(** [arr.splice(i, 1)]. *)
Fixpoint splice1 {A} (i : nat) (arr : list A) : list A :=
  match arr, i with
  | [], _ => []
  | _ :: rest, O => rest
  | x :: rest, S k => x :: splice1 k rest
  end.

(** [arr[i] = v] for an index inside the array. *)
Fixpoint assign {A} (i : nat) (v : A) (arr : list A) : list A :=
  match arr, i with
  | [], _ => []
  | _ :: rest, O => v :: rest
  | x :: rest, S k => x :: assign k v rest
  end.

(** [[arr[i], arr[j]] = [arr[j], arr[i]]] for indices inside the array. *)
Definition swap {A} (i j : nat) (arr : list A) : list A :=
  match nth_error arr i, nth_error arr j with
  | Some x, Some y => assign j x (assign i y arr)
  | _, _ => arr
  end.

(** A [Set<string>], kept as a duplicate-free list in insertion order. *)
Definition StrSet := list string.

Definition has (s : StrSet) (x : string) : bool :=
  existsb (String.eqb x) s.

Definition add (s : StrSet) (x : string) : StrSet :=
  if has s x then s else s ++ [x].

Definition delete (s : StrSet) (x : string) : StrSet :=
  filter (fun y => negb (String.eqb x y)) s.

End JS.

(** ** [src/types/index.ts] *)

Record Location := {
latitude : Q;
longitude : Q;
address : option string
}.

Inductive LuggageSize := SMALL | MEDIUM | LARGE.

(** The numeric value of the enum member. *)
Definition luggageUnits (l : LuggageSize) : Z :=
match l with SMALL => 1 | MEDIUM => 2 | LARGE => 3 end.

Inductive RideStatus :=
PENDING | MATCHED | CONFIRMED | IN_PROGRESS | COMPLETED | CANCELLED.

Definition RideStatus_eqb (a b : RideStatus) : bool :=
match a, b with
| PENDING, PENDING | MATCHED, MATCHED | CONFIRMED, CONFIRMED
| IN_PROGRESS, IN_PROGRESS | COMPLETED, COMPLETED | CANCELLED, CANCELLED => true
| _, _ => false
end.

Record RideRequest := {
rq_id : string;
rq_userId : string;
rq_pickup : Location;
rq_dropoff : Location;
rq_requestedAt : Z;
rq_passengers : Z;
rq_luggage : list LuggageSize;
rq_maxDetourMinutes : Q;
rq_status : RideStatus;
rq_version : Z
}.

Record PassengerInfo := {
pi_requestId : string;
pi_userId : string;
pi_pickup : Location;
pi_dropoff : Location;
pi_passengers : Z;
pi_luggage : list LuggageSize;
pi_pickupOrder : Z;
pi_dropoffOrder : Z;
pi_fare : Q;
pi_detourMinutes : Z
}.

(** The object built by [createRide]; [basePrice] and [surgeFactor] are
  never set by the matching engine and stay [undefined]. *)
Record Ride := {
rd_passengers : list PassengerInfo;
rd_route : list Location;
rd_totalDistance : Q;
rd_estimatedDuration : Z;
rd_basePrice : option Q;
rd_surgeFactor : option Q
}.

Record MatchResult := {
mr_score : Q;
mr_ride : Ride;
mr_savings : Q;
mr_detourTime : Z
}.

Record PricingParams := {
baseDistance : Q;
actualDistance : Q;
passengers : Z;
surgeFactor : Q;
timeOfDay : Z;
totalPassengersInRide : option Z
}.

(** ** [src/algorithms/routing.ts]: data *)

Inductive WaypointType := Pickup | Dropoff.

Record Waypoint := {
wp_type : WaypointType;
wp_location : Location;
wp_requestId : string;
wp_passengers : Z
}.

Record RouteResult := {
waypoints : list Waypoint;
totalDistance : Q;
estimatedDuration : Z
}.

Definition isPickupOf (rid : string) (w : Waypoint) : bool :=
match wp_type w with
| Pickup => String.eqb (wp_requestId w) rid
| Dropoff => false
end.

Definition isDropoffOf (rid : string) (w : Waypoint) : bool :=
match wp_type w with
| Dropoff => String.eqb (wp_requestId w) rid
| Pickup => false
end.

Definition pickupWaypoint (req : RideRequest) : Waypoint :=
{| wp_type := Pickup; wp_location := rq_pickup req;
   wp_requestId := rq_id req; wp_passengers := rq_passengers req |}.

Definition dropoffWaypoint (req : RideRequest) : Waypoint :=
{| wp_type := Dropoff; wp_location := rq_dropoff req;
   wp_requestId := rq_id req; wp_passengers := rq_passengers req |}.

(** ** [src/algorithms/distance.ts] and [routing.ts] *)

Section Geometry.

Local Open Scope Q_scope.

(** The haversine distance in kilometres. *)
Variable calculateDistance : Location -> Location -> Q.

Fixpoint routeDistanceLoop (total : Q) (route : list Location) : Q :=
  match route with
  | a :: (b :: _) as rest => routeDistanceLoop (total + calculateDistance a b) rest
  | _ => total
  end.

Definition calculateRouteDistance (route : list Location) : Q :=
  routeDistanceLoop 0 route.

Definition estimateTravelTime (distanceKm : Q) : Z :=
  let avgSpeedKmh := 40 in
  JS.Math_ceil ((distanceKm / avgSpeedKmh) * 60).

Definition createSimpleRoute (request : RideRequest) : RouteResult :=
  let distance := calculateDistance (rq_pickup request) (rq_dropoff request) in
  {| waypoints := [pickupWaypoint request; dropoffWaypoint request];
     totalDistance := distance;
     estimatedDuration := estimateTravelTime distance |}.

(** *** [generateValidRoutes] *)

Fixpoint isValidRouteFrom (picked : JS.StrSet) (route : list Waypoint) : bool :=
  match route with
  | [] => true
  | wp :: rest =>
      match wp_type wp with
      | Pickup => isValidRouteFrom (JS.add picked (wp_requestId wp)) rest
      | Dropoff =>
          if JS.has picked (wp_requestId wp)
          then isValidRouteFrom picked rest
          else false
      end
  end.

Definition isValidRoute (route : list Waypoint) : bool :=
  isValidRouteFrom [] route.

(** [permute] works on one array, swapping in place, and appends to the
    shared [routes]; both are threaded through. *)
Definition PermState := (list Waypoint * list (list Waypoint))%type.

Fixpoint permute (fuel : nat) (start : nat) (st : PermState) : PermState :=
  match fuel with
  | O => st
  | S fuel' =>
      let '(arr, routes) := st in
      if (Z.of_nat start =? Z.of_nat (length arr) - 1)%Z then
        if isValidRoute arr then (arr, routes ++ [arr]) else (arr, routes)
      else
        fold_left
          (fun (st : PermState) (i : nat) =>
             let '(arr, routes) := st in
             let st1 := permute fuel' (S start) (JS.swap start i arr, routes) in
             let '(arr1, routes1) := st1 in
             (JS.swap start i arr1, routes1))
          (seq start (length arr - start))
          st
  end.

Definition generateValidRoutes (waypoints : list Waypoint) : list (list Waypoint) :=
  snd (permute (S (length waypoints)) 0 (waypoints, [])).

(** *** [optimizeRouteDynamic] *)

Definition allWaypoints (requests : list RideRequest) : list Waypoint :=
  flat_map (fun req => [pickupWaypoint req; dropoffWaypoint req]) requests.

(** [bestRoute] and [bestDistance] change together: [None] is the initial
    pair [(null, Infinity)]. *)
Definition Best := option (list Waypoint * Q).

Definition considerRoute (best : Best) (route : list Waypoint) : Best :=
  let distance := calculateRouteDistance (map wp_location route) in
  match best with
  | None => Some (route, distance)
  | Some (_, bestDistance) =>
      if JS.ltb distance bestDistance then Some (route, distance) else best
  end.

(** [None] is the result with [waypoints: null] and an infinite distance,
    which the source gives when there is no valid route at all. *)
Definition optimizeRouteDynamic (requests : list RideRequest) : option RouteResult :=
  let validRoutes := generateValidRoutes (allWaypoints requests) in
  match fold_left considerRoute validRoutes None with
  | None => None
  | Some (bestRoute, bestDistance) =>
      Some {| waypoints := bestRoute;
              totalDistance := bestDistance;
              estimatedDuration := estimateTravelTime bestDistance |}
  end.


(** *** [optimizeRouteGreedy] *)

(** The three locals of the selection: [nearestIdx], [nearestDist] (with
    [None] for [Infinity]) and [isPickup]. *)
Record Nearest := {
  nearestIdx : Z;
  nearestDist : option Q;
  isPickup : bool
}.

Definition initNearest : Nearest :=
  {| nearestIdx := (-1)%Z; nearestDist := None; isPickup := false |}.

(** [dist < nearestDist]. *)
Definition closer (dist : Q) (n : Nearest) : bool :=
  match nearestDist n with
  | None => true
  | Some d => JS.ltb dist d
  end.

Fixpoint nearestPickupLoop (currentLocation : Location) (i : Z)
  (waypoints : list Waypoint) (n : Nearest) : Nearest :=
  match waypoints with
  | [] => n
  | w :: rest =>
      let dist := calculateDistance currentLocation (wp_location w) in
      nearestPickupLoop currentLocation (i + 1)%Z rest
        (if closer dist n
         then {| nearestIdx := i; nearestDist := Some dist; isPickup := true |}
         else n)
  end.

Fixpoint nearestDropoffLoop (currentLocation : Location) (pickedUp : JS.StrSet)
  (requests : list RideRequest) (n : Nearest) : Nearest :=
  match requests with
  | [] => n
  | req :: rest =>
      nearestDropoffLoop currentLocation pickedUp rest
        (if JS.has pickedUp (rq_id req) then
           let dist := calculateDistance currentLocation (rq_dropoff req) in
           if closer dist n
           then {| nearestIdx := (-1)%Z; nearestDist := Some dist; isPickup := false |}
           else n
         else n)
  end.

(** The mutable locals of the [while] loop.  The set [remaining] of the
    source is written once and never read, so it is left out. *)
Record GreedyState := {
  gs_waypoints : list Waypoint;
  gs_route : list Waypoint;
  gs_pickedUp : JS.StrSet;
  gs_currentLocation : Location
}.

(** One turn of the loop body; [None] is a [TypeError] on [undefined]. *)
Definition greedyStep (requests : list RideRequest) (st : GreedyState)
  : option GreedyState :=
  let cur := gs_currentLocation st in
  let n := nearestDropoffLoop cur (gs_pickedUp st) requests
             (nearestPickupLoop cur 0%Z (gs_waypoints st) initNearest) in
  if isPickup n && (0 <=? nearestIdx n)%Z then
    match JS.at_ (gs_waypoints st) (nearestIdx n) with
    | Some wp =>
        Some {| gs_waypoints := JS.splice1 (Z.to_nat (nearestIdx n)) (gs_waypoints st);
                gs_route := gs_route st ++ [wp];
                gs_pickedUp := JS.add (gs_pickedUp st) (wp_requestId wp);
                gs_currentLocation := wp_location wp |}
    | None => None
    end
  else
    match find (fun r => JS.has (gs_pickedUp st) (rq_id r)) requests with
    | Some req =>
        Some {| gs_waypoints := gs_waypoints st;
                gs_route := gs_route st ++ [dropoffWaypoint req];
                gs_pickedUp := JS.delete (gs_pickedUp st) (rq_id req);
                gs_currentLocation := rq_dropoff req |}
    | None => None
    end.

Definition greedyContinues (st : GreedyState) : bool :=
  (0 <? length (gs_waypoints st))%nat || (0 <? length (gs_pickedUp st))%nat.

Fixpoint greedyLoop (fuel : nat) (requests : list RideRequest) (st : GreedyState)
  : option (list Waypoint) :=
  match fuel with
  | O => None
  | S fuel' =>
      if greedyContinues st then
        match greedyStep requests st with
        | Some st' => greedyLoop fuel' requests st'
        | None => None
        end
      else Some (gs_route st)
  end.

Definition optimizeRouteGreedy (requests : list RideRequest) : option RouteResult :=
  let waypoints := map pickupWaypoint requests in
  match waypoints with
  | [] => None
  | first :: _ =>
      match greedyLoop (2 * length requests + 1) requests
              {| gs_waypoints := waypoints; gs_route := [];
                 gs_pickedUp := []; gs_currentLocation := wp_location first |} with
      | None => None
      | Some route =>
          let totalDistance := calculateRouteDistance (map wp_location route) in
          Some {| waypoints := route;
                  totalDistance := totalDistance;
                  estimatedDuration := estimateTravelTime totalDistance |}
      end
  end.

(** *** [optimizeRoute] *)

Definition optimizeRoute (requests : list RideRequest) : option RouteResult :=
  match requests with
  | [request] => Some (createSimpleRoute request)
  | _ =>
      if (length requests <=? 4)%nat
      then optimizeRouteDynamic requests
      else optimizeRouteGreedy requests
  end.

End Geometry.

(** ** [src/algorithms/pricing.ts] *)

Module PricingEngine.

Local Open Scope Q_scope.

Definition BASE_FARE : Q := 5.0.
Definition RATE_PER_KM : Q := 2.5.
Definition MIN_FARE : Q := 8.0.

Definition getTimeMultiplier (hour : Z) : Q :=
  if ((7 <=? hour) && (hour <? 9))%Z then 1.5
  else if ((17 <=? hour) && (hour <? 19))%Z then 1.5
  else if ((23 <=? hour) || (hour <? 5))%Z then 1.3
  else 1.0.

Definition getPoolingDiscount (passengers : Z) : Q :=
  match passengers with
  | 1%Z => 0
  | 2%Z => 0.20
  | 3%Z => 0.30
  | 4%Z => 0.40
  | _ => 0.40
  end.

(** [totalPassengersInRide || passengers]: [undefined] and [0] are falsy. *)
Definition orPassengers (total : option Z) (passengers : Z) : Z :=
  match total with
  | None => passengers
  | Some 0%Z => passengers
  | Some t => t
  end.

Definition calculateFare (params : PricingParams) : Q :=
  let baseFarePerPassenger := BASE_FARE in
  let distanceFarePerPassenger := actualDistance params * RATE_PER_KM in
  let timeMultiplier := getTimeMultiplier (timeOfDay params) in
  let poolingDiscount :=
    getPoolingDiscount (orPassengers (totalPassengersInRide params) (passengers params)) in
  let farePerPassenger :=
    (baseFarePerPassenger + distanceFarePerPassenger) * surgeFactor params * timeMultiplier in
  let farePerPassenger := farePerPassenger * (1 - poolingDiscount) in
  let totalFare := farePerPassenger * inject_Z (passengers params) in
  JS.Math_max MIN_FARE (inject_Z (JS.Math_round (totalFare * 100)) / 100).

Definition calculateSurgeFactor (activeRequests availableCabs : Q) : Q :=
  if Qeq_bool availableCabs 0 then 3.0
  else
    let demandRatio := activeRequests / availableCabs in
    let surge := 1 + (JS.Math_min demandRatio 2) ^ 2 in
    JS.Math_min 3.0 (JS.Math_max 1.0 surge).

Definition splitFare (totalFare : Q) (distances : list Q) : list Q :=
  let totalDistance := fold_left Qplus distances 0 in
  map (fun d =>
         let proportion := d / totalDistance in
         inject_Z (JS.Math_round (totalFare * proportion * 100)) / 100)
      distances.

Definition calculateSavings (soloFare pooledFare : Q) : Q :=
  inject_Z (JS.Math_round ((soloFare - pooledFare) * 100)) / 100.

End PricingEngine.

(** ** [src/algorithms/matching.ts] *)

(** The four [readonly] fields of the engine; the first three are read from
    the environment. *)
Record MatchingConfig := {
  MAX_PASSENGERS : Z;
  MAX_LUGGAGE : Z;
  MAX_DETOUR_PCT : Z;
  SEARCH_RADIUS_KM : Q
}.

(** The values taken when the environment sets none. *)
Definition defaultConfig : MatchingConfig :=
  {| MAX_PASSENGERS := 4; MAX_LUGGAGE := 6; MAX_DETOUR_PCT := 20;
     SEARCH_RADIUS_KM := 5 |}.

Module RideMatchingEngine.

Section Engine.

Local Open Scope Q_scope.

Variable calculateDistance : Location -> Location -> Q.
Variable cfg : MatchingConfig.

Definition filterNearbyRequests (request : RideRequest) (requests : list RideRequest)
  : list RideRequest :=
  filter (fun r =>
            if String.eqb (rq_id r) (rq_id request) then false
            else
              let distance := calculateDistance (rq_pickup request) (rq_pickup r) in
              JS.leb distance (SEARCH_RADIUS_KM cfg))
         requests.

Definition sumPassengers (group : list RideRequest) : Z :=
  fold_left (fun sum r => (sum + rq_passengers r)%Z) group 0%Z.

Definition sumLuggage (group : list RideRequest) : Z :=
  fold_left
    (fun sum r =>
       (sum + fold_left (fun lsum l => (lsum + luggageUnits l)%Z) (rq_luggage r) 0)%Z)
    group 0%Z.

Definition checkConstraints (group : list RideRequest) : bool :=
  let totalPassengers := sumPassengers group in
  let totalLuggage := sumLuggage group in
  (totalPassengers <=? MAX_PASSENGERS cfg)%Z && (totalLuggage <=? MAX_LUGGAGE cfg)%Z.

Definition canAddToGroup (request : RideRequest) (group : list RideRequest) : bool :=
  let totalPassengers := (sumPassengers group + rq_passengers request)%Z in
  (totalPassengers <=? MAX_PASSENGERS cfg)%Z.

(** The indices [from <= i < length]. *)
Definition indicesFrom (from len : nat) : list nat := seq from (len - from).

Definition createRequestGroups (requests : list RideRequest) : list (list RideRequest) :=
  let len := length requests in
  let singles := map (fun req => [req]) requests in
  let pairs :=
    flat_map (fun i =>
      flat_map (fun j =>
        match nth_error requests i, nth_error requests j with
        | Some ri, Some rj =>
            if checkConstraints [ri; rj] then [[ri; rj]] else []
        | _, _ => []
        end) (indicesFrom (i + 1) len)) (indicesFrom 0 len) in
  let triples :=
    flat_map (fun i =>
      flat_map (fun j =>
        flat_map (fun k =>
          match nth_error requests i, nth_error requests j, nth_error requests k with
          | Some ri, Some rj, Some rk =>
              let group := [ri; rj; rk] in
              if checkConstraints group then [group] else []
          | _, _, _ => []
          end) (indicesFrom (j + 1) len)) (indicesFrom (i + 1) len)) (indicesFrom 0 len) in
  singles ++ pairs ++ triples.

(** The loop [for (i = pickupIdx; i < dropoffIdx; i++)] with [n] turns
    left; reading [location] of a missing waypoint throws. *)
Fixpoint legDistanceLoop (n : nat) (i : Z) (wps : list Waypoint) (actualDistance : Q)
  : option Q :=
  match n with
  | O => Some actualDistance
  | S n' =>
      match JS.at_ wps i, JS.at_ wps (i + 1)%Z with
      | Some a, Some b =>
          legDistanceLoop n' (i + 1)%Z wps
            (actualDistance + calculateDistance (wp_location a) (wp_location b))
      | _, _ => None
      end
  end.

Definition detourOf (route : RouteResult) (request : RideRequest) : option Z :=
  let directDistance := calculateDistance (rq_pickup request) (rq_dropoff request) in
  let directTime := estimateTravelTime directDistance in
  let pickupIdx := JS.findIndex (isPickupOf (rq_id request)) (waypoints route) in
  let dropoffIdx := JS.findIndex (isDropoffOf (rq_id request)) (waypoints route) in
  match legDistanceLoop (Z.to_nat (dropoffIdx - pickupIdx)) pickupIdx (waypoints route) 0 with
  | None => None
  | Some actualDistance =>
      let actualTime := estimateTravelTime actualDistance in
      Some (actualTime - directTime)%Z
  end.

Fixpoint calculateDetours (group : list RideRequest) (route : RouteResult)
  : option (list Z) :=
  match group with
  | [] => Some []
  | request :: rest =>
      match detourOf route request with
      | None => None
      | Some d =>
          match calculateDetours rest route with
          | None => None
          | Some ds => Some (d :: ds)
          end
      end
  end.

Fixpoint validateDetours (group : list RideRequest) (detours : list Z) : bool :=
  match group with
  | [] => true
  | request :: rest =>
      let directTime :=
        estimateTravelTime (calculateDistance (rq_pickup request) (rq_dropoff request)) in
      let maxDetour := (inject_Z directTime * inject_Z (MAX_DETOUR_PCT cfg)) / 100 in
      match detours with
      | [] => false
      | d :: ds =>
          JS.leb (inject_Z d) (JS.Math_max maxDetour (rq_maxDetourMinutes request))
          && validateDetours rest ds
      end
  end.

Definition calculateMatchScore (group : list RideRequest) (route : RouteResult)
  (detours : list Z) : Q :=
  let groupSize := inject_Z (Z.of_nat (length group)) in
  let avgDetour :=
    inject_Z (fold_left Z.add detours 0%Z) / inject_Z (Z.of_nat (length detours)) in
  let directDistances :=
    fold_left (fun sum r => sum + calculateDistance (rq_pickup r) (rq_dropoff r)) group 0 in
  let efficiency := directDistances / totalDistance route in
  let sizeScore := (groupSize / inject_Z (MAX_PASSENGERS cfg)) * 40 in
  let efficiencyScore := efficiency * 40 in
  let detourScore := JS.Math_max 0 (20 - avgDetour) in
  JS.Math_min 100 (sizeScore + efficiencyScore + detourScore).

Definition calculateSavings (group : list RideRequest) (route : RouteResult) : Q :=
  let individualCosts :=
    fold_left (fun sum r =>
                 let distance := calculateDistance (rq_pickup r) (rq_dropoff r) in
                 sum + distance * 2.5) group 0 in
  let sharedCost := totalDistance route * 2.5 in
  individualCosts - sharedCost.

Definition createRide (group : list RideRequest) (route : RouteResult) : Ride :=
  {| rd_passengers :=
       map (fun r =>
              {| pi_requestId := rq_id r;
                 pi_userId := rq_userId r;
                 pi_pickup := rq_pickup r;
                 pi_dropoff := rq_dropoff r;
                 pi_passengers := rq_passengers r;
                 pi_luggage := rq_luggage r;
                 pi_pickupOrder := JS.findIndex (isPickupOf (rq_id r)) (waypoints route);
                 pi_dropoffOrder := JS.findIndex (isDropoffOf (rq_id r)) (waypoints route);
                 pi_fare := 0;
                 pi_detourMinutes := 0 |}) group;
     rd_route := map wp_location (waypoints route);
     rd_totalDistance := totalDistance route;
     rd_estimatedDuration := estimatedDuration route;
     rd_basePrice := None;
     rd_surgeFactor := None |}.

(** [matches.sort((a, b) => b.score - a.score)]: descending by score, and
    stable, as [Array.prototype.sort] is. *)
Fixpoint insertByScore (m : MatchResult) (sorted : list MatchResult) : list MatchResult :=
  match sorted with
  | [] => [m]
  | x :: rest =>
      if JS.ltb (mr_score m) (mr_score x) then x :: insertByScore m rest
      else m :: x :: rest
  end.

Definition sortByScore (matches : list MatchResult) : list MatchResult :=
  fold_right insertByScore [] matches.

Definition soloMatch (soloRide : Ride) : MatchResult :=
  {| mr_score := 50; mr_ride := soloRide; mr_savings := 0; mr_detourTime := 0%Z |}.

(** The body of [for (const group of groups)]: [Some None] is [continue],
    [Some (Some m)] pushes [m], [None] is an exception. *)
Definition tryGroup (request : RideRequest) (group : list RideRequest)
  : option (option MatchResult) :=
  if negb (canAddToGroup request group) then Some None
  else
    let combinedGroup := group ++ [request] in
    if negb (checkConstraints combinedGroup) then Some None
    else
      match optimizeRoute calculateDistance combinedGroup with
      | None => None
      | Some route =>
          match calculateDetours combinedGroup route with
          | None => None
          | Some detours =>
              if negb (validateDetours combinedGroup detours) then Some None
              else
                let score := calculateMatchScore combinedGroup route detours in
                let ride := createRide combinedGroup route in
                Some (Some {| mr_score := score;
                              mr_ride := ride;
                              mr_savings := calculateSavings combinedGroup route;
                              mr_detourTime := JS.Math_max_list detours |})
          end
      end.

Fixpoint matchGroups (request : RideRequest) (groups : list (list RideRequest))
  (matches : list MatchResult) : option (list MatchResult) :=
  match groups with
  | [] => Some matches
  | group :: rest =>
      match tryGroup request group with
      | None => None
      | Some None => matchGroups request rest matches
      | Some (Some m) => matchGroups request rest (matches ++ [m])
      end
  end.

Definition findMatches (request : RideRequest) (activeRequests : list RideRequest)
  : option (list MatchResult) :=
  let nearbyRequests := filterNearbyRequests request activeRequests in
  match optimizeRoute calculateDistance [request] with
  | None => None
  | Some soloRoute =>
      let soloRide := createRide [request] soloRoute in
      let groups := createRequestGroups nearbyRequests in
      match matchGroups request groups [soloMatch soloRide] with
      | None => None
      | Some matches => Some (JS.slice0 5 (sortByScore matches))
      end
  end.

End Engine.

End RideMatchingEngine.

(** ** The relational store

    The tables of [schema.sql] that the services write, as lists of rows.
    A request row is a [RideRequest] ([mapRowToRequest]); the columns of
    [cabs] that no service reads or writes (plate, driver) are left out. *)

Record CabRow := {
  cab_id : string;
  cab_max_passengers : Z;
  cab_max_luggage_capacity : Z;
  cab_current_lat : option Q;
  cab_current_lng : option Q;
  cab_is_available : bool
}.

(** The JSON kept in [rides.route]: the array of locations that
    [createRide] builds, or an object with a [waypoints] array, which is
    the shape [completeRide] looks for. *)
Inductive RouteJson :=
| RouteLocations (locations : list Location)
| RouteObject (waypoints : list Waypoint).

Record RideRow := {
  ride_id : string;
  ride_cab_id : string;
  ride_route : RouteJson;
  ride_total_distance : Q;
  ride_estimated_duration : Z;
  ride_base_price : Q;
  ride_surge_factor : Q;
  ride_status : RideStatus;
  ride_version : Z
}.

Record RidePassengerRow := {
  rp_ride_id : string;
  rp_request_id : string;
  rp_pickup_order : Z;
  rp_dropoff_order : Z;
  rp_fare : Q;
  rp_detour_minutes : Z
}.

Record DB := {
  ride_requests : list RideRequest;
  cabs : list CabRow;
  rides : list RideRow;
  ride_passengers : list RidePassengerRow
}.

(** *** The [UPDATE] statements the services issue

    [SET] and [WHERE] clauses per table.  [cabs] has no [version] column,
    so its clauses have no version constructor. *)

Inductive RequestSet :=
| SetRequestStatus (s : RideStatus)
| SetRequestVersionPlus1.

Inductive RequestCond :=
| RequestIdEq (rid : string)
| RequestStatusEq (s : RideStatus)
| RequestVersionEq (v : Z)
| RequestIdInPassengersOf (rideId : string).

Inductive CabSet :=
| SetCabAvailable (b : bool)
| SetCabLat (lat : Q)
| SetCabLng (lng : Q).

Inductive CabCond :=
| CabIdEq (cid : string).

Inductive RideSet :=
| SetRideStatus (s : RideStatus)
| SetRideVersionPlus1.

Inductive RideCond :=
| RideIdEq (rid : string)
| RideVersionEq (v : Z).

Inductive Update :=
| UpdateRequests (sets : list RequestSet) (conds : list RequestCond)
| UpdateCabs (sets : list CabSet) (conds : list CabCond)
| UpdateRides (sets : list RideSet) (conds : list RideCond).

Definition applyRequestSet (old : RideRequest) (row : RideRequest) (s : RequestSet)
  : RideRequest :=
  match s with
  | SetRequestStatus st =>
      {| rq_id := rq_id row; rq_userId := rq_userId row; rq_pickup := rq_pickup row;
         rq_dropoff := rq_dropoff row; rq_requestedAt := rq_requestedAt row;
         rq_passengers := rq_passengers row; rq_luggage := rq_luggage row;
         rq_maxDetourMinutes := rq_maxDetourMinutes row;
         rq_status := st; rq_version := rq_version row |}
  | SetRequestVersionPlus1 =>
      {| rq_id := rq_id row; rq_userId := rq_userId row; rq_pickup := rq_pickup row;
         rq_dropoff := rq_dropoff row; rq_requestedAt := rq_requestedAt row;
         rq_passengers := rq_passengers row; rq_luggage := rq_luggage row;
         rq_maxDetourMinutes := rq_maxDetourMinutes row;
         rq_status := rq_status row; rq_version := (rq_version old + 1)%Z |}
  end.

Definition requestCondHolds (db : DB) (row : RideRequest) (c : RequestCond) : bool :=
  match c with
  | RequestIdEq rid => String.eqb (rq_id row) rid
  | RequestStatusEq s => RideStatus_eqb (rq_status row) s
  | RequestVersionEq v => (rq_version row =? v)%Z
  | RequestIdInPassengersOf rideId =>
      existsb (fun p => String.eqb (rp_ride_id p) rideId
                        && String.eqb (rp_request_id p) (rq_id row))
              (ride_passengers db)
  end.

Definition applyCabSet (row : CabRow) (s : CabSet) : CabRow :=
  match s with
  | SetCabAvailable b =>
      {| cab_id := cab_id row; cab_max_passengers := cab_max_passengers row;
         cab_max_luggage_capacity := cab_max_luggage_capacity row;
         cab_current_lat := cab_current_lat row; cab_current_lng := cab_current_lng row;
         cab_is_available := b |}
  | SetCabLat lat =>
      {| cab_id := cab_id row; cab_max_passengers := cab_max_passengers row;
         cab_max_luggage_capacity := cab_max_luggage_capacity row;
         cab_current_lat := Some lat; cab_current_lng := cab_current_lng row;
         cab_is_available := cab_is_available row |}
  | SetCabLng lng =>
      {| cab_id := cab_id row; cab_max_passengers := cab_max_passengers row;
         cab_max_luggage_capacity := cab_max_luggage_capacity row;
         cab_current_lat := cab_current_lat row; cab_current_lng := Some lng;
         cab_is_available := cab_is_available row |}
  end.

Definition cabCondHolds (row : CabRow) (c : CabCond) : bool :=
  match c with
  | CabIdEq cid => String.eqb (cab_id row) cid
  end.

Definition applyRideSet (old : RideRow) (row : RideRow) (s : RideSet) : RideRow :=
  match s with
  | SetRideStatus st =>
      {| ride_id := ride_id row; ride_cab_id := ride_cab_id row;
         ride_route := ride_route row; ride_total_distance := ride_total_distance row;
         ride_estimated_duration := ride_estimated_duration row;
         ride_base_price := ride_base_price row;
         ride_surge_factor := ride_surge_factor row;
         ride_status := st; ride_version := ride_version row |}
  | SetRideVersionPlus1 =>
      {| ride_id := ride_id row; ride_cab_id := ride_cab_id row;
         ride_route := ride_route row; ride_total_distance := ride_total_distance row;
         ride_estimated_duration := ride_estimated_duration row;
         ride_base_price := ride_base_price row;
         ride_surge_factor := ride_surge_factor row;
         ride_status := ride_status row; ride_version := (ride_version old + 1)%Z |}
  end.

Definition rideCondHolds (row : RideRow) (c : RideCond) : bool :=
  match c with
  | RideIdEq rid => String.eqb (ride_id row) rid
  | RideVersionEq v => (ride_version row =? v)%Z
  end.

(** Every row that meets all the conditions gets all the assignments; the
    right-hand sides read the row as it was before the statement. *)
Definition updateRows {Row SetC Cond} (holds : Row -> Cond -> bool)
  (apply : Row -> Row -> SetC -> Row) (sets : list SetC) (conds : list Cond)
  (rows : list Row) : list Row :=
  map (fun row =>
         if forallb (holds row) conds then fold_left (apply row) sets row else row)
      rows.

Definition applyUpdate (u : Update) (db : DB) : DB :=
  match u with
  | UpdateRequests sets conds =>
      {| ride_requests :=
           updateRows (requestCondHolds db) applyRequestSet sets conds (ride_requests db);
         cabs := cabs db; rides := rides db; ride_passengers := ride_passengers db |}
  | UpdateCabs sets conds =>
      {| ride_requests := ride_requests db;
         cabs := updateRows cabCondHolds (fun _ => applyCabSet) sets conds (cabs db);
         rides := rides db; ride_passengers := ride_passengers db |}
  | UpdateRides sets conds =>
      {| ride_requests := ride_requests db; cabs := cabs db;
         rides := updateRows rideCondHolds applyRideSet sets conds (rides db);
         ride_passengers := ride_passengers db |}
  end.

(** *** Connections and transactions *)

Inductive ServiceError :=
| RequestNotFound
| RequestAlreadyProcessed
| NoAvailableCabs
| RideNotFound
| RideAlreadyCancelled
| CannotCancelCompletedRide
| RideAlreadyCompleted
| CannotCompleteCancelledRide
| CanOnlyStartConfirmedRides
| ConstraintViolation (constraint : string)
| TypeError (what : string).


(** A pooled connection: the visible state of the store, the state saved
    by [BEGIN] while a transaction is open, and the [UPDATE] statements
    sent so far. *)
Record Conn := {
  conn_db : DB;
  conn_snapshot : option DB;
  conn_log : list Update
}.

Definition connect (db : DB) : Conn :=
  {| conn_db := db; conn_snapshot := None; conn_log := [] |}.

Definition Tx (A : Type) : Type := Conn -> Conn * (ServiceError + A).

Definition ret {A} (a : A) : Tx A := fun c => (c, inr a).

Definition throw {A} (e : ServiceError) : Tx A := fun c => (c, inl e).

Definition bind {A B} (m : Tx A) (k : A -> Tx B) : Tx B :=
  fun c =>
    match m c with
    | (c', inl e) => (c', inl e)
    | (c', inr a) => k a c'
    end.

Definition tryCatch {A} (body : Tx A) (handler : ServiceError -> Tx A) : Tx A :=
  fun c =>
    match body c with
    | (c', inl e) => handler e c'
    | r => r
    end.

Declare Scope tx_scope.
Delimit Scope tx_scope with tx.
Notation "x <- m ;; k" := (bind m (fun x => k))
  (at level 61, m at next level, right associativity) : tx_scope.
Notation "m ;; k" := (bind m (fun _ => k))
  (at level 61, right associativity) : tx_scope.

Local Open Scope tx_scope.

Definition query_BEGIN : Tx unit :=
  fun c => ({| conn_db := conn_db c; conn_snapshot := Some (conn_db c);
               conn_log := conn_log c |}, inr tt).

Definition query_COMMIT : Tx unit :=
  fun c => ({| conn_db := conn_db c; conn_snapshot := None;
               conn_log := conn_log c |}, inr tt).

Definition query_ROLLBACK : Tx unit :=
  fun c =>
    ({| conn_db := match conn_snapshot c with Some saved => saved | None => conn_db c end;
        conn_snapshot := None;
        conn_log := conn_log c |}, inr tt).

Definition query_UPDATE (u : Update) : Tx unit :=
  fun c => ({| conn_db := applyUpdate u (conn_db c);
               conn_snapshot := conn_snapshot c;
               conn_log := conn_log c ++ [u] |}, inr tt).

Definition query_SELECT {A} (q : DB -> A) : Tx A :=
  fun c => (c, inr (q (conn_db c))).

(** [INSERT INTO rides]: the primary key and the reference to [cabs]. *)
Definition query_INSERT_ride (row : RideRow) : Tx unit :=
  fun c =>
    let db := conn_db c in
    if existsb (fun r => String.eqb (ride_id r) (ride_id row)) (rides db) then
      (c, inl (ConstraintViolation "duplicate key value violates unique constraint rides_pkey"))
    else if negb (existsb (fun cab => String.eqb (cab_id cab) (ride_cab_id row)) (cabs db)) then
      (c, inl (ConstraintViolation "insert on table rides violates foreign key constraint"))
    else
      ({| conn_db := {| ride_requests := ride_requests db; cabs := cabs db;
                        rides := rides db ++ [row];
                        ride_passengers := ride_passengers db |};
          conn_snapshot := conn_snapshot c; conn_log := conn_log c |}, inr tt).

(** [INSERT INTO ride_passengers]: the references to [rides] and
    [ride_requests] and [UNIQUE(ride_id, request_id)]. *)
Definition query_INSERT_ride_passenger (row : RidePassengerRow) : Tx unit :=
  fun c =>
    let db := conn_db c in
    if negb (existsb (fun r => String.eqb (ride_id r) (rp_ride_id row)) (rides db)) then
      (c, inl (ConstraintViolation "insert on table ride_passengers violates foreign key constraint"))
    else if negb (existsb (fun r => String.eqb (rq_id r) (rp_request_id row)) (ride_requests db)) then
      (c, inl (ConstraintViolation "insert on table ride_passengers violates foreign key constraint"))
    else if existsb (fun p => String.eqb (rp_ride_id p) (rp_ride_id row)
                              && String.eqb (rp_request_id p) (rp_request_id row))
                    (ride_passengers db) then
      (c, inl (ConstraintViolation "duplicate key value violates unique constraint"))
    else
      ({| conn_db := {| ride_requests := ride_requests db; cabs := cabs db;
                        rides := rides db;
                        ride_passengers := ride_passengers db ++ [row] |};
          conn_snapshot := conn_snapshot c; conn_log := conn_log c |}, inr tt).

Fixpoint forEach {A} (xs : list A) (body : A -> Tx unit) : Tx unit :=
  match xs with
  | [] => ret tt
  | x :: rest => body x ;; forEach rest body
  end.

(** ** [src/services/RideService.ts] *)

(** The [rideData] body of the booking call. *)
Record RideData := {
  data_passengers : list PassengerInfo;
  data_route : RouteJson;
  data_totalDistance : Q;
  data_estimatedDuration : Z;
  data_basePrice : option Q;
  data_surgeFactor : option Q
}.

(** The [ride] of a match, as the client sends it back. *)
Definition rideDataOfRide (ride : Ride) : RideData :=
  {| data_passengers := rd_passengers ride;
     data_route := RouteLocations (rd_route ride);
     data_totalDistance := rd_totalDistance ride;
     data_estimatedDuration := rd_estimatedDuration ride;
     data_basePrice := rd_basePrice ride;
     data_surgeFactor := rd_surgeFactor ride |}.

(** [x || fallback] on an optional number. *)
Definition orNumber (x : option Q) (fallback : Q) : Q :=
  match x with
  | None => fallback
  | Some v => if Qeq_bool v 0 then fallback else v
  end.

Module RideService.

Section Pricing.

Local Open Scope Q_scope.

(** [Math.sqrt(latDiff * latDiff + lngDiff * lngDiff) * 111] for one hop of
    the route; the square root keeps it a parameter. *)
Variable hopKm : Location -> Location -> Q.

(** [for (i = pickupIdx; i < dropoffIdx && i < route.length - 1; i++)] with
    [n] turns left. *)
Fixpoint passengerDistanceLoop (n : nat) (i : Z) (route : list Location) (distance : Q)
  : option Q :=
  match n with
  | O => Some distance
  | S n' =>
      match JS.at_ route i, JS.at_ route (i + 1)%Z with
      | Some from, Some to =>
          passengerDistanceLoop n' (i + 1)%Z route (distance + hopKm from to)
      | _, _ => None
      end
  end.

Definition calculatePassengerDistance (passenger : PassengerInfo) (route : list Location)
  : option Q :=
  let pickupIdx := pi_pickupOrder passenger in
  let dropoffIdx := pi_dropoffOrder passenger in
  let stop := Z.min dropoffIdx (Z.of_nat (length route) - 1) in
  passengerDistanceLoop (Z.to_nat (stop - pickupIdx)) pickupIdx route 0.

Definition setFare (passenger : PassengerInfo) (fare : Q) : PassengerInfo :=
  {| pi_requestId := pi_requestId passenger; pi_userId := pi_userId passenger;
     pi_pickup := pi_pickup passenger; pi_dropoff := pi_dropoff passenger;
     pi_passengers := pi_passengers passenger; pi_luggage := pi_luggage passenger;
     pi_pickupOrder := pi_pickupOrder passenger;
     pi_dropoffOrder := pi_dropoffOrder passenger;
     pi_fare := fare;
     pi_detourMinutes := pi_detourMinutes passenger |}.

Definition ridePassengerCount (legs : list PassengerInfo) : Z :=
  fold_left (fun sum p => (sum + pi_passengers p)%Z) legs 0%Z.

(** The inner loop of [findMatches]: one leg of one match. *)
Definition priceLeg (surgeFactor : Q) (currentHour : Z) (route : list Location)
  (totalPassengersInRide : Z) (passenger : PassengerInfo) : option PassengerInfo :=
  match calculatePassengerDistance passenger route with
  | None => None
  | Some passengerDistance =>
      Some (setFare passenger
              (PricingEngine.calculateFare
                 {| baseDistance := passengerDistance;
                    actualDistance := passengerDistance;
                    passengers := pi_passengers passenger;
                    surgeFactor := surgeFactor;
                    timeOfDay := currentHour;
                    totalPassengersInRide := Some totalPassengersInRide |}))
  end.

Fixpoint priceLegs (surgeFactor : Q) (currentHour : Z) (route : list Location)
  (totalPassengersInRide : Z) (legs : list PassengerInfo) : option (list PassengerInfo) :=
  match legs with
  | [] => Some []
  | passenger :: rest =>
      match priceLeg surgeFactor currentHour route totalPassengersInRide passenger with
      | None => None
      | Some priced =>
          match priceLegs surgeFactor currentHour route totalPassengersInRide rest with
          | None => None
          | Some pricedRest => Some (priced :: pricedRest)
          end
      end
  end.

Definition priceMatch (surgeFactor : Q) (currentHour : Z) (m : MatchResult)
  : option MatchResult :=
  let ride := mr_ride m in
  let totalPassengersInRide := ridePassengerCount (rd_passengers ride) in
  match priceLegs surgeFactor currentHour (rd_route ride) totalPassengersInRide
          (rd_passengers ride) with
  | None => None
  | Some legs =>
      Some {| mr_score := mr_score m;
              mr_ride := {| rd_passengers := legs; rd_route := rd_route ride;
                            rd_totalDistance := rd_totalDistance ride;
                            rd_estimatedDuration := rd_estimatedDuration ride;
                            rd_basePrice := rd_basePrice ride;
                            rd_surgeFactor := rd_surgeFactor ride |};
              mr_savings := mr_savings m;
              mr_detourTime := mr_detourTime m |}
  end.

Fixpoint priceMatches (surgeFactor : Q) (currentHour : Z) (matches : list MatchResult)
  : option (list MatchResult) :=
  match matches with
  | [] => Some []
  | m :: rest =>
      match priceMatch surgeFactor currentHour m with
      | None => None
      | Some priced =>
          match priceMatches surgeFactor currentHour rest with
          | None => None
          | Some pricedRest => Some (priced :: pricedRest)
          end
      end
  end.

(** [findMatches] once the lease is held and the request and its
    neighbours are loaded: the matching engine, then the fares.
    [surgeFactor] is the value of [getCurrentSurgeFactor()] and
    [currentHour] that of [new Date().getHours()]. *)
Definition findMatches (calculateDistance : Location -> Location -> Q)
  (cfg : MatchingConfig) (surgeFactor : Q) (currentHour : Z)
  (request : RideRequest) (activeRequests : list RideRequest)
  : option (list MatchResult) :=
  match RideMatchingEngine.findMatches calculateDistance cfg request activeRequests with
  | None => None
  | Some matches => priceMatches surgeFactor currentHour matches
  end.

End Pricing.

Local Open Scope tx_scope.

Definition selectRequestForUpdate (requestId : string) : Tx (list (Z * RideStatus)) :=
  query_SELECT (fun db =>
    map (fun r => (rq_version r, rq_status r))
        (filter (fun r => String.eqb (rq_id r) requestId) (ride_requests db))).

(** [SELECT id FROM cabs WHERE is_available = true LIMIT 1]: the store may
    answer with any available cab; the first in table order is taken. *)
Definition selectAvailableCab : Tx (list string) :=
  query_SELECT (fun db =>
    firstn 1 (map cab_id (filter cab_is_available (cabs db)))).

Definition selectRideForUpdate (rideId : string)
  : Tx (list (Z * RideStatus * string)) :=
  query_SELECT (fun db =>
    map (fun r => (ride_version r, ride_status r, ride_cab_id r))
        (filter (fun r => String.eqb (ride_id r) rideId) (rides db))).

Definition insertPassengerAndConfirm (rideId : string) (passenger : PassengerInfo)
  : Tx unit :=
  query_INSERT_ride_passenger
    {| rp_ride_id := rideId;
       rp_request_id := pi_requestId passenger;
       rp_pickup_order := pi_pickupOrder passenger;
       rp_dropoff_order := pi_dropoffOrder passenger;
       rp_fare := pi_fare passenger;
       rp_detour_minutes := pi_detourMinutes passenger |} ;;
  query_UPDATE (UpdateRequests [SetRequestStatus CONFIRMED; SetRequestVersionPlus1]
                               [RequestIdEq (pi_requestId passenger)]).

(** [newRideId] is the identifier drawn by [uuidv4()].  The cache entry
    deleted after [COMMIT] is not part of the store. *)
Definition confirmBooking (newRideId : string) (requestId : string) (rideData : RideData)
  : Tx string :=
  tryCatch
    (query_BEGIN ;;
     requestCheck <- selectRequestForUpdate requestId ;;
     match requestCheck with
     | [] => throw RequestNotFound
     | (_, status) :: _ =>
         if negb (RideStatus_eqb status PENDING) then throw RequestAlreadyProcessed
         else
           cabResult <- selectAvailableCab ;;
           match cabResult with
           | [] => throw NoAvailableCabs
           | cabId :: _ =>
               query_UPDATE (UpdateCabs [SetCabAvailable false] [CabIdEq cabId]) ;;
               let rideId := newRideId in
               query_INSERT_ride
                 {| ride_id := rideId;
                    ride_cab_id := cabId;
                    ride_route := data_route rideData;
                    ride_total_distance := data_totalDistance rideData;
                    ride_estimated_duration := data_estimatedDuration rideData;
                    ride_base_price := orNumber (data_basePrice rideData) 0;
                    ride_surge_factor := orNumber (data_surgeFactor rideData) 1.0;
                    ride_status := CONFIRMED;
                    ride_version := 1 |} ;;
               forEach (data_passengers rideData) (insertPassengerAndConfirm rideId) ;;
               query_COMMIT ;;
               ret rideId
           end
     end)
    (fun error => query_ROLLBACK ;; throw error).

Definition cancelRide (rideId : string) : Tx unit :=
  tryCatch
    (query_BEGIN ;;
     rideCheck <- selectRideForUpdate rideId ;;
     match rideCheck with
     | [] => throw RideNotFound
     | (_, status, cabId) :: _ =>
         if RideStatus_eqb status CANCELLED then throw RideAlreadyCancelled
         else if RideStatus_eqb status COMPLETED then throw CannotCancelCompletedRide
         else
           query_UPDATE (UpdateRides [SetRideStatus CANCELLED; SetRideVersionPlus1]
                                     [RideIdEq rideId]) ;;
           query_UPDATE (UpdateCabs [SetCabAvailable true] [CabIdEq cabId]) ;;
           query_UPDATE (UpdateRequests [SetRequestStatus PENDING]
                                        [RequestIdInPassengersOf rideId]) ;;
           query_COMMIT
     end)
    (fun error => query_ROLLBACK ;; throw error).

(** No transaction is opened here: the statement commits on its own. *)
Definition markNoDriverAvailable (requestId : string) : Tx unit :=
  query_UPDATE (UpdateRequests [SetRequestStatus CANCELLED]
                               [RequestIdEq requestId; RequestStatusEq PENDING]).

End RideService.

(** ** [src/services/RideCompletionService.ts] *)

Module RideCompletionService.

Local Open Scope tx_scope.

Definition selectRideStatus (rideId : string) : Tx (list (RideStatus * string)) :=
  query_SELECT (fun db =>
    map (fun r => (ride_status r, ride_cab_id r))
        (filter (fun r => String.eqb (ride_id r) rideId) (rides db))).

Definition selectRoute (rideId : string) : Tx (list RouteJson) :=
  query_SELECT (fun db =>
    map ride_route (filter (fun r => String.eqb (ride_id r) rideId) (rides db))).

(** [finalDropoffLat] and [finalDropoffLng]: [None] is [null]. *)
Definition finalDropoff (route : RouteJson) : option Q * option Q :=
  match route with
  | RouteLocations _ => (None, None)
  | RouteObject wps =>
      match last (map Some wps) None with
      | Some lastWaypoint =>
          match wp_type lastWaypoint with
          | Dropoff => (Some (latitude (wp_location lastWaypoint)),
                        Some (longitude (wp_location lastWaypoint)))
          | Pickup => (None, None)
          end
      | None => (None, None)
      end
  end.

(** Truthiness of an optional number: [null] and [0] are falsy. *)
Definition truthy (x : option Q) : bool :=
  match x with
  | None => false
  | Some v => negb (Qeq_bool v 0)
  end.

(** [if (finalDropoffLat && finalDropoffLng)] and its two updates. *)
Definition freeCab (cabId : string) (finalDropoffLat finalDropoffLng : option Q)
  : Tx unit :=
  match finalDropoffLat, finalDropoffLng with
  | Some lat, Some lng =>
      if truthy finalDropoffLat && truthy finalDropoffLng then
        query_UPDATE (UpdateCabs [SetCabAvailable true; SetCabLat lat; SetCabLng lng]
                                 [CabIdEq cabId])
      else query_UPDATE (UpdateCabs [SetCabAvailable true] [CabIdEq cabId])
  | _, _ => query_UPDATE (UpdateCabs [SetCabAvailable true] [CabIdEq cabId])
  end.

Definition completeRide (rideId : string) : Tx unit :=
  tryCatch
    (query_BEGIN ;;
     rideCheck <- selectRideStatus rideId ;;
     match rideCheck with
     | [] => throw RideNotFound
     | (status, cabId) :: _ =>
         if RideStatus_eqb status COMPLETED then throw RideAlreadyCompleted
         else if RideStatus_eqb status CANCELLED then throw CannotCompleteCancelledRide
         else
           rideDetails <- selectRoute rideId ;;
           match rideDetails with
           | [] => throw (TypeError "Cannot read properties of undefined (reading 'route')")
           | route :: _ =>
               let '(finalDropoffLat, finalDropoffLng) := finalDropoff route in
               query_UPDATE (UpdateRides [SetRideStatus COMPLETED; SetRideVersionPlus1]
                                         [RideIdEq rideId]) ;;
               freeCab cabId finalDropoffLat finalDropoffLng ;;
               query_UPDATE (UpdateRequests [SetRequestStatus COMPLETED]
                                            [RequestIdInPassengersOf rideId]) ;;
               query_COMMIT
           end
     end)
    (fun error => query_ROLLBACK ;; throw error).

Definition startRide (rideId : string) : Tx unit :=
  tryCatch
    (query_BEGIN ;;
     rideCheck <- selectRideStatus rideId ;;
     match rideCheck with
     | [] => throw RideNotFound
     | (status, _) :: _ =>
         if negb (RideStatus_eqb status CONFIRMED) then throw CanOnlyStartConfirmedRides
         else
           query_UPDATE (UpdateRides [SetRideStatus IN_PROGRESS; SetRideVersionPlus1]
                                     [RideIdEq rideId]) ;;
           query_UPDATE (UpdateRequests [SetRequestStatus IN_PROGRESS]
                                        [RequestIdInPassengersOf rideId]) ;;
           query_COMMIT
     end)
    (fun error => query_ROLLBACK ;; throw error).

End RideCompletionService.

(** ** The Coordinator operations, run on a fresh connection *)

Inductive CoordinatorOp :=
| ConfirmBooking (newRideId requestId : string) (rideData : RideData)
| CancelRide (rideId : string)
| CompleteRide (rideId : string)
| StartRide (rideId : string)
| MarkNoDriverAvailable (requestId : string).

(** The outcome of a call: the store afterwards, the updates sent, and the
    error if the call threw. *)
Record Outcome := {
  out_db : DB;
  out_updates : list Update;
  out_error : option ServiceError
}.

Definition outcome {A} (r : Conn * (ServiceError + A)) : Outcome :=
  {| out_db := conn_db (fst r);
     out_updates := conn_log (fst r);
     out_error := match snd r with inl e => Some e | inr _ => None end |}.

Definition runOp (op : CoordinatorOp) (db : DB) : Outcome :=
  match op with
  | ConfirmBooking newRideId requestId rideData =>
      outcome (RideService.confirmBooking newRideId requestId rideData (connect db))
  | CancelRide rideId => outcome (RideService.cancelRide rideId (connect db))
  | CompleteRide rideId => outcome (RideCompletionService.completeRide rideId (connect db))
  | StartRide rideId => outcome (RideCompletionService.startRide rideId (connect db))
  | MarkNoDriverAvailable requestId =>
      outcome (RideService.markNoDriverAvailable requestId (connect db))
  end.

(** ** A computable distance for concrete runs

    Close to the equator and over a few kilometres the haversine formula
    is the plane formula [R * sqrt (dLat^2 + dLon^2)] up to a relative
    error below one in a million, with [R * pi / 180 = 111.19] km for each
    degree.  The square root is taken to a millionth of a degree; for two
    points on one meridian the result is the arc [R * |dLat|] itself. *)
Definition sqrtMicro (x : Q) : Q :=
  (inject_Z (Z.sqrt (Qfloor (x * 1000000000000))) / 1000000)%Q.

Definition localDistance (point1 point2 : Location) : Q :=
  let dLat := (latitude point2 - latitude point1)%Q in
  let dLon := (longitude point2 - longitude point1)%Q in
  (sqrtMicro (dLat * dLat + dLon * dLon) * 111.19)%Q.

Definition at_ (lat lng : Q) : Location :=
  {| latitude := lat; longitude := lng; address := None |}.

Definition mkRequest (rid : string) (pickup dropoff : Location) (seats : Z)
  (bags : list LuggageSize) : RideRequest :=
  {| rq_id := rid; rq_userId := "user-123";
     rq_pickup := pickup; rq_dropoff := dropoff;
     rq_requestedAt := 0; rq_passengers := seats; rq_luggage := bags;
     rq_maxDetourMinutes := 15; rq_status := PENDING; rq_version := 1 |}.

(** ** The specification's wording, for comparison with the code *)

(** "clamped to [lo, hi]". *)
Definition clamp (lo hi x : Q) : Q :=
  if Qlt_le_dec x lo then lo else if Qlt_le_dec hi x then hi else x.

(** "[surge = 1 + min(demandRatio, 2)^2], clamped to [1.0, 3.0]". *)
Definition surgeSpec (activeRequests availableVehicles : Q) : Q :=
  let demandRatio := (activeRequests / availableVehicles)%Q in
  clamp 1 3 (1 + Qmin demandRatio 2 * Qmin demandRatio 2)%Q.

(** The fare of one leg as the specification writes it: the discount tier
    of [tierPassengers], the amount scaled by [bookingPassengers]. *)
Definition fareSpec (distanceKm surge : Q) (hour : Z)
  (tierPassengers bookingPassengers : Z) : Q :=
  let perPassenger :=
    ((PricingEngine.BASE_FARE + distanceKm * PricingEngine.RATE_PER_KM) * surge
     * PricingEngine.getTimeMultiplier hour
     * (1 - PricingEngine.getPoolingDiscount tierPassengers))%Q in
  let total := (perPassenger * inject_Z bookingPassengers)%Q in
  Qmax PricingEngine.MIN_FARE (inject_Z (JS.Math_round (total * 100)) / 100)%Q.

Definition withActualDistance (params : PricingParams) (d : Q) : PricingParams :=
  {| baseDistance := baseDistance params; actualDistance := d;
     passengers := passengers params; surgeFactor := surgeFactor params;
     timeOfDay := timeOfDay params;
     totalPassengersInRide := totalPassengersInRide params |}.

Definition withSurgeFactor (params : PricingParams) (s : Q) : PricingParams :=
  {| baseDistance := baseDistance params; actualDistance := actualDistance params;
     passengers := passengers params; surgeFactor := s;
     timeOfDay := timeOfDay params;
     totalPassengersInRide := totalPassengersInRide params |}.

(** "the sum of the members' passenger counts" and "the sum of the members'
    luggage units". *)
Definition totalPassengers (group : list RideRequest) : Z :=
  fold_right (fun r acc => (rq_passengers r + acc)%Z) 0%Z group.

Definition luggageUnitsOf (r : RideRequest) : Z :=
  fold_right (fun l acc => (luggageUnits l + acc)%Z) 0%Z (rq_luggage r).

Definition totalLuggageUnits (group : list RideRequest) : Z :=
  fold_right (fun r acc => (luggageUnitsOf r + acc)%Z) 0%Z group.

(** "the trip's total passenger count (summed over all legs)". *)
Definition tripPassengers (legs : list PassengerInfo) : Z :=
  fold_right (fun p acc => (pi_passengers p + acc)%Z) 0%Z legs.

(** ** Routes, without the in-place array *)

(** The arrays that [permute] reaches, validity not yet checked: the same
    recursion on a value instead of a shared array. *)
Fixpoint arrangements (fuel : nat) (start : nat) (arr : list Waypoint)
  : list (list Waypoint) :=
  match fuel with
  | O => []
  | S fuel' =>
      if (Z.of_nat start =? Z.of_nat (length arr) - 1)%Z then [arr]
      else flat_map (fun i => arrangements fuel' (S start) (JS.swap start i arr))
                    (seq start (length arr - start))
  end.

(** "the naive route that visits all pickups and then all dropoffs in input
    order". *)
Definition naiveRoute (requests : list RideRequest) : list Waypoint :=
  map pickupWaypoint requests ++ map dropoffWaypoint requests.

(** "places each member's pickup before that member's dropoff": both are on
    the route, at the positions [createRide] records, pickup first. *)
Definition ordered (route : list Waypoint) (rid : string) : Prop :=
  (0 <= JS.findIndex (isPickupOf rid) route < JS.findIndex (isDropoffOf rid) route)%Z.

Definition pickupBeforeDropoff (route : list Waypoint) (request : RideRequest) : Prop :=
  ordered route (rq_id request).

(** ** Vocabulary of the proofs *)

(** The length of a route of waypoints, as [optimizeRouteDynamic] measures it. *)
Definition routeKm (dist : Location -> Location -> Q) (route : list Waypoint) : Q :=
  calculateRouteDistance dist (map wp_location route).

(** [best] is the first shortest route among those [seen]. *)
Definition bestOf (dist : Location -> Location -> Q) (seen : list (list Waypoint))
  (best : Best) : Prop :=
  match best with
  | None => seen = []
  | Some (route, km) =>
      In route seen /\ km = routeKm dist route
      /\ forall other, In other seen -> (km <= routeKm dist other)%Q
  end.

(** A pickup ([p := isPickupOf]) or dropoff of request [rid] is on the route. *)
Definition onRoute (p : string -> Waypoint -> bool) (route : list Waypoint)
  (rid : string) : Prop :=
  JS.findIndex (p rid) route <> (-1)%Z.

(** What every turn of the greedy loop keeps true. *)
Record GreedyInv (requests : list RideRequest) (st : GreedyState) : Prop := {
  inv_pending : forall w, In w (gs_waypoints st) ->
                          exists r, In r requests /\ w = pickupWaypoint r;
  inv_known : forall rid, JS.has (gs_pickedUp st) rid = true ->
                          exists r, In r requests /\ rq_id r = rid;
  inv_onboard : forall rid, JS.has (gs_pickedUp st) rid = true ->
                            onRoute isPickupOf (gs_route st) rid;
  inv_order : forall rid, onRoute isDropoffOf (gs_route st) rid ->
                          ordered (gs_route st) rid;
  inv_served : forall r, In r requests ->
      In (pickupWaypoint r) (gs_waypoints st)
      \/ (onRoute isPickupOf (gs_route st) (rq_id r)
          /\ (JS.has (gs_pickedUp st) (rq_id r) = true
              \/ onRoute isDropoffOf (gs_route st) (rq_id r)))
}.

(** What every turn of the greedy loop makes smaller. *)
Definition greedyMeasure (st : GreedyState) : nat :=
  2 * length (gs_waypoints st) + length (gs_pickedUp st).

(** ** Reading the store *)

(** The status of the request with this id, if there is one. *)
Definition requestStatus (db : DB) (requestId : string) : option RideStatus :=
  match filter (fun r => String.eqb (rq_id r) requestId) (ride_requests db) with
  | [] => None
  | r :: _ => Some (rq_status r)
  end.






(** A step keeps [I] true of the connection, whatever its outcome. *)
Definition preserves {A} (I : Conn -> Prop) (m : Tx A) : Prop :=
  forall c c' r, m c = (c', r) -> I c -> I c'.

(** A step keeps [I] true of the connection when it throws. *)
Definition preservesOnError {A} (I : Conn -> Prop) (m : Tx A) : Prop :=
  forall c c' e, m c = (c', inl e) -> I c -> I c'.

(** The state saved by [BEGIN] is [saved]. *)
Definition savedIs (saved : DB) (c : Conn) : Prop := conn_snapshot c = Some saved.


(** A trip row after [SET status = 'COMPLETED', version = version + 1]. *)
Definition completedRow (row : RideRow) : RideRow :=
  fold_left (applyRideSet row) [SetRideStatus COMPLETED; SetRideVersionPlus1] row.

(** ** Data for the concrete runs *)

(** One hop of [calculatePassengerDistance], with the same square root as
    [localDistance]. *)
Definition flatHopKm (from to : Location) : Q :=
  let latDiff := (latitude to - latitude from)%Q in
  let lngDiff := (longitude to - longitude from)%Q in
  (sqrtMicro (latDiff * latDiff + lngDiff * lngDiff) * 111)%Q.

(** Six parties of two, all from the terminal to the same hotel. *)
Definition terminal : Location := at_ 0 0.
Definition hotel : Location := at_ 0.05 0.

Definition partyOfTwo (rid : string) : RideRequest :=
  mkRequest rid terminal hotel 2 [].

Definition waitingParties : list RideRequest :=
  [partyOfTwo "a"; partyOfTwo "b"; partyOfTwo "c"; partyOfTwo "d"; partyOfTwo "e"].

(** Rider A goes 5 km east; rider B crosses A's way half-way, north to
    south, over 1 km. *)
Definition riderA : RideRequest := mkRequest "A" (at_ 0 0) (at_ 0 0.045) 1 [].
Definition riderB : RideRequest :=
  mkRequest "B" (at_ 0.0045 0.0225) (at_ (-0.0045) 0.0225) 1 [].

(** Five riders along one meridian, all bound for the same place. *)
Definition fiveRiders : list RideRequest :=
  [mkRequest "1" (at_ 0 0) (at_ 0.10 0) 1 [];
   mkRequest "2" (at_ (-0.01) 0) (at_ 0.10 0) 1 [];
   mkRequest "3" (at_ (-0.05) 0) (at_ 0.10 0) 1 [];
   mkRequest "4" (at_ 0.02 0) (at_ 0.10 0) 1 [];
   mkRequest "5" (at_ 0.10 0) (at_ 0.10 0) 1 []].

Definition cabAt (cid : string) (available : bool) : CabRow :=
  {| cab_id := cid; cab_max_passengers := 4; cab_max_luggage_capacity := 6;
     cab_current_lat := Some 0; cab_current_lng := Some 0;
     cab_is_available := available |}.

(** Both riders pending, one cab free. *)
Definition bookingDb : DB :=
  {| ride_requests := [riderA; riderB]; cabs := [cabAt "cab-1" true];
     rides := []; ride_passengers := [] |}.


(** The pooled ride of A and B as the matching engine builds it, or an
    empty ride should the engine offer none. *)
Definition pooledRide : Ride :=
  match RideService.findMatches flatHopKm localDistance defaultConfig 1 12 riderA [riderB] with
  | Some (m :: _) => mr_ride m
  | _ => {| rd_passengers := []; rd_route := []; rd_totalDistance := 0;
            rd_estimatedDuration := 0; rd_basePrice := None; rd_surgeFactor := None |}
  end.

(** The store after that ride is booked. *)
Definition bookedDb : DB :=
  out_db (runOp (ConfirmBooking "ride-1" "A" (rideDataOfRide pooledRide)) bookingDb).

Definition noonRide : PricingParams :=
  {| baseDistance := 10; actualDistance := 10; passengers := 1; surgeFactor := 1;
     timeOfDay := 12; totalPassengersInRide := None |}.

(** ** Vocabulary for pricing *)

(** The same ride with another total passenger count. *)
Definition withTotalPassengers (params : PricingParams) (total : Z) : PricingParams :=
  {| baseDistance := baseDistance params; actualDistance := actualDistance params;
     passengers := passengers params; surgeFactor := surgeFactor params;
     timeOfDay := timeOfDay params;
     totalPassengersInRide := Some total |}.

(** The sum of a list of amounts. *)
Definition sumQ (xs : list Q) : Q := fold_right Qplus 0 xs.

(** ** Vocabulary for matching *)

(** The solo option that [findMatches] puts first in [matches]. *)
Definition soloOption (dist : Location -> Location -> Q) (request : RideRequest)
  : MatchResult :=
  RideMatchingEngine.soloMatch
    (RideMatchingEngine.createRide [request] (createSimpleRoute dist request)).

(** [matches] when the loop over the groups ends, before it is sorted and
    cut to five. *)
Definition candidates (dist : Location -> Location -> Q) (cfg : MatchingConfig)
  (request : RideRequest) (activeRequests : list RideRequest)
  : option (list MatchResult) :=
  RideMatchingEngine.matchGroups dist cfg request
    (RideMatchingEngine.createRequestGroups cfg
       (RideMatchingEngine.filterNearbyRequests dist cfg request activeRequests))
    [soloOption dist request].


(** [a] comes before [b] in descending order of score. *)
Definition byScoreDesc (a b : MatchResult) : Prop := (mr_score b <= mr_score a)%Q.

(** [arr.slice(i, j + 1)]: the cells [i] to [j], both included. *)
Definition stretch {A} (arr : list A) (i j : Z) : list A :=
  firstn (Z.to_nat (j - i) + 1) (skipn (Z.to_nat i) arr).

(** ** Vocabulary for the store *)

(** The first ride row with this id, which is the row the services read. *)
Definition rideRow (db : DB) (rideId : string) : option RideRow :=
  hd_error (filter (fun r => String.eqb (ride_id r) rideId) (rides db)).

(** The status of the ride with this id, if there is one. *)
Definition rideStatusOf (db : DB) (rideId : string) : option RideStatus :=
  option_map ride_status (rideRow db rideId).

(** The store after the statements of [startRide], [cancelRide] and
    [completeRide]. *)
Definition startedStore (rideId : string) (db : DB) : DB :=
  applyUpdate (UpdateRequests [SetRequestStatus IN_PROGRESS]
                              [RequestIdInPassengersOf rideId])
    (applyUpdate (UpdateRides [SetRideStatus IN_PROGRESS; SetRideVersionPlus1]
                              [RideIdEq rideId]) db).

Definition cancelledStore (rideId cabId : string) (db : DB) : DB :=
  applyUpdate (UpdateRequests [SetRequestStatus PENDING]
                              [RequestIdInPassengersOf rideId])
    (applyUpdate (UpdateCabs [SetCabAvailable true] [CabIdEq cabId])
       (applyUpdate (UpdateRides [SetRideStatus CANCELLED; SetRideVersionPlus1]
                                 [RideIdEq rideId]) db)).

(** The [UPDATE cabs] that [completeRide] picks. *)
Definition freeCabUpdate (cabId : string) (route : RouteJson) : Update :=
  match RideCompletionService.finalDropoff route with
  | (Some lat, Some lng) =>
      if RideCompletionService.truthy (Some lat) && RideCompletionService.truthy (Some lng)
      then UpdateCabs [SetCabAvailable true; SetCabLat lat; SetCabLng lng] [CabIdEq cabId]
      else UpdateCabs [SetCabAvailable true] [CabIdEq cabId]
  | _ => UpdateCabs [SetCabAvailable true] [CabIdEq cabId]
  end.

Definition completedStore (rideId : string) (row : RideRow) (db : DB) : DB :=
  applyUpdate (UpdateRequests [SetRequestStatus COMPLETED]
                              [RequestIdInPassengersOf rideId])
    (applyUpdate (freeCabUpdate (ride_cab_id row) (ride_route row))
       (applyUpdate (UpdateRides [SetRideStatus COMPLETED; SetRideVersionPlus1]
                                 [RideIdEq rideId]) db)).

(** The row that [confirmBooking] inserts for a leg. *)
Definition passengerRow (rideId : string) (passenger : PassengerInfo) : RidePassengerRow :=
  {| rp_ride_id := rideId;
     rp_request_id := pi_requestId passenger;
     rp_pickup_order := pi_pickupOrder passenger;
     rp_dropoff_order := pi_dropoffOrder passenger;
     rp_fare := pi_fare passenger;
     rp_detour_minutes := pi_detourMinutes passenger |}.

(** A request row after [SET status = 'CONFIRMED', version = version + 1]. *)
Definition confirmedRequest (r : RideRequest) : RideRequest :=
  fold_left (applyRequestSet r) [SetRequestStatus CONFIRMED; SetRequestVersionPlus1] r.

(** That update for the rows [WHERE id = requestId]. *)
Definition confirmRequest (requestId : string) (rows : list RideRequest)
  : list RideRequest :=
  map (fun r => if String.eqb (rq_id r) requestId then confirmedRequest r else r) rows.

(** The updates of the loop over the legs, in order. *)
Definition confirmRequests (ids : list string) (rows : list RideRequest)
  : list RideRequest :=
  fold_left (fun rows requestId => confirmRequest requestId rows) ids rows.

(** The cab rows after [SET is_available = false WHERE id = cabId]. *)
Definition reserveCab (cabId : string) (rows : list CabRow) : list CabRow :=
  map (fun cab => if String.eqb (cab_id cab) cabId
                  then applyCabSet cab (SetCabAvailable false) else cab) rows.

(** The row that [confirmBooking] inserts into [rides]. *)
Definition bookedRide (rideId cabId : string) (rideData : RideData) : RideRow :=
  {| ride_id := rideId;
     ride_cab_id := cabId;
     ride_route := data_route rideData;
     ride_total_distance := data_totalDistance rideData;
     ride_estimated_duration := data_estimatedDuration rideData;
     ride_base_price := orNumber (data_basePrice rideData) 0;
     ride_surge_factor := orNumber (data_surgeFactor rideData) 1.0;
     ride_status := CONFIRMED;
     ride_version := 1 |}.

(** There is a request row, a ride row, a passenger row of the ride. *)
Definition hasRequest (db : DB) (requestId : string) : bool :=
  existsb (fun r => String.eqb (rq_id r) requestId) (ride_requests db).

Definition hasRide (db : DB) (rideId : string) : bool :=
  existsb (fun r => String.eqb (ride_id r) rideId) (rides db).

Definition hasPassengersOf (db : DB) (rideId : string) : bool :=
  existsb (fun p => String.eqb (rp_ride_id p) rideId) (ride_passengers db).

(** The cab that [selectAvailableCab] answers with. *)
Definition firstAvailableCab (db : DB) : option string :=
  match filter cab_is_available (cabs db) with
  | [] => None
  | cab :: _ => Some (cab_id cab)
  end.

(** No passenger row links this ride and this request yet. *)
Definition legFree (db : DB) (rideId : string) (requestId : string) : bool :=
  negb (existsb (fun p => String.eqb (rp_ride_id p) rideId
                          && String.eqb (rp_request_id p) requestId)
                (ride_passengers db)).

(** The store after the loop over the legs. *)
Definition bookLegs (rideId : string) (legs : list PassengerInfo) (db : DB) : DB :=
  {| ride_requests := confirmRequests (map pi_requestId legs) (ride_requests db);
     cabs := cabs db;
     rides := rides db;
     ride_passengers := ride_passengers db ++ map (passengerRow rideId) legs |}.

(** The store after a successful [confirmBooking] that reserved [cabId]. *)
Definition bookedStore (rideId cabId : string) (rideData : RideData) (db : DB) : DB :=
  {| ride_requests :=
       confirmRequests (map pi_requestId (data_passengers rideData)) (ride_requests db);
     cabs := reserveCab cabId (cabs db);
     rides := rides db ++ [bookedRide rideId cabId rideData];
     ride_passengers :=
       ride_passengers db ++ map (passengerRow rideId) (data_passengers rideData) |}.

(** A request or ride row with another status and its version moved on by
    [bump]. *)
Definition setRequest (status : RideStatus) (bump : Z) (r : RideRequest) : RideRequest :=
  {| rq_id := rq_id r; rq_userId := rq_userId r; rq_pickup := rq_pickup r;
     rq_dropoff := rq_dropoff r; rq_requestedAt := rq_requestedAt r;
     rq_passengers := rq_passengers r; rq_luggage := rq_luggage r;
     rq_maxDetourMinutes := rq_maxDetourMinutes r;
     rq_status := status; rq_version := (rq_version r + bump)%Z |}.

Definition setRide (status : RideStatus) (bump : Z) (row : RideRow) : RideRow :=
  {| ride_id := ride_id row; ride_cab_id := ride_cab_id row;
     ride_route := ride_route row; ride_total_distance := ride_total_distance row;
     ride_estimated_duration := ride_estimated_duration row;
     ride_base_price := ride_base_price row;
     ride_surge_factor := ride_surge_factor row;
     ride_status := status; ride_version := (ride_version row + bump)%Z |}.

(** The request is one of the legs of [rideData]. *)
Definition isLeg (rideData : RideData) (r : RideRequest) : bool :=
  existsb (String.eqb (rq_id r)) (map pi_requestId (data_passengers rideData)).

(** The store once the ride booked from [rideData] has reached [status]
    after [bump] further updates of its row, with its requests at
    [legStatus]. *)
Definition rideStore (status legStatus : RideStatus) (bump : Z) (rideId cabId : string)
  (rideData : RideData) (fleet : list CabRow) (db : DB) : DB :=
  {| ride_requests :=
       map (fun r => if isLeg rideData r then setRequest legStatus 1 r else r)
           (ride_requests db);
     cabs := fleet;
     rides := rides db ++ [setRide status bump (bookedRide rideId cabId rideData)];
     ride_passengers :=
       ride_passengers db ++ map (passengerRow rideId) (data_passengers rideData) |}.

(** The keys of [schema.sql] that the services rely on: primary keys, the
    references of [rides] and [ride_passengers], and
    [UNIQUE(ride_id, request_id)]. *)
Record integrity (db : DB) : Prop := {
  requests_pkey : NoDup (map rq_id (ride_requests db));
  cabs_pkey : NoDup (map cab_id (cabs db));
  rides_pkey : NoDup (map ride_id (rides db));
  rides_cab_fkey : forall ride, In ride (rides db) -> In (ride_cab_id ride) (map cab_id (cabs db));
  passengers_ride_fkey :
    forall p, In p (ride_passengers db) -> In (rp_ride_id p) (map ride_id (rides db));
  passengers_request_fkey :
    forall p, In p (ride_passengers db) ->
              In (rp_request_id p) (map rq_id (ride_requests db));
  passengers_unique :
    NoDup (map (fun p => (rp_ride_id p, rp_request_id p)) (ride_passengers db))
}.

(** ** [src/services/RideCompletionService.ts]: [completeExpiredRides] *)

Module RideCompletionSweep.

Section Clock.

Local Open Scope tx_scope.

(** [created_at] of the ride with this id and [NOW()], in minutes.  No
    statement writes [created_at], and [id] is the primary key. *)
Variable createdAt : string -> Q.

Variable now : Q.

(** The [WHERE] clause of the first query. *)
Definition expired (r : RideRow) : bool :=
  (RideStatus_eqb (ride_status r) CONFIRMED || RideStatus_eqb (ride_status r) IN_PROGRESS)
  && JS.ltb (createdAt (ride_id r) + inject_Z (ride_estimated_duration r))%Q now.

Definition selectExpiredRides : Tx (list (string * string)) :=
  query_SELECT (fun db => map (fun r => (ride_id r, ride_cab_id r))
                              (filter expired (rides db))).

(** The body of [for (const ride of expiredRides.rows)]. *)
Definition completeExpired (ride : string * string) : Tx unit :=
  let '(rideId, cabId) := ride in
  rideDetails <- RideCompletionService.selectRoute rideId ;;
  match rideDetails with
  | [] => throw (TypeError "Cannot read properties of undefined (reading 'route')")
  | route :: _ =>
      let '(finalDropoffLat, finalDropoffLng) := RideCompletionService.finalDropoff route in
      query_UPDATE (UpdateRides [SetRideStatus COMPLETED; SetRideVersionPlus1]
                                [RideIdEq rideId]) ;;
      RideCompletionService.freeCab cabId finalDropoffLat finalDropoffLng ;;
      query_UPDATE (UpdateRequests [SetRequestStatus COMPLETED]
                                   [RequestIdInPassengersOf rideId])
  end.

Fixpoint sweepLoop (expiredRides : list (string * string)) (completedCount : Z) : Tx Z :=
  match expiredRides with
  | [] => ret completedCount
  | ride :: rest => completeExpired ride ;; sweepLoop rest (completedCount + 1)%Z
  end.

Definition completeExpiredRides : Tx Z :=
  tryCatch
    (query_BEGIN ;;
     expiredRides <- selectExpiredRides ;;
     completedCount <- sweepLoop expiredRides 0%Z ;;
     query_COMMIT ;;
     ret completedCount)
    (fun error => query_ROLLBACK ;; throw error).

End Clock.

End RideCompletionSweep.

(** The requests with a passenger row on one of these rides. *)
Definition onRides (db : DB) (rideIds : list string) (r : RideRequest) : bool :=
  existsb (fun rideId => requestCondHolds db r (RequestIdInPassengersOf rideId)) rideIds.

(** ** Further data for the concrete runs *)

(** The taxicab distance, in degrees: it obeys the triangle inequality
    exactly. *)
Definition taxicabDistance (point1 point2 : Location) : Q :=
  (Qabs (latitude point2 - latitude point1)
   + Qabs (longitude point2 - longitude point1))%Q.

(** Three points of one meridian, and a leg whose recorded dropoff position
    lies beyond the end of that route. *)
Definition meridianRoute : list Location := [at_ 0 0; at_ 0.01 0; at_ 0.02 0].

Definition overlongLeg : PassengerInfo :=
  {| pi_requestId := "A"; pi_userId := "user-123";
     pi_pickup := at_ 0.01 0; pi_dropoff := at_ 0.05 0;
     pi_passengers := 1; pi_luggage := [];
     pi_pickupOrder := 1; pi_dropoffOrder := 7;
     pi_fare := 0; pi_detourMinutes := 0 |}.

(** The booking of the pooled ride of A and B. *)
Definition bookPooledRide : CoordinatorOp :=
  ConfirmBooking "ride-1" "A" (rideDataOfRide pooledRide).

(** * Properties *)

(** ** Pricing *)

Section PricingFacts.

Local Open Scope Q_scope.


Lemma timeMultiplier_pos hour : 0 < PricingEngine.getTimeMultiplier hour.
Proof.
  unfold PricingEngine.getTimeMultiplier.
  repeat match goal with |- context [if ?b then _ else _] => destruct b end; reflexivity.
Qed.

Lemma poolingDiscount_lt_1 n : 0 < 1 - PricingEngine.getPoolingDiscount n.
Proof.
  unfold PricingEngine.getPoolingDiscount.
  destruct n as [|p|p]; try reflexivity.
  repeat (destruct p as [p|p|]; try reflexivity).
Qed.

Lemma round2_mono x y : x <= y ->
  inject_Z (JS.Math_round (x * 100)) / 100 <= inject_Z (JS.Math_round (y * 100)) / 100.
Proof.
  intros H. unfold JS.Math_round.
  apply Qmult_le_compat_r; [|discriminate].
  rewrite <- Zle_Qle. apply Qfloor_resp_le. lra.
Qed.

Lemma fare_total_mono a b k1 k2 p :
  0 <= k1 -> 0 <= k2 -> 0 <= p -> a <= b ->
  a * k1 * k2 * p <= b * k1 * k2 * p.
Proof.
  intros. repeat apply Qmult_le_compat_r; auto.
Qed.

(** Claim C7.  Holding every other input fixed, [calculateFare] is
    monotonically non-decreasing in [actualDistance] and in [surgeFactor]
    for non-negative inputs, and its result is never below the minimum
    fare of 8.0. *)
Theorem calculateFare_monotone_with_floor (params : PricingParams) (d' s' : Q) :
  0 <= actualDistance params ->
  0 <= surgeFactor params ->
  (0 <= passengers params)%Z ->
  (actualDistance params <= d' ->
     PricingEngine.calculateFare params
     <= PricingEngine.calculateFare (withActualDistance params d'))
  /\ (surgeFactor params <= s' ->
        PricingEngine.calculateFare params
        <= PricingEngine.calculateFare (withSurgeFactor params s'))
  /\ 8 <= PricingEngine.calculateFare params.
Proof.
  intros Hd Hs Hp.
  assert (Hp' : 0 <= inject_Z (passengers params))
    by (change 0 with (inject_Z 0); rewrite <- Zle_Qle; exact Hp).
  pose proof (timeMultiplier_pos (timeOfDay params)) as Ht.
  pose proof (poolingDiscount_lt_1
                (PricingEngine.orPassengers (totalPassengersInRide params)
                   (passengers params))) as Hdisc.
  unfold PricingEngine.calculateFare, JS.Math_max; cbn [actualDistance surgeFactor
    passengers timeOfDay totalPassengersInRide withActualDistance withSurgeFactor].
  repeat split.
  - intros Hle. apply Q.max_le_compat_l, round2_mono.
    apply fare_total_mono; try lra.
    apply Qmult_le_compat_r; [|exact Hs].
    unfold PricingEngine.BASE_FARE, PricingEngine.RATE_PER_KM. lra.
  - intros Hle. apply Q.max_le_compat_l, round2_mono.
    apply fare_total_mono; try lra.
    rewrite !(Qmult_comm (PricingEngine.BASE_FARE + _)).
    apply Qmult_le_compat_r; [exact Hle|].
    unfold PricingEngine.BASE_FARE, PricingEngine.RATE_PER_KM. lra.
  - eapply Qle_trans; [|apply Q.le_max_l]. discriminate.
Qed.

Lemma calculateFare_monotone_witness :
  PricingEngine.calculateFare noonRide
    <= PricingEngine.calculateFare (withActualDistance noonRide 12)
  /\ PricingEngine.calculateFare noonRide
    <= PricingEngine.calculateFare (withSurgeFactor noonRide 2)
  /\ 8 <= PricingEngine.calculateFare noonRide.
Proof.
  assert (H0 : 0 <= actualDistance noonRide) by (unfold Qle; simpl; lia).
  assert (H1 : 0 <= surgeFactor noonRide) by (unfold Qle; simpl; lia).
  assert (H2 : (0 <= passengers noonRide)%Z) by (simpl; lia).
  destruct (calculateFare_monotone_with_floor noonRide 12 2 H0 H1 H2) as [Hd [Hs Hm]].
  split; [apply Hd; unfold Qle; simpl; lia|].
  split; [apply Hs; unfold Qle; simpl; lia|exact Hm].
Defined.

Lemma clamp_min_max x : clamp 1 3 x == Qmin 3 (Qmax 1 x).
Proof.
  unfold clamp.
  destruct (Qlt_le_dec x 1) as [H|H].
  - rewrite (Q.max_l 1 x) by lra. rewrite Q.min_r by lra. reflexivity.
  - rewrite (Q.max_r 1 x) by lra.
    destruct (Qlt_le_dec 3 x) as [H'|H'].
    + rewrite Q.min_l by lra. reflexivity.
    + rewrite Q.min_r by lra. reflexivity.
Qed.

(** Claim C8.  [calculateSurgeFactor] returns 3.0 whenever there is no
    available cab; otherwise it returns [1 + min(demandRatio, 2)^2] clamped
    to [1.0, 3.0], so it always lies in that interval; for 200 active
    requests and 100 available cabs it returns 3.0. *)
Theorem calculateSurgeFactor_spec (activeRequests availableCabs : Q) :
  (availableCabs == 0 ->
     PricingEngine.calculateSurgeFactor activeRequests availableCabs == 3)
  /\ (~ availableCabs == 0 ->
        PricingEngine.calculateSurgeFactor activeRequests availableCabs
        == surgeSpec activeRequests availableCabs)
  /\ 1 <= PricingEngine.calculateSurgeFactor activeRequests availableCabs <= 3
  /\ PricingEngine.calculateSurgeFactor 200 100 == 3.
Proof.
  unfold PricingEngine.calculateSurgeFactor, JS.Math_min, JS.Math_max, surgeSpec.
  repeat split.
  - intros H. apply Qeq_bool_iff in H. rewrite H. reflexivity.
  - intros H. destruct (Qeq_bool availableCabs 0) eqn:E.
    + apply Qeq_bool_iff in E. contradiction.
    + rewrite clamp_min_max. simpl Qpower.
      assert (E3 : 3.0 == 3) by reflexivity.
      assert (E1 : 1.0 == 1) by reflexivity.
      rewrite E3, E1. reflexivity.
  - destruct (Qeq_bool availableCabs 0); [discriminate|].
    apply Q.min_glb; [discriminate|].
    eapply Qle_trans; [|apply Q.le_max_l]. discriminate.
  - destruct (Qeq_bool availableCabs 0); [discriminate|].
    eapply Qle_trans; [apply Q.le_min_l|]. discriminate.
Qed.

Lemma calculateSurgeFactor_witness :
  PricingEngine.calculateSurgeFactor 100 0 == 3
  /\ PricingEngine.calculateSurgeFactor 150 100 == surgeSpec 150 100.
Proof.
  split.
  - destruct (calculateSurgeFactor_spec 100 0) as [H _]. apply H. reflexivity.
  - destruct (calculateSurgeFactor_spec 150 100) as [_ [H _]]. apply H.
    unfold Qeq. simpl. lia.
Defined.

End PricingFacts.

(** ** Matching *)


(** *** Sums written as [reduce] *)

Lemma reduce_sum {A} (f : A -> Z) (xs : list A) (start : Z) :
  fold_left (fun sum x => (sum + f x)%Z) xs start
  = (start + fold_right (fun x acc => (f x + acc)%Z) 0%Z xs)%Z.
Proof.
  revert start. induction xs as [|x xs IH]; intros start; simpl.
  - lia.
  - rewrite IH. lia.
Qed.

Lemma sumPassengers_total group :
  RideMatchingEngine.sumPassengers group = totalPassengers group.
Proof. unfold RideMatchingEngine.sumPassengers. now rewrite reduce_sum. Qed.

Lemma sumLuggage_total group :
  RideMatchingEngine.sumLuggage group = totalLuggageUnits group.
Proof.
  unfold RideMatchingEngine.sumLuggage, totalLuggageUnits.
  rewrite (reduce_sum
             (fun r => fold_left (fun lsum l => (lsum + luggageUnits l)%Z) (rq_luggage r) 0%Z)).
  simpl. induction group as [|r group IH]; simpl; [reflexivity|].
  rewrite IH. unfold luggageUnitsOf. now rewrite reduce_sum.
Qed.

Lemma ridePassengerCount_total legs :
  RideService.ridePassengerCount legs = tripPassengers legs.
Proof. unfold RideService.ridePassengerCount. now rewrite reduce_sum. Qed.

(** The constraint check against the sums of the group. *)
Lemma checkConstraints_capacity (group : list RideRequest) :
  RideMatchingEngine.checkConstraints defaultConfig group = true ->
  (totalPassengers group <= 4)%Z /\ (totalLuggageUnits group <= 6)%Z.
Proof.
  unfold RideMatchingEngine.checkConstraints. cbn [MAX_PASSENGERS MAX_LUGGAGE defaultConfig].
  rewrite sumPassengers_total, sumLuggage_total.
  intros H. apply andb_prop in H. destruct H as [Hp Hl].
  split; now apply Z.leb_le.
Qed.

(** Claim C6.  Under the default capacity configuration, every group that
    the constraint check of the matching engine admits has at most 4
    passengers in total and at most 6 luggage units in total. *)
Theorem constraint_check_within_capacity (group : list RideRequest) :
  RideMatchingEngine.checkConstraints defaultConfig group = true ->
  (totalPassengers group <= 4)%Z /\ (totalLuggageUnits group <= 6)%Z.
Proof. exact (checkConstraints_capacity group). Qed.

Lemma tryGroup_pushed dist cfg request group m :
  RideMatchingEngine.tryGroup dist cfg request group = Some (Some m) ->
  RideMatchingEngine.checkConstraints cfg (group ++ [request]) = true
  /\ exists route,
       optimizeRoute dist (group ++ [request]) = Some route
       /\ mr_ride m = RideMatchingEngine.createRide (group ++ [request]) route.
Proof.
  unfold RideMatchingEngine.tryGroup.
  destruct (RideMatchingEngine.canAddToGroup cfg request group); simpl; [|discriminate].
  destruct (RideMatchingEngine.checkConstraints cfg (group ++ [request])); simpl;
    [|discriminate].
  destruct (optimizeRoute dist (group ++ [request])) as [route|]; [|discriminate].
  destruct (RideMatchingEngine.calculateDetours dist (group ++ [request]) route)
    as [detours|]; [|discriminate].
  destruct (RideMatchingEngine.validateDetours dist cfg (group ++ [request]) detours);
    simpl; [|discriminate].
  intros H. injection H as <-. split; [reflexivity|].
  exists route. split; reflexivity.
Qed.

(** *** Where the legs of a match come from *)

Section Provenance.

Variable dist : Location -> Location -> Q.
Variable cfg : MatchingConfig.

Lemma createRequestGroups_members requests group r :
  In group (RideMatchingEngine.createRequestGroups cfg requests) ->
  In r group -> In r requests.
Proof.
  unfold RideMatchingEngine.createRequestGroups. intros Hg Hr.
  repeat (apply in_app_or in Hg; destruct Hg as [Hg|Hg]).
  - apply in_map_iff in Hg. destruct Hg as [req [<- Hreq]].
    destruct Hr as [<-|[]]. exact Hreq.
  - apply in_flat_map in Hg. destruct Hg as [i [_ Hg]].
    apply in_flat_map in Hg. destruct Hg as [j [_ Hg]].
    destruct (nth_error requests i) as [ri|] eqn:Ei; [|destruct Hg].
    destruct (nth_error requests j) as [rj|] eqn:Ej; [|destruct Hg].
    destruct (RideMatchingEngine.checkConstraints cfg [ri; rj]); [|destruct Hg].
    destruct Hg as [<-|[]].
    destruct Hr as [<-|[<-|[]]]; eauto using nth_error_In.
  - apply in_flat_map in Hg. destruct Hg as [i [_ Hg]].
    apply in_flat_map in Hg. destruct Hg as [j [_ Hg]].
    apply in_flat_map in Hg. destruct Hg as [k [_ Hg]].
    destruct (nth_error requests i) as [ri|] eqn:Ei; [|destruct Hg].
    destruct (nth_error requests j) as [rj|] eqn:Ej; [|destruct Hg].
    destruct (nth_error requests k) as [rk|] eqn:Ek; [|destruct Hg].
    destruct (RideMatchingEngine.checkConstraints cfg [ri; rj; rk]); [|destruct Hg].
    destruct Hg as [<-|[]].
    destruct Hr as [<-|[<-|[<-|[]]]]; eauto using nth_error_In.
Qed.

Lemma matchGroups_origin request groups acc matches m :
  RideMatchingEngine.matchGroups dist cfg request groups acc = Some matches ->
  In m matches ->
  In m acc
  \/ exists group, In group groups
                   /\ RideMatchingEngine.tryGroup dist cfg request group = Some (Some m).
Proof.
  revert acc. induction groups as [|group groups IH]; intros acc; simpl.
  - intros H. injection H as <-. auto.
  - destruct (RideMatchingEngine.tryGroup dist cfg request group) as [[pushed|]|] eqn:E;
      [| |discriminate]; intros H Hin; destruct (IH _ H Hin) as [Hacc|[g [Hg Hm]]].
    + apply in_app_or in Hacc. destruct Hacc as [Hacc|[<-|[]]]; eauto.
    + eauto.
    + auto.
    + eauto.
Qed.

Lemma insertByScore_In m x sorted :
  In m (RideMatchingEngine.insertByScore x sorted) <-> m = x \/ In m sorted.
Proof.
  induction sorted as [|y sorted IH]; simpl.
  - intuition.
  - destruct (JS.ltb (mr_score x) (mr_score y)); simpl; [rewrite IH|]; intuition.
Qed.

Lemma sortByScore_In m matches :
  In m (RideMatchingEngine.sortByScore matches) <-> In m matches.
Proof.
  induction matches as [|x matches IH]; simpl; [reflexivity|].
  rewrite insertByScore_In, IH. intuition.
Qed.

Lemma slice0_In {A} n (arr : list A) x : In x (JS.slice0 n arr) -> In x arr.
Proof.
  unfold JS.slice0. revert arr. induction n as [|n IH]; intros [|y arr]; simpl; try tauto.
  intros [->|H]; auto.
Qed.

(** Every match is the solo ride of the target or the ride of a combined
    group drawn from the active requests. *)
Lemma findMatches_origin request activeRequests matches m :
  RideMatchingEngine.findMatches dist cfg request activeRequests = Some matches ->
  In m matches ->
  exists group route,
    mr_ride m = RideMatchingEngine.createRide group route
    /\ forall r, In r group -> In r (request :: activeRequests).
Proof.
  unfold RideMatchingEngine.findMatches.
  destruct (optimizeRoute dist [request]) as [soloRoute|]; [|discriminate].
  destruct (RideMatchingEngine.matchGroups dist cfg request _ _) as [all|] eqn:E;
    [|discriminate].
  intros H Hin.
  assert (Hs : matches = JS.slice0 5 (RideMatchingEngine.sortByScore all)) by congruence.
  rewrite Hs in Hin. clear H Hs.
  apply slice0_In in Hin. apply (proj1 (sortByScore_In _ _)) in Hin.
  destruct (matchGroups_origin _ _ _ _ _ E Hin) as [[<-|[]]|[group [Hg Hm]]].
  - exists [request], soloRoute. split; [reflexivity|].
    intros r [<-|[]]. now left.
  - apply tryGroup_pushed in Hm. destruct Hm as [_ [route [_ Hride]]].
    exists (group ++ [request]), route. split; [exact Hride|].
    intros r Hr. apply in_app_or in Hr. destruct Hr as [Hr|[<-|[]]]; [right|now left].
    pose proof (createRequestGroups_members _ _ _ Hg Hr) as Hnear.
    unfold RideMatchingEngine.filterNearbyRequests in Hnear.
    now apply filter_In in Hnear.
Qed.

End Provenance.

(** *** Fares *)

Section Fares.

Variable hopKm : Location -> Location -> Q.

Lemma priceLegs_spec surge hour route total legs priced :
  RideService.priceLegs hopKm surge hour route total legs = Some priced ->
  map pi_passengers priced = map pi_passengers legs
  /\ forall leg', In leg' priced ->
       exists leg, In leg legs
                   /\ RideService.priceLeg hopKm surge hour route total leg = Some leg'.
Proof.
  revert priced. induction legs as [|leg legs IH]; intros priced; simpl.
  - intros H. injection H as <-. split; [reflexivity|intros ? []].
  - destruct (RideService.priceLeg hopKm surge hour route total leg) as [p|] eqn:E;
      [|discriminate].
    destruct (RideService.priceLegs hopKm surge hour route total legs) as [ps|];
      [|discriminate].
    intros H. injection H as <-. destruct (IH _ eq_refl) as [Hmap Hin]. split.
    + simpl. f_equal; [|exact Hmap].
      unfold RideService.priceLeg in E.
      destruct (RideService.calculatePassengerDistance hopKm leg route); [|discriminate].
      now injection E as <-.
    + intros leg' [<-|H]; [eauto|].
      destruct (Hin _ H) as [l [Hl Hp]]. eauto.
Qed.

Lemma priceMatches_origin surge hour matches priced m' :
  RideService.priceMatches hopKm surge hour matches = Some priced ->
  In m' priced ->
  exists m, In m matches /\ RideService.priceMatch hopKm surge hour m = Some m'.
Proof.
  revert priced. induction matches as [|m matches IH]; intros priced; simpl.
  - intros H. injection H as <-. intros [].
  - destruct (RideService.priceMatch hopKm surge hour m) as [p|] eqn:E; [|discriminate].
    destruct (RideService.priceMatches hopKm surge hour matches) as [ps|]; [|discriminate].
    intros H. injection H as <-. intros [<-|Hin]; [eauto|].
    destruct (IH _ eq_refl Hin) as [m0 [H0 H1]]. eauto.
Qed.

Lemma tripPassengers_map legs legs' :
  map pi_passengers legs = map pi_passengers legs' ->
  tripPassengers legs = tripPassengers legs'.
Proof.
  revert legs'. induction legs as [|l legs IH]; intros [|l' legs']; simpl;
    try discriminate; [reflexivity|].
  intros H. injection H as H1 H2. rewrite H1. f_equal. now apply IH.
Qed.

Lemma tripPassengers_nonneg legs :
  (forall leg, In leg legs -> (0 <= pi_passengers leg)%Z) ->
  (0 <= tripPassengers legs)%Z
  /\ (tripPassengers legs = 0%Z -> forall leg, In leg legs -> pi_passengers leg = 0%Z).
Proof.
  induction legs as [|l legs IH]; simpl; intros H.
  - split; [lia|intros _ ? []].
  - destruct IH as [IH0 IH1]; [auto|]. pose proof (H l (or_introl eq_refl)).
    split; [lia|]. intros Hsum leg [<-|Hin]; [lia|]. apply IH1; [lia|exact Hin].
Qed.

Lemma orPassengers_total legs leg :
  (forall l, In l legs -> (0 <= pi_passengers l)%Z) ->
  In leg legs ->
  PricingEngine.orPassengers (Some (tripPassengers legs)) (pi_passengers leg)
  = tripPassengers legs.
Proof.
  intros Hnn Hin. destruct (tripPassengers_nonneg legs Hnn) as [_ Hz].
  unfold PricingEngine.orPassengers.
  destruct (tripPassengers legs) eqn:E; try reflexivity.
  apply Hz; auto.
Qed.

End Fares.

(** Claim C5.  For every passenger leg of every match that [findMatches]
    returns, the fare is the fare formula taken with the pooling-discount
    tier of the trip's total passenger count, summed over all legs of the
    shared trip, and scaled by the passenger count of that leg's own
    booking only. *)
Theorem leg_fare_tier_from_trip_total
  (hopKm dist : Location -> Location -> Q) (cfg : MatchingConfig)
  (surge : Q) (hour : Z) (request : RideRequest) (activeRequests : list RideRequest)
  (matches : list MatchResult) (m : MatchResult) (leg : PassengerInfo) :
  (forall r, In r (request :: activeRequests) -> (0 <= rq_passengers r)%Z) ->
  RideService.findMatches hopKm dist cfg surge hour request activeRequests = Some matches ->
  In m matches ->
  In leg (rd_passengers (mr_ride m)) ->
  exists legKm,
    RideService.calculatePassengerDistance hopKm leg (rd_route (mr_ride m)) = Some legKm
    /\ pi_fare leg
       = fareSpec legKm surge hour
           (tripPassengers (rd_passengers (mr_ride m))) (pi_passengers leg).
Proof.
  intros Hnn Hfind Hm Hleg. unfold RideService.findMatches in Hfind.
  destruct (RideMatchingEngine.findMatches dist cfg request activeRequests)
    as [raw|] eqn:Eraw; [|discriminate].
  destruct (priceMatches_origin hopKm surge hour raw matches m Hfind Hm) as [m0 [Hm0 Hprice]].
  unfold RideService.priceMatch in Hprice.
  destruct (RideService.priceLegs hopKm surge hour (rd_route (mr_ride m0))
              (RideService.ridePassengerCount (rd_passengers (mr_ride m0)))
              (rd_passengers (mr_ride m0))) as [legs|] eqn:Elegs; [|discriminate].
  injection Hprice as <-. cbn [mr_ride rd_passengers rd_route] in *.
  destruct (priceLegs_spec hopKm _ _ _ _ _ _ Elegs) as [Hmap Horigin].
  destruct (Horigin _ Hleg) as [leg0 [Hleg0 Hpriced]].
  destruct (findMatches_origin dist cfg request activeRequests raw m0 Eraw Hm0) as [group [route [Hride Hgroup]]].
  assert (Hlegs0 : forall l, In l (rd_passengers (mr_ride m0)) -> (0 <= pi_passengers l)%Z).
  { rewrite Hride. cbn [RideMatchingEngine.createRide rd_passengers].
    intros l Hl. apply in_map_iff in Hl. destruct Hl as [r [<- Hr]].
    cbn [pi_passengers]. auto. }
  unfold RideService.priceLeg in Hpriced.
  destruct (RideService.calculatePassengerDistance hopKm leg0 (rd_route (mr_ride m0)))
    as [legKm|] eqn:Ekm; [|discriminate].
  injection Hpriced as <-. exists legKm. split; [exact Ekm|].
  cbn [RideService.setFare pi_fare pi_passengers].
  rewrite (tripPassengers_map _ _ Hmap).
  unfold PricingEngine.calculateFare, fareSpec, JS.Math_max.
  cbn [actualDistance surgeFactor passengers timeOfDay totalPassengersInRide].
  rewrite ridePassengerCount_total, (orPassengers_total _ _ Hlegs0 Hleg0).
  reflexivity.
Qed.

(** ** Routing *)


(** *** Swapping two cells *)

Section Swap.

Context {A : Type}.

Lemma assign_length i (v : A) arr : length (JS.assign i v arr) = length arr.
Proof.
  revert i. induction arr as [|x arr IH]; intros [|i]; simpl; auto.
Qed.

Lemma assign_at (s1 : list A) v y s2 :
  JS.assign (length s1) v (s1 ++ y :: s2) = s1 ++ v :: s2.
Proof. induction s1 as [|x s1 IH]; simpl; [reflexivity|now rewrite IH]. Qed.

Lemma swap_cons i j (a : A) arr :
  JS.swap (S i) (S j) (a :: arr) = a :: JS.swap i j arr.
Proof.
  unfold JS.swap. simpl.
  destruct (nth_error arr i), (nth_error arr j); reflexivity.
Qed.

Lemma swap_length i j (arr : list A) : length (JS.swap i j arr) = length arr.
Proof.
  unfold JS.swap. destruct (nth_error arr i), (nth_error arr j); auto.
  now rewrite !assign_length.
Qed.

Lemma swap_same_at (pre : list A) x suf :
  JS.swap (length pre) (length pre) (pre ++ x :: suf) = pre ++ x :: suf.
Proof.
  induction pre as [|a pre IH]; simpl.
  - reflexivity.
  - now rewrite swap_cons, IH.
Qed.

Lemma swap_apart (pre : list A) x s1 y s2 :
  JS.swap (length pre) (length pre + S (length s1)) (pre ++ x :: s1 ++ y :: s2)
  = pre ++ y :: s1 ++ x :: s2.
Proof.
  induction pre as [|a pre IH]; simpl.
  - unfold JS.swap. simpl.
    replace (nth_error (s1 ++ y :: s2) (length s1)) with (Some y)
      by (symmetry; rewrite nth_error_app2, Nat.sub_diag; auto).
    simpl. now rewrite assign_at.
  - now rewrite swap_cons, IH.
Qed.

(** An index at or after [start] names the cell at [start] itself or one
    further right. *)
Lemma cell_from start i (arr : list A) :
  (start <= i < length arr)%nat ->
  exists pre x suf,
    arr = pre ++ x :: suf /\ length pre = start
    /\ (i = start
        \/ exists s1 y s2, suf = s1 ++ y :: s2 /\ i = (start + S (length s1))%nat).
Proof.
  intros [Hle Hlt].
  assert (Hs : (start < length arr)%nat) by lia.
  destruct (nth_error arr start) as [x|] eqn:Ex;
    [|apply nth_error_None in Ex; lia].
  apply nth_error_split in Ex. destruct Ex as [pre [suf [-> Hpre]]].
  exists pre, x, suf. repeat split; auto.
  destruct (Nat.eq_dec i start) as [->|Hne]; [now left|right].
  rewrite length_app in Hlt. simpl in Hlt.
  destruct (nth_error suf (i - start - 1)) as [y|] eqn:Ey;
    [|apply nth_error_None in Ey; lia].
  apply nth_error_split in Ey. destruct Ey as [s1 [s2 [-> Hs1]]].
  exists s1, y, s2. split; [reflexivity|lia].
Qed.

Lemma swap_involutive start i (arr : list A) :
  (start <= i < length arr)%nat ->
  JS.swap start i (JS.swap start i arr) = arr.
Proof.
  intros H. destruct (cell_from start i arr H) as [pre [x [suf [-> [<- Hi]]]]].
  destruct Hi as [->|[s1 [y [s2 [-> ->]]]]].
  - now rewrite !swap_same_at.
  - now rewrite swap_apart, swap_apart.
Qed.

Lemma swap_Permutation start i (arr : list A) :
  (start <= i < length arr)%nat ->
  Permutation (JS.swap start i arr) arr.
Proof.
  intros H. destruct (cell_from start i arr H) as [pre [x [suf [-> [<- Hi]]]]].
  destruct Hi as [->|[s1 [y [s2 [-> ->]]]]].
  - now rewrite swap_same_at.
  - rewrite swap_apart. apply Permutation_app_head.
    transitivity (y :: x :: s1 ++ s2).
    + apply perm_skip. symmetry. apply Permutation_middle.
    + transitivity (x :: y :: s1 ++ s2); [apply perm_swap|].
      apply perm_skip. apply Permutation_middle.
Qed.

End Swap.

(** *** [permute] and the arrays it reaches *)

Lemma filter_flat_map {A B} (p : B -> bool) (f : A -> list B) (xs : list A) :
  filter p (flat_map f xs) = flat_map (fun x => filter p (f x)) xs.
Proof.
  induction xs as [|x xs IH]; simpl; [reflexivity|].
  now rewrite filter_app, IH.
Qed.

(** [permute] hands the array back as it found it and appends the valid
    arrangements, in the order they are reached. *)
Lemma permute_arrangements fuel : forall start arr routes,
  permute fuel start (arr, routes)
  = (arr, routes ++ filter isValidRoute (arrangements fuel start arr)).
Proof.
  induction fuel as [|fuel IH]; intros start arr routes.
  - simpl. now rewrite app_nil_r.
  - cbn [permute arrangements].
    destruct (Z.of_nat start =? Z.of_nat (length arr) - 1)%Z.
    + simpl. destruct (isValidRoute arr); [reflexivity|now rewrite app_nil_r].
    + rewrite filter_flat_map.
      assert (Hin : forall i, In i (seq start (length arr - start)) ->
                              (start <= i < length arr)%nat)
        by (intros i Hi; apply in_seq in Hi; lia).
      revert routes Hin. generalize (seq start (length arr - start)) as js.
      induction js as [|j js IHjs]; intros routes Hin.
      * simpl. now rewrite app_nil_r.
      * cbn [fold_left flat_map]. rewrite IH.
        rewrite swap_involutive by (apply Hin; now left).
        rewrite IHjs by (intros i Hi; apply Hin; now right).
        now rewrite app_assoc.
Qed.

Lemma generateValidRoutes_arrangements wps :
  generateValidRoutes wps
  = filter isValidRoute (arrangements (S (length wps)) 0 wps).
Proof. unfold generateValidRoutes. now rewrite permute_arrangements. Qed.

Lemma arrangements_step fuel start arr :
  arrangements (S fuel) start arr
  = if (Z.of_nat start =? Z.of_nat (length arr) - 1)%Z then [arr]
    else flat_map (fun i => arrangements fuel (S start) (JS.swap start i arr))
                  (seq start (length arr - start)).
Proof. reflexivity. Qed.

(** The fuel of [permute] is enough: one more unit changes nothing. *)
Lemma arrangements_fuel_enough fuel : forall start arr,
  (length arr - start <= fuel)%nat -> (start < length arr)%nat ->
  arrangements (S fuel) start arr = arrangements fuel start arr.
Proof.
  induction fuel as [|fuel IH]; intros start arr Hfuel Hstart; [lia|].
  rewrite (arrangements_step (S fuel)), (arrangements_step fuel).
  destruct (Z.eqb_spec (Z.of_nat start) (Z.of_nat (length arr) - 1)) as [_|Hne];
    [reflexivity|].
  apply flat_map_ext. intros i. apply IH; rewrite swap_length; lia.
Qed.

(** Every arrangement is a rearrangement of the array. *)
Lemma arrangements_Permutation fuel : forall start arr q,
  In q (arrangements fuel start arr) -> Permutation q arr.
Proof.
  induction fuel as [|fuel IH]; intros start arr q; [intros []|].
  cbn [arrangements].
  destruct (Z.of_nat start =? Z.of_nat (length arr) - 1)%Z.
  - intros [<-|[]]. reflexivity.
  - intros H. apply in_flat_map in H. destruct H as [i [Hi Hq]].
    apply in_seq in Hi. apply IH in Hq. rewrite Hq.
    apply swap_Permutation. lia.
Qed.

(** Every rearrangement of the cells from [start] on is reached. *)
Lemma arrangements_complete fuel : forall pre suf q,
  suf <> [] -> (length suf <= fuel)%nat -> Permutation q suf ->
  In (pre ++ q) (arrangements fuel (length pre) (pre ++ suf)).
Proof.
  induction fuel as [|fuel IH]; intros pre suf q Hne Hlen Hperm.
  - destruct suf; [congruence|simpl in Hlen; lia].
  - cbn [arrangements]. rewrite length_app.
    destruct q as [|y q'].
    { apply Permutation_nil in Hperm. congruence. }
    destruct (Z.of_nat (length pre) =? Z.of_nat (length pre + length suf) - 1)%Z eqn:E.
    + apply Z.eqb_eq in E.
      destruct suf as [|x [|x' suf]]; [congruence| |simpl in E; lia].
      apply Permutation_sym, Permutation_length_1_inv in Hperm. rewrite Hperm. now left.
    + apply Z.eqb_neq in E.
      assert (Hy : In y suf) by (apply Permutation_in with (y :: q'); [exact Hperm|now left]).
      apply in_split in Hy. destruct Hy as [s1 [s2 ->]].
      apply in_flat_map. exists (length pre + length s1)%nat. split.
      { apply in_seq. rewrite length_app. simpl. lia. }
      assert (Hq' : Permutation q' (s1 ++ s2))
        by (apply Permutation_cons_app_inv with y; exact Hperm).
      assert (Hrest : s1 ++ s2 <> []).
      { intros Hnil. apply app_eq_nil in Hnil. destruct Hnil as [-> ->].
        simpl in E. lia. }
      assert (Hfuel : (length (s1 ++ s2) <= fuel)%nat).
      { rewrite length_app in *. simpl in Hlen. lia. }
      destruct s1 as [|x s1].
      * rewrite Nat.add_0_r. simpl app. rewrite swap_same_at.
        replace (S (length pre)) with (length (pre ++ [y]))
          by (rewrite length_app; simpl; lia).
        replace (pre ++ y :: s2) with ((pre ++ [y]) ++ s2)
          by (now rewrite <- app_assoc).
        replace (pre ++ y :: q') with ((pre ++ [y]) ++ q')
          by (now rewrite <- app_assoc).
        apply IH; auto.
      * simpl length. simpl app. rewrite swap_apart.
        replace (S (length pre)) with (length (pre ++ [y]))
          by (rewrite length_app; simpl; lia).
        replace (pre ++ y :: s1 ++ x :: s2) with ((pre ++ [y]) ++ s1 ++ x :: s2)
          by (now rewrite <- app_assoc).
        replace (pre ++ y :: q') with ((pre ++ [y]) ++ q')
          by (now rewrite <- app_assoc).
        apply IH.
        -- destruct s1; discriminate.
        -- rewrite length_app in *. simpl in *. lia.
        -- rewrite Hq'. simpl. apply Permutation_middle.
Qed.

Lemma generateValidRoutes_In wps q :
  In q (generateValidRoutes wps)
  <-> Permutation q wps /\ isValidRoute q = true /\ wps <> [].
Proof.
  rewrite generateValidRoutes_arrangements, filter_In. split.
  - intros [Hin Hv]. repeat split; auto.
    + now apply arrangements_Permutation in Hin.
    + intros ->. simpl in Hin. destruct Hin.
  - intros [Hp [Hv Hne]]. split; [|exact Hv].
    apply (arrangements_complete (S (length wps)) [] wps q); auto.
Qed.

(** *** Positions on a route *)

Lemma findIndexFrom_range {A} (p : A -> bool) (arr : list A) : forall k,
  JS.findIndexFrom p k arr = (-1)%Z
  \/ (k <= JS.findIndexFrom p k arr < k + Z.of_nat (length arr))%Z.
Proof.
  induction arr as [|x arr IH]; intros k; simpl; [now left|].
  destruct (p x); [right; lia|].
  destruct (IH (k + 1)%Z) as [->|H]; [now left|right; lia].
Qed.

Lemma findIndexFrom_found {A} (p : A -> bool) (arr : list A) x : forall k,
  In x arr -> p x = true ->
  (k <= JS.findIndexFrom p k arr < k + Z.of_nat (length arr))%Z.
Proof.
  induction arr as [|y arr IH]; intros k; simpl; [intros []|].
  intros Hin Hp. destruct (p y) eqn:Ey; [lia|].
  destruct Hin as [->|Hin]; [congruence|].
  specialize (IH (k + 1)%Z Hin Hp). lia.
Qed.

Lemma has_add s x y : JS.has (JS.add s x) y = JS.has s y || String.eqb y x.
Proof.
  unfold JS.add. destruct (JS.has s x) eqn:E.
  - destruct (String.eqb_spec y x) as [->|]; [now rewrite E|now rewrite orb_false_r].
  - unfold JS.has. rewrite existsb_app. simpl. now rewrite orb_false_r.
Qed.

Section Routes.

Variable dist : Location -> Location -> Q.

(** On a valid route the first dropoff of a request not yet picked up comes
    after its first pickup. *)
Lemma valid_pickup_first rid : forall route picked k,
  isValidRouteFrom picked route = true ->
  JS.has picked rid = false ->
  JS.findIndexFrom (isDropoffOf rid) k route <> (-1)%Z ->
  (k <= JS.findIndexFrom (isPickupOf rid) k route
     < JS.findIndexFrom (isDropoffOf rid) k route)%Z.
Proof.
  induction route as [|w route IH]; intros picked k; simpl; [congruence|].
  unfold isPickupOf, isDropoffOf. destruct (wp_type w).
  - (* a pickup *)
    intros Hv Hnot Hfound.
    destruct (String.eqb_spec (wp_requestId w) rid) as [Heq|Hne].
    + destruct (findIndexFrom_range (isDropoffOf rid) route (k + 1)) as [H|H];
        fold (isDropoffOf rid) in *; [congruence|].
      lia.
    + fold (isPickupOf rid) (isDropoffOf rid) in *.
      assert (Hnot' : JS.has (JS.add picked (wp_requestId w)) rid = false).
      { rewrite has_add, Hnot. simpl. apply String.eqb_neq. congruence. }
      specialize (IH _ (k + 1)%Z Hv Hnot' Hfound). lia.
  - (* a dropoff *)
    intros Hv Hnot Hfound.
    destruct (JS.has picked (wp_requestId w)) eqn:Ehas; [|discriminate].
    destruct (String.eqb_spec (wp_requestId w) rid) as [Heq|Hne]; [congruence|].
    fold (isPickupOf rid) (isDropoffOf rid) in *.
    specialize (IH _ (k + 1)%Z Hv Hnot Hfound). lia.
Qed.

Lemma valid_route_order route requests request :
  isValidRoute route = true ->
  Permutation route (allWaypoints requests) ->
  In request requests ->
  pickupBeforeDropoff route request.
Proof.
  intros Hv Hperm Hin. unfold pickupBeforeDropoff, ordered, JS.findIndex.
  apply valid_pickup_first with (picked := []); auto.
  assert (Hd : In (dropoffWaypoint request) route).
  { apply Permutation_in with (allWaypoints requests); [now symmetry|].
    unfold allWaypoints. apply in_flat_map. exists request. simpl. auto. }
  pose proof (findIndexFrom_found (isDropoffOf (rq_id request)) route
                (dropoffWaypoint request) 0 Hd) as H.
  unfold isDropoffOf at 1 in H. simpl in H. rewrite String.eqb_refl in H.
  specialize (H eq_refl). lia.
Qed.

(** *** The naive route is one of the valid routes *)

Lemma naiveRoute_Permutation requests :
  Permutation (naiveRoute requests) (allWaypoints requests).
Proof.
  unfold naiveRoute, allWaypoints.
  induction requests as [|r requests IH]; simpl; [constructor|].
  apply perm_skip. rewrite <- Permutation_middle. now apply perm_skip.
Qed.

Lemma valid_after_pickups : forall requests picked rest,
  isValidRouteFrom picked (map pickupWaypoint requests ++ rest)
  = isValidRouteFrom (fold_left (fun s r => JS.add s (rq_id r)) requests picked) rest.
Proof.
  induction requests as [|r requests IH]; intros picked rest; simpl; auto.
Qed.

Lemma has_after_pickups : forall requests picked rid,
  JS.has picked rid = true \/ In rid (map rq_id requests) ->
  JS.has (fold_left (fun s r => JS.add s (rq_id r)) requests picked) rid = true.
Proof.
  induction requests as [|r requests IH]; intros picked rid; simpl.
  - intros [H|[]]. exact H.
  - intros H. apply IH. rewrite has_add.
    destruct H as [H|[H|H]]; auto.
    + rewrite H. auto.
    + subst. rewrite String.eqb_refl, orb_true_r. auto.
Qed.

Lemma valid_dropoffs : forall requests picked,
  (forall r, In r requests -> JS.has picked (rq_id r) = true) ->
  isValidRouteFrom picked (map dropoffWaypoint requests) = true.
Proof.
  induction requests as [|r requests IH]; intros picked H; simpl; [reflexivity|].
  rewrite (H r (or_introl eq_refl)). apply IH. intros r' Hr'. apply H. now right.
Qed.

Lemma naiveRoute_valid requests : isValidRoute (naiveRoute requests) = true.
Proof.
  unfold isValidRoute, naiveRoute. rewrite valid_after_pickups.
  apply valid_dropoffs. intros r Hr. apply has_after_pickups. right.
  now apply in_map.
Qed.

Lemma naiveRoute_generated requests :
  requests <> [] ->
  In (naiveRoute requests) (generateValidRoutes (allWaypoints requests)).
Proof.
  intros Hne. apply generateValidRoutes_In. repeat split.
  - apply naiveRoute_Permutation.
  - apply naiveRoute_valid.
  - destruct requests; [congruence|discriminate].
Qed.

(** *** The shortest of the valid routes *)


Lemma ltb_lt a b : JS.ltb a b = true <-> (a < b)%Q.
Proof.
  unfold JS.ltb. rewrite negb_true_iff. split.
  - intros H. apply Qnot_le_lt. intros Hle. apply Qle_bool_iff in Hle. congruence.
  - intros H. destruct (Qle_bool b a) eqn:E; [|reflexivity].
    apply Qle_bool_iff in E. apply Qlt_not_le in H. contradiction.
Qed.

Lemma ltb_ge a b : JS.ltb a b = false <-> (b <= a)%Q.
Proof.
  unfold JS.ltb. rewrite negb_false_iff. apply Qle_bool_iff.
Qed.

Lemma considerRoute_best seen best route :
  bestOf dist seen best -> bestOf dist (seen ++ [route]) (considerRoute dist best route).
Proof.
  unfold considerRoute. fold (routeKm dist route).
  destruct best as [[r km]|]; simpl.
  - intros [Hin [Hkm Hmin]].
    destruct (JS.ltb (routeKm dist route) km) eqn:E; simpl.
    + apply ltb_lt in E. repeat split; [apply in_or_app; simpl; auto|].
      intros other Ho. apply in_app_or in Ho. destruct Ho as [Ho|[<-|[]]].
      * specialize (Hmin _ Ho). lra.
      * lra.
    + apply ltb_ge in E. repeat split; [apply in_or_app; auto|exact Hkm|].
      intros other Ho. apply in_app_or in Ho. destruct Ho as [Ho|[<-|[]]]; auto.
  - intros ->. simpl. repeat split; auto.
    intros other [<-|[]]. lra.
Qed.

Lemma fold_considerRoute_best : forall routes seen best,
  bestOf dist seen best ->
  bestOf dist (seen ++ routes) (fold_left (considerRoute dist) routes best).
Proof.
  induction routes as [|route routes IH]; intros seen best H; simpl.
  - now rewrite app_nil_r.
  - replace (seen ++ route :: routes) with ((seen ++ [route]) ++ routes)
      by (now rewrite <- app_assoc).
    apply IH, considerRoute_best, H.
Qed.

Lemma optimizeRouteDynamic_spec requests :
  requests <> [] ->
  exists result,
    optimizeRouteDynamic dist requests = Some result
    /\ In (waypoints result) (generateValidRoutes (allWaypoints requests))
    /\ forall other, In other (generateValidRoutes (allWaypoints requests)) ->
                     (totalDistance result <= routeKm dist other)%Q.
Proof.
  intros Hne. unfold optimizeRouteDynamic.
  pose proof (fold_considerRoute_best
                (generateValidRoutes (allWaypoints requests)) [] None eq_refl) as H.
  simpl in H.
  destruct (fold_left (considerRoute dist) _ None) as [[route km]|].
  - destruct H as [Hin [Hkm Hmin]]. eexists. split; [reflexivity|]. simpl. auto.
  - exfalso. pose proof (naiveRoute_generated requests Hne) as Hn.
    rewrite H in Hn. destruct Hn.
Qed.

End Routes.

(** *** The greedy route *)

Lemma findIndexFrom_snoc {A} (p : A -> bool) (w : A) : forall arr k,
  (0 <= k)%Z ->
  JS.findIndexFrom p k (arr ++ [w])
  = if (JS.findIndexFrom p k arr =? -1)%Z
    then if p w then (k + Z.of_nat (length arr))%Z else (-1)%Z
    else JS.findIndexFrom p k arr.
Proof.
  induction arr as [|x arr IH]; intros k Hk; simpl.
  - destruct (p w); [lia|reflexivity].
  - destruct (p x).
    + destruct (k =? -1)%Z eqn:E; [apply Z.eqb_eq in E; lia|reflexivity].
    + rewrite IH by lia.
      destruct (JS.findIndexFrom p (k + 1) arr =? -1)%Z; [|reflexivity].
      destruct (p w); [lia|reflexivity].
Qed.

Lemma findIndex_snoc_found {A} (p : A -> bool) w arr :
  JS.findIndex p arr <> (-1)%Z -> JS.findIndex p (arr ++ [w]) = JS.findIndex p arr.
Proof.
  unfold JS.findIndex. intros H. rewrite findIndexFrom_snoc by lia.
  destruct (Z.eqb_spec (JS.findIndexFrom p 0 arr) (-1)); [contradiction|reflexivity].
Qed.

Lemma findIndex_snoc_new {A} (p : A -> bool) w arr :
  JS.findIndex p arr = (-1)%Z ->
  JS.findIndex p (arr ++ [w]) = if p w then Z.of_nat (length arr) else (-1)%Z.
Proof.
  unfold JS.findIndex. intros H. rewrite findIndexFrom_snoc by lia.
  rewrite H. simpl. reflexivity.
Qed.

Lemma findIndex_bounds {A} (p : A -> bool) arr :
  JS.findIndex p arr <> (-1)%Z ->
  (0 <= JS.findIndex p arr < Z.of_nat (length arr))%Z.
Proof.
  unfold JS.findIndex. intros H.
  destruct (findIndexFrom_range p arr 0) as [E|E]; [contradiction|lia].
Qed.

Lemma has_delete s x y :
  JS.has (JS.delete s x) y = JS.has s y && negb (String.eqb x y).
Proof.
  unfold JS.has, JS.delete. induction s as [|z s IH]; simpl; [reflexivity|].
  destruct (String.eqb_spec x z) as [->|Hxz]; simpl.
  - rewrite IH. destruct (String.eqb_spec y z) as [->|Hyz]; simpl.
    + rewrite String.eqb_refl. simpl. now rewrite andb_false_r.
    + reflexivity.
  - rewrite IH. destruct (String.eqb_spec y z) as [->|Hyz]; simpl; [|reflexivity].
    destruct (String.eqb_spec x z); [contradiction|reflexivity].
Qed.

Lemma delete_shrinks s x :
  JS.has s x = true -> (length (JS.delete s x) < length s)%nat.
Proof.
  unfold JS.has, JS.delete. induction s as [|z s IH]; simpl; [discriminate|].
  destruct (String.eqb_spec x z) as [->|Hxz]; simpl.
  - intros _. pose proof (filter_length_le (fun y => negb (String.eqb z y)) s). lia.
  - intros H. specialize (IH H). lia.
Qed.

Lemma add_grows s x : (length (JS.add s x) <= S (length s))%nat.
Proof.
  unfold JS.add. destruct (JS.has s x); [lia|]. rewrite length_app. simpl. lia.
Qed.

Lemma has_nonempty s : (0 < length s)%nat -> exists x, JS.has s x = true.
Proof.
  destruct s as [|x s]; simpl; [lia|]. intros _. exists x.
  now rewrite String.eqb_refl.
Qed.

Lemma splice1_length {A} (arr : list A) : forall i,
  (i < length arr)%nat -> length (JS.splice1 i arr) = (length arr - 1)%nat.
Proof.
  induction arr as [|x arr IH]; intros [|i]; simpl; try lia.
  intros H. rewrite IH by lia. lia.
Qed.

Lemma splice1_In {A} (arr : list A) x : forall i,
  In x (JS.splice1 i arr) -> In x arr.
Proof.
  induction arr as [|y arr IH]; intros [|i]; simpl; auto.
  intros [->|H]; eauto.
Qed.

Lemma splice1_keeps {A} (arr : list A) x : forall i removed,
  nth_error arr i = Some removed -> In x arr ->
  x = removed \/ In x (JS.splice1 i arr).
Proof.
  induction arr as [|y arr IH]; intros [|i] removed; simpl; try discriminate.
  - intros H [<-|Hin]; [left; congruence|now right].
  - intros H [<-|Hin]; [right; now left|].
    destruct (IH _ _ H Hin); auto.
Qed.

Section Greedy.

Variable dist : Location -> Location -> Q.
Variable requests : list RideRequest.

Lemma nearestPickupLoop_choice cur : forall wps i n,
  nearestPickupLoop dist cur i wps n = n
  \/ (isPickup (nearestPickupLoop dist cur i wps n) = true
      /\ (i <= nearestIdx (nearestPickupLoop dist cur i wps n)
            < i + Z.of_nat (length wps))%Z).
Proof.
  induction wps as [|w wps IH]; intros i n; [now left|].
  cbn [nearestPickupLoop].
  destruct (closer (dist cur (wp_location w)) n).
  - right. destruct (IH (i + 1)%Z
                       {| nearestIdx := i; nearestDist := Some (dist cur (wp_location w));
                          isPickup := true |}) as [->|[Hp Hi]].
    + cbn [isPickup nearestIdx length]. split; [reflexivity|lia].
    + split; [exact Hp|cbn [length]; lia].
  - destruct (IH (i + 1)%Z n) as [->|[Hp Hi]]; [now left|right].
    split; [exact Hp|cbn [length]; lia].
Qed.

Lemma nearestPickupLoop_first cur wps :
  wps <> [] ->
  isPickup (nearestPickupLoop dist cur 0 wps initNearest) = true
  /\ (0 <= nearestIdx (nearestPickupLoop dist cur 0 wps initNearest)
        < Z.of_nat (length wps))%Z.
Proof.
  destruct wps as [|w wps]; [congruence|intros _].
  cbn [nearestPickupLoop].
  change (closer (dist cur (wp_location w)) initNearest) with true. cbv iota.
  destruct (nearestPickupLoop_choice cur wps (0 + 1)%Z
              {| nearestIdx := 0; nearestDist := Some (dist cur (wp_location w));
                 isPickup := true |}) as [->|[Hp Hi]].
  - cbn [isPickup nearestIdx length]. split; [reflexivity|lia].
  - split; [exact Hp|cbn [length]; lia].
Qed.

Lemma nearestDropoffLoop_choice cur pickedUp : forall reqs n,
  nearestDropoffLoop dist cur pickedUp reqs n = n
  \/ (isPickup (nearestDropoffLoop dist cur pickedUp reqs n) = false
      /\ exists req, In req reqs /\ JS.has pickedUp (rq_id req) = true).
Proof.
  induction reqs as [|req reqs IH]; intros n; [now left|].
  cbn [nearestDropoffLoop].
  destruct (JS.has pickedUp (rq_id req)) eqn:Ehas.
  - destruct (closer (dist cur (rq_dropoff req)) n).
    + right. destruct (IH {| nearestIdx := -1;
                             nearestDist := Some (dist cur (rq_dropoff req));
                             isPickup := false |}) as [->|[Hp [r [Hr Hh]]]].
      * split; [reflexivity|]. exists req. split; [now left|exact Ehas].
      * split; [exact Hp|]. exists r. split; [now right|exact Hh].
    + destruct (IH n) as [->|[Hp [r [Hr Hh]]]]; [now left|right].
      split; [exact Hp|]. exists r. split; [now right|exact Hh].
  - destruct (IH n) as [->|[Hp [r [Hr Hh]]]]; [now left|right].
    split; [exact Hp|]. exists r. split; [now right|exact Hh].
Qed.

Lemma onRoute_snoc p route rid w :
  onRoute p route rid -> onRoute p (route ++ [w]) rid.
Proof. unfold onRoute. intros H. now rewrite findIndex_snoc_found. Qed.

Lemma onRoute_snoc_self p route rid w :
  p rid w = true -> onRoute p (route ++ [w]) rid.
Proof.
  unfold onRoute. intros Hp.
  destruct (Z.eq_dec (JS.findIndex (p rid) route) (-1)) as [E|E].
  - rewrite findIndex_snoc_new, Hp by exact E. lia.
  - now rewrite findIndex_snoc_found.
Qed.

Lemma ordered_snoc_pickup route rid r :
  (onRoute isDropoffOf route rid -> ordered route rid) ->
  onRoute isDropoffOf (route ++ [pickupWaypoint r]) rid ->
  ordered (route ++ [pickupWaypoint r]) rid.
Proof.
  unfold onRoute, ordered. intros Hold Hnew.
  destruct (Z.eq_dec (JS.findIndex (isDropoffOf rid) route) (-1)) as [E|E].
  - rewrite findIndex_snoc_new in Hnew by exact E. simpl in Hnew. congruence.
  - specialize (Hold E). rewrite (findIndex_snoc_found _ _ _ E).
    rewrite findIndex_snoc_found by lia. exact Hold.
Qed.

Lemma ordered_snoc_dropoff route rid req :
  (onRoute isDropoffOf route rid -> ordered route rid) ->
  onRoute isPickupOf route (rq_id req) ->
  onRoute isDropoffOf (route ++ [dropoffWaypoint req]) rid ->
  ordered (route ++ [dropoffWaypoint req]) rid.
Proof.
  unfold onRoute, ordered. intros Hold Hpick Hnew.
  destruct (Z.eq_dec (JS.findIndex (isDropoffOf rid) route) (-1)) as [E|E].
  - rewrite (findIndex_snoc_new (isDropoffOf rid) (dropoffWaypoint req) route E)
      in Hnew |- *.
    assert (Hw : isDropoffOf rid (dropoffWaypoint req) = String.eqb (rq_id req) rid)
      by reflexivity.
    rewrite Hw in Hnew |- *.
    destruct (String.eqb_spec (rq_id req) rid) as [<-|Hne]; [|congruence].
    rewrite findIndex_snoc_found by exact Hpick.
    apply findIndex_bounds in Hpick. lia.
  - specialize (Hold E). rewrite (findIndex_snoc_found _ _ _ E).
    rewrite findIndex_snoc_found by lia. exact Hold.
Qed.

Lemma greedyStep_pickup st wp r0 idx :
  GreedyInv requests st ->
  nth_error (gs_waypoints st) idx = Some wp ->
  In r0 requests -> wp = pickupWaypoint r0 ->
  let st' := {| gs_waypoints := JS.splice1 idx (gs_waypoints st);
                gs_route := gs_route st ++ [wp];
                gs_pickedUp := JS.add (gs_pickedUp st) (wp_requestId wp);
                gs_currentLocation := wp_location wp |} in
  GreedyInv requests st' /\ (greedyMeasure st' < greedyMeasure st)%nat.
Proof.
  intros Inv Hnth Hr0 -> st'. split.
  - constructor; cbn [st' gs_waypoints gs_route gs_pickedUp wp_requestId pickupWaypoint].
    + intros w Hw. apply splice1_In in Hw. now apply (inv_pending _ _ Inv).
    + intros rid Hh. rewrite has_add in Hh. apply orb_prop in Hh.
      destruct Hh as [Hh|Hh]; [now apply (inv_known _ _ Inv)|].
      apply String.eqb_eq in Hh. subst. eauto.
    + intros rid Hh. rewrite has_add in Hh. apply orb_prop in Hh.
      destruct Hh as [Hh|Hh].
      * apply onRoute_snoc. now apply (inv_onboard _ _ Inv).
      * apply onRoute_snoc_self. unfold isPickupOf. simpl.
        apply String.eqb_eq in Hh. subst. apply String.eqb_refl.
    + intros rid. apply ordered_snoc_pickup. apply (inv_order _ _ Inv).
    + intros r Hr. destruct (inv_served _ _ Inv r Hr) as [Hpend|[Hon Hrest]].
      * destruct (splice1_keeps _ _ _ _ Hnth Hpend) as [Heq|Hin]; [right|now left].
        split.
        -- apply onRoute_snoc_self. rewrite <- Heq. unfold isPickupOf. simpl.
           apply String.eqb_refl.
        -- left. rewrite has_add.
           replace (rq_id r0) with (rq_id r)
             by (change (wp_requestId (pickupWaypoint r) = wp_requestId (pickupWaypoint r0));
                 now rewrite Heq).
           rewrite String.eqb_refl. apply orb_true_r.
      * right. split; [now apply onRoute_snoc|].
        destruct Hrest as [Hh|Hd]; [left|right; now apply onRoute_snoc].
        rewrite has_add, Hh. reflexivity.
  - unfold greedyMeasure. cbn [st' gs_waypoints gs_pickedUp].
    assert (Hidx : (idx < length (gs_waypoints st))%nat)
      by (apply nth_error_Some; congruence).
    rewrite splice1_length by exact Hidx.
    pose proof (add_grows (gs_pickedUp st) (wp_requestId (pickupWaypoint r0))). lia.
Qed.

Lemma greedyStep_dropoff st req :
  GreedyInv requests st ->
  In req requests -> JS.has (gs_pickedUp st) (rq_id req) = true ->
  let st' := {| gs_waypoints := gs_waypoints st;
                gs_route := gs_route st ++ [dropoffWaypoint req];
                gs_pickedUp := JS.delete (gs_pickedUp st) (rq_id req);
                gs_currentLocation := rq_dropoff req |} in
  GreedyInv requests st' /\ (greedyMeasure st' < greedyMeasure st)%nat.
Proof.
  intros Inv Hreq Hhas st'. split.
  - constructor; cbn [st' gs_waypoints gs_route gs_pickedUp].
    + apply (inv_pending _ _ Inv).
    + intros rid Hh. rewrite has_delete in Hh. apply andb_prop in Hh.
      now apply (inv_known _ _ Inv).
    + intros rid Hh. rewrite has_delete in Hh. apply andb_prop in Hh.
      apply onRoute_snoc. now apply (inv_onboard _ _ Inv).
    + intros rid. apply ordered_snoc_dropoff; [apply (inv_order _ _ Inv)|].
      now apply (inv_onboard _ _ Inv).
    + intros r Hr. destruct (inv_served _ _ Inv r Hr) as [Hpend|[Hon Hrest]]; [now left|].
      right. split; [now apply onRoute_snoc|].
      destruct Hrest as [Hh|Hd]; [|right; now apply onRoute_snoc].
      destruct (String.eqb_spec (rq_id req) (rq_id r)) as [Heq|Hne].
      * right. apply onRoute_snoc_self. unfold isDropoffOf. simpl.
        rewrite Heq. apply String.eqb_refl.
      * left. rewrite has_delete, Hh. simpl.
        destruct (String.eqb_spec (rq_id req) (rq_id r)); [contradiction|reflexivity].
  - unfold greedyMeasure. cbn [st' gs_waypoints gs_pickedUp].
    pose proof (delete_shrinks _ _ Hhas). lia.
Qed.

Lemma greedyStep_progress st :
  GreedyInv requests st -> greedyContinues st = true ->
  exists st', greedyStep dist requests st = Some st'
              /\ GreedyInv requests st' /\ (greedyMeasure st' < greedyMeasure st)%nat.
Proof.
  intros Inv Hcont. unfold greedyStep.
  set (cur := gs_currentLocation st).
  set (n1 := nearestPickupLoop dist cur 0 (gs_waypoints st) initNearest).
  set (n := nearestDropoffLoop dist cur (gs_pickedUp st) requests n1).
  pose proof (nearestDropoffLoop_choice cur (gs_pickedUp st) requests n1) as Hdrop.
  fold n in Hdrop.
  destruct (isPickup n && (0 <=? nearestIdx n)%Z) eqn:Esel.
  - (* the nearest stop is a pickup *)
    apply andb_prop in Esel. destruct Esel as [Hp Hidx]. apply Z.leb_le in Hidx.
    assert (Hn : n = n1) by (destruct Hdrop as [H|[H _]]; [exact H|congruence]).
    rewrite Hn in *. clear Hn Hdrop n.
    destruct (nearestPickupLoop_choice cur (gs_waypoints st) 0%Z initNearest)
      as [Hinit|[_ Hrange]]; fold n1 in Hinit || fold n1 in Hrange.
    { rewrite Hinit in Hp. discriminate. }
    unfold JS.at_. destruct (Z.ltb_spec (nearestIdx n1) 0) as [Hneg|_]; [lia|].
    destruct (nth_error (gs_waypoints st) (Z.to_nat (nearestIdx n1))) as [wp|] eqn:Enth;
      [|apply nth_error_None in Enth; lia].
    destruct (inv_pending _ _ Inv wp (nth_error_In _ _ Enth)) as [r0 [Hr0 Hwp]].
    eexists. split; [reflexivity|].
    exact (greedyStep_pickup st wp r0 _ Inv Enth Hr0 Hwp).
  - (* the nearest stop is a dropoff *)
    assert (Hex : exists r, In r requests /\ JS.has (gs_pickedUp st) (rq_id r) = true).
    { destruct Hdrop as [Hn|[_ H]]; [|exact H].
      rewrite Hn in Esel.
      destruct (gs_waypoints st) as [|w wps] eqn:Ewps.
      - unfold greedyContinues in Hcont. rewrite Ewps in Hcont. simpl in Hcont.
        apply Nat.ltb_lt in Hcont. apply has_nonempty in Hcont.
        destruct Hcont as [x Hx]. destruct (inv_known _ _ Inv x Hx) as [r [Hr <-]]. eauto.
      - destruct (nearestPickupLoop_first cur (w :: wps)) as [Hp Hi]; [discriminate|].
        fold n1 in Hp, Hi. rewrite Hp in Esel. simpl in Esel.
        apply Z.leb_gt in Esel. lia. }
    destruct (find (fun r => JS.has (gs_pickedUp st) (rq_id r)) requests) as [req|] eqn:Ef.
    + apply find_some in Ef. destruct Ef as [Hreq Hhas].
      eexists. split; [reflexivity|].
      exact (greedyStep_dropoff st req Inv Hreq Hhas).
    + destruct Hex as [r [Hr Hh]].
      pose proof (find_none _ _ Ef r Hr) as Hnone. simpl in Hnone. congruence.
Qed.

Lemma greedyLoop_terminates : forall fuel st,
  GreedyInv requests st -> (greedyMeasure st < fuel)%nat ->
  exists route,
    greedyLoop dist fuel requests st = Some route
    /\ forall r, In r requests -> pickupBeforeDropoff route r.
Proof.
  induction fuel as [|fuel IH]; intros st Inv Hfuel; [lia|].
  cbn [greedyLoop]. destruct (greedyContinues st) eqn:Hcont.
  - destruct (greedyStep_progress st Inv Hcont) as [st' [-> [Inv' Hless]]].
    apply IH; [exact Inv'|lia].
  - exists (gs_route st). split; [reflexivity|].
    unfold greedyContinues in Hcont. apply orb_false_elim in Hcont.
    destruct Hcont as [Hw Hp]. apply Nat.ltb_ge in Hw, Hp.
    intros r Hr. apply (inv_order _ _ Inv).
    destruct (inv_served _ _ Inv r Hr) as [Hpend|[_ [Hh|Hd]]]; [| |exact Hd].
    + destruct (gs_waypoints st); [destruct Hpend|simpl in Hw; lia].
    + destruct (gs_pickedUp st); [discriminate|simpl in Hp; lia].
Qed.

End Greedy.

Lemma optimizeRouteGreedy_spec dist requests :
  requests <> [] ->
  exists result,
    optimizeRouteGreedy dist requests = Some result
    /\ forall r, In r requests -> pickupBeforeDropoff (waypoints result) r.
Proof.
  intros Hne. unfold optimizeRouteGreedy.
  destruct requests as [|first rest]; [congruence|].
  cbn [map]. cbv iota.
  change (pickupWaypoint first :: map pickupWaypoint rest)
    with (map pickupWaypoint (first :: rest)).
  remember (first :: rest) as requests eqn:E. clear E Hne.
  set (st0 := {| gs_waypoints := map pickupWaypoint requests; gs_route := [];
                 gs_pickedUp := [];
                 gs_currentLocation := wp_location (pickupWaypoint first) |}).
  destruct (greedyLoop_terminates dist requests (2 * length requests + 1) st0)
    as [route [-> Horder]].
  - constructor; cbn [st0 gs_waypoints gs_route gs_pickedUp].
    + intros w Hw. apply in_map_iff in Hw. destruct Hw as [r [<- Hr]]. eauto.
    + discriminate.
    + discriminate.
    + intros rid H. exfalso. apply H. reflexivity.
    + intros r Hr. left. now apply in_map.
  - unfold greedyMeasure. cbn [st0 gs_waypoints gs_pickedUp]. rewrite length_map.
    simpl. lia.
  - eexists. split; [reflexivity|exact Horder].
Qed.

(** For every non-empty group the optimizer returns a route, members are
    picked up before they are dropped, and small groups beat the naive
    route. *)
Lemma optimizeRoute_ordered_bounded (dist : Location -> Location -> Q)
  (requests : list RideRequest) :
  requests <> [] ->
  exists result,
    optimizeRoute dist requests = Some result
    /\ (forall r, In r requests -> pickupBeforeDropoff (waypoints result) r)
    /\ ((length requests <= 4)%nat ->
        (totalDistance result <= routeKm dist (naiveRoute requests))%Q).
Proof.
  intros Hne. destruct requests as [|r [|r2 rest]]; [congruence| |].
  - (* one request *)
    exists (createSimpleRoute dist r). split; [reflexivity|]. split.
    + intros r' [<-|[]]. unfold pickupBeforeDropoff, ordered, JS.findIndex.
      cbn [createSimpleRoute waypoints JS.findIndexFrom].
      unfold isPickupOf, isDropoffOf.
      cbn [pickupWaypoint dropoffWaypoint wp_type wp_requestId].
      rewrite String.eqb_refl. lia.
    + intros _. unfold routeKm, naiveRoute, calculateRouteDistance. simpl. lra.
  - (* two requests or more *)
    remember (r :: r2 :: rest) as requests eqn:E.
    assert (Hopt : optimizeRoute dist requests
                   = if (length requests <=? 4)%nat
                     then optimizeRouteDynamic dist requests
                     else optimizeRouteGreedy dist requests) by (subst; reflexivity).
    rewrite Hopt. clear Hopt E.
    destruct (Nat.leb_spec (length requests) 4) as [Hsmall|Hbig].
    + destruct (optimizeRouteDynamic_spec dist requests Hne) as [result [-> [Hin Hmin]]].
      exists result. split; [reflexivity|].
      apply generateValidRoutes_In in Hin. destruct Hin as [Hperm [Hvalid _]]. split.
      * intros r' Hr'. now apply valid_route_order with requests.
      * intros _. apply Hmin, naiveRoute_generated, Hne.
    + destruct (optimizeRouteGreedy_spec dist requests Hne) as [result [-> Horder]].
      exists result. split; [reflexivity|]. split; [exact Horder|lia].
Qed.

(** Claim C4, as amended.  For every non-empty group of requests
    [optimizeRoute] returns a route that places each member's pickup before
    that member's dropoff; for a group of at most four requests the total
    distance of that route is at most the distance of the naive route that
    visits all pickups and then all dropoffs in input order. *)
Theorem optimizeRoute_order_and_bound (dist : Location -> Location -> Q)
  (requests : list RideRequest) :
  requests <> [] ->
  exists result,
    optimizeRoute dist requests = Some result
    /\ (forall r, In r requests -> pickupBeforeDropoff (waypoints result) r)
    /\ ((length requests <= 4)%nat ->
        (totalDistance result <= routeKm dist (naiveRoute requests))%Q).
Proof. exact (optimizeRoute_ordered_bounded dist requests). Qed.

(** *** The engine always answers *)

Section Totality.

Variable dist : Location -> Location -> Q.

Lemma at_in_range {A} (arr : list A) i :
  (0 <= i < Z.of_nat (length arr))%Z -> exists x, JS.at_ arr i = Some x.
Proof.
  intros H. unfold JS.at_. destruct (Z.ltb_spec i 0); [lia|].
  destruct (nth_error arr (Z.to_nat i)) eqn:E; [eauto|].
  apply nth_error_None in E. lia.
Qed.

Lemma legDistanceLoop_defined wps : forall n i acc,
  (0 <= i)%Z -> (i + Z.of_nat n < Z.of_nat (length wps))%Z ->
  exists km, RideMatchingEngine.legDistanceLoop dist n i wps acc = Some km.
Proof.
  induction n as [|n IH]; intros i acc Hi Hn; simpl; [eauto|].
  destruct (at_in_range wps i) as [a ->]; [lia|].
  destruct (at_in_range wps (i + 1)) as [b ->]; [lia|].
  apply IH; lia.
Qed.

Lemma detourOf_defined route request :
  pickupBeforeDropoff (waypoints route) request ->
  exists d, RideMatchingEngine.detourOf dist route request = Some d.
Proof.
  unfold pickupBeforeDropoff, ordered, RideMatchingEngine.detourOf. intros H.
  assert (Hd : (JS.findIndex (isDropoffOf (rq_id request)) (waypoints route)
                < Z.of_nat (length (waypoints route)))%Z)
    by (apply findIndex_bounds; lia).
  destruct (legDistanceLoop_defined (waypoints route)
              (Z.to_nat (JS.findIndex (isDropoffOf (rq_id request)) (waypoints route)
                         - JS.findIndex (isPickupOf (rq_id request)) (waypoints route)))
              (JS.findIndex (isPickupOf (rq_id request)) (waypoints route)) 0%Q)
    as [km ->]; [lia|lia|eauto].
Qed.

Lemma calculateDetours_defined route : forall group,
  (forall r, In r group -> pickupBeforeDropoff (waypoints route) r) ->
  exists detours, RideMatchingEngine.calculateDetours dist group route = Some detours.
Proof.
  induction group as [|r group IH]; intros H; simpl; [eauto|].
  destruct (detourOf_defined route r) as [d ->]; [apply H; now left|].
  destruct IH as [ds ->]; [intros r' Hr'; apply H; now right|eauto].
Qed.

Lemma tryGroup_defined cfg request group :
  RideMatchingEngine.tryGroup dist cfg request group <> None.
Proof.
  unfold RideMatchingEngine.tryGroup.
  destruct (negb (RideMatchingEngine.canAddToGroup cfg request group)); [discriminate|].
  destruct (negb (RideMatchingEngine.checkConstraints cfg (group ++ [request])));
    [discriminate|].
  destruct (optimizeRoute_ordered_bounded dist (group ++ [request]))
    as [route [-> [Horder _]]]; [destruct group; discriminate|].
  destruct (calculateDetours_defined route (group ++ [request]) Horder) as [ds ->].
  destruct (negb (RideMatchingEngine.validateDetours dist cfg (group ++ [request]) ds));
    discriminate.
Qed.

Lemma matchGroups_defined cfg request : forall groups acc,
  RideMatchingEngine.matchGroups dist cfg request groups acc <> None.
Proof.
  induction groups as [|group groups IH]; intros acc; simpl; [discriminate|].
  pose proof (tryGroup_defined cfg request group) as H.
  destruct (RideMatchingEngine.tryGroup dist cfg request group) as [[m|]|];
    [apply IH|apply IH|congruence].
Qed.

Lemma matching_findMatches_defined cfg request activeRequests :
  exists matches,
    RideMatchingEngine.findMatches dist cfg request activeRequests = Some matches
    /\ (length matches <= 5)%nat.
Proof.
  unfold RideMatchingEngine.findMatches. cbn [optimizeRoute].
  pose proof (matchGroups_defined cfg request
                (RideMatchingEngine.createRequestGroups cfg
                   (RideMatchingEngine.filterNearbyRequests dist cfg request activeRequests))
                [RideMatchingEngine.soloMatch
                   (RideMatchingEngine.createRide [request]
                      (createSimpleRoute dist request))]) as H.
  destruct (RideMatchingEngine.matchGroups dist cfg request _ _) as [all|]; [|congruence].
  eexists. split; [reflexivity|]. unfold JS.slice0. apply firstn_le_length.
Qed.

End Totality.

Section PricingTotality.

Variable hopKm : Location -> Location -> Q.
Variable dist : Location -> Location -> Q.
Variable cfg : MatchingConfig.

(** Every match carries the ride of a non-empty group on its optimized
    route. *)
Lemma findMatches_rides request activeRequests matches m :
  RideMatchingEngine.findMatches dist cfg request activeRequests = Some matches ->
  In m matches ->
  exists group route,
    group <> [] /\ optimizeRoute dist group = Some route
    /\ mr_ride m = RideMatchingEngine.createRide group route.
Proof.
  unfold RideMatchingEngine.findMatches. cbn [optimizeRoute].
  destruct (RideMatchingEngine.matchGroups dist cfg request _ _) as [all|] eqn:E;
    [|discriminate].
  intros H Hin.
  assert (Hs : matches = JS.slice0 5 (RideMatchingEngine.sortByScore all)) by congruence.
  rewrite Hs in Hin. clear H Hs.
  apply slice0_In in Hin. apply (proj1 (sortByScore_In _ _)) in Hin.
  destruct (matchGroups_origin dist cfg _ _ _ _ _ E Hin) as [[<-|[]]|[group [Hg Hm]]].
  - exists [request], (createSimpleRoute dist request).
    split; [discriminate|]. split; reflexivity.
  - apply tryGroup_pushed in Hm. destruct Hm as [_ [route [Hroute Hride]]].
    exists (group ++ [request]), route. split; [destruct group; discriminate|auto].
Qed.






(** No leg of a match has its detour filled in. *)
Lemma matched_legs_detour_zero surge hour request activeRequests matches m leg :
  RideService.findMatches hopKm dist cfg surge hour request activeRequests
  = Some matches ->
  In m matches -> In leg (rd_passengers (mr_ride m)) ->
  pi_detourMinutes leg = 0%Z.
Proof.
  unfold RideService.findMatches.
  destruct (RideMatchingEngine.findMatches dist cfg request activeRequests)
    as [raw|] eqn:Eraw; [|discriminate].
  intros Hfind Hm Hleg.
  destruct (priceMatches_origin hopKm surge hour raw matches m Hfind Hm)
    as [m0 [Hm0 Hprice]].
  unfold RideService.priceMatch in Hprice.
  destruct (RideService.priceLegs hopKm surge hour (rd_route (mr_ride m0))
              (RideService.ridePassengerCount (rd_passengers (mr_ride m0)))
              (rd_passengers (mr_ride m0))) as [legs|] eqn:Elegs; [|discriminate].
  injection Hprice as <-. cbn [mr_ride rd_passengers] in Hleg.
  destruct (priceLegs_spec hopKm _ _ _ _ _ _ Elegs) as [_ Horigin].
  destruct (Horigin _ Hleg) as [leg0 [Hleg0 Hpriced]].
  unfold RideService.priceLeg in Hpriced.
  destruct (RideService.calculatePassengerDistance hopKm leg0 (rd_route (mr_ride m0)));
    [|discriminate].
  injection Hpriced as <-. cbn [RideService.setFare pi_detourMinutes].
  destruct (findMatches_rides request activeRequests raw m0 Eraw Hm0)
    as [group [route [_ [_ Hride]]]].
  rewrite Hride in Hleg0. cbn [RideMatchingEngine.createRide rd_passengers] in Hleg0.
  apply in_map_iff in Hleg0. destruct Hleg0 as [r [<- _]]. reflexivity.
Qed.

(** Every pooled match comes from a group that passed the constraint
    check. *)
Lemma pooled_match_within_capacity request group m :
  RideMatchingEngine.tryGroup dist defaultConfig request group = Some (Some m) ->
  (totalPassengers (group ++ [request]) <= 4)%Z
  /\ (totalLuggageUnits (group ++ [request]) <= 6)%Z
  /\ map pi_requestId (rd_passengers (mr_ride m)) = map rq_id (group ++ [request]).
Proof.
  intros H. apply tryGroup_pushed in H. destruct H as [Hcheck [route [_ Hride]]].
  destruct (checkConstraints_capacity _ Hcheck) as [Hp Hl].
  repeat split; auto. rewrite Hride.
  cbn [RideMatchingEngine.createRide rd_passengers]. now rewrite map_map.
Qed.

End PricingTotality.

(** ** Booking and completion *)

Section ServiceFacts.

Local Open Scope tx_scope.


(** *** Steps of a transaction *)

Section TxInvariants.

Variable I : Conn -> Prop.

Lemma preserves_ret {A} (a : A) : preserves I (ret a).
Proof. intros c c' r H. unfold ret in H. now injection H as <- _. Qed.

Lemma preserves_throw {A} e : preserves I (@throw A e).
Proof. intros c c' r H. unfold throw in H. now injection H as <- _. Qed.

Lemma preserves_SELECT {A} (q : DB -> A) : preserves I (query_SELECT q).
Proof. intros c c' r H. unfold query_SELECT in H. now injection H as <- _. Qed.

Lemma preserves_bind {A B} (m : Tx A) (k : A -> Tx B) :
  preserves I m -> (forall a, preserves I (k a)) -> preserves I (bind m k).
Proof.
  intros Hm Hk c c' r H Hc. unfold bind in H.
  destruct (m c) as [c1 [e|a]] eqn:E.
  - injection H as <- _. exact (Hm _ _ _ E Hc).
  - exact (Hk a _ _ _ H (Hm _ _ _ E Hc)).
Qed.

Lemma preserves_forEach {A} (xs : list A) (body : A -> Tx unit) :
  (forall x, preserves I (body x)) -> preserves I (forEach xs body).
Proof.
  intros Hbody. induction xs as [|x xs IH]; simpl.
  - apply preserves_ret.
  - apply preserves_bind; auto.
Qed.


Lemma preservesOnError_weaken {A} (m : Tx A) : preserves I m -> preservesOnError I m.
Proof. intros H c c' e. apply H. Qed.

Lemma preservesOnError_bind {A B} (m : Tx A) (k : A -> Tx B) :
  preserves I m -> (forall a, preservesOnError I (k a)) ->
  preservesOnError I (bind m k).
Proof.
  intros Hm Hk c c' e H Hc. unfold bind in H.
  destruct (m c) as [c1 [e1|a]] eqn:E.
  - injection H as <- _. exact (Hm _ _ _ E Hc).
  - exact (Hk a _ _ _ H (Hm _ _ _ E Hc)).
Qed.

Lemma preservesOnError_COMMIT {A} (a : A) :
  preservesOnError I (query_COMMIT ;; ret a).
Proof. intros c c' e H. discriminate. Qed.

Lemma preservesOnError_COMMIT_only : preservesOnError I query_COMMIT.
Proof. intros c c' e H. discriminate. Qed.

End TxInvariants.

Lemma savedIs_UPDATE saved u : preserves (savedIs saved) (query_UPDATE u).
Proof. intros c c' r H. unfold query_UPDATE in H. now injection H as <- _. Qed.

Lemma savedIs_INSERT_ride saved row : preserves (savedIs saved) (query_INSERT_ride row).
Proof.
  intros c c' r H. unfold query_INSERT_ride in H.
  repeat match type of H with
         | (if ?b then _ else _) = _ => destruct b
         end; now injection H as <- _.
Qed.

Lemma savedIs_INSERT_ride_passenger saved row :
  preserves (savedIs saved) (query_INSERT_ride_passenger row).
Proof.
  intros c c' r H. unfold query_INSERT_ride_passenger in H.
  repeat match type of H with
         | (if ?b then _ else _) = _ => destruct b
         end; now injection H as <- _.
Qed.

(** A transaction that throws leaves the store as [BEGIN] found it. *)
Lemma transaction_rolls_back {A} (steps : Tx A) db :
  (forall saved, preservesOnError (savedIs saved) steps) ->
  forall c' e,
    tryCatch (query_BEGIN ;; steps) (fun error => query_ROLLBACK ;; throw error)
             (connect db) = (c', inl e) ->
    conn_db c' = db.
Proof.
  intros Hsteps c' e. unfold tryCatch, bind at 1, query_BEGIN. cbn [connect conn_db conn_log].
  match goal with |- context [steps ?c0] => destruct (steps c0) as [c1 [e1|a]] eqn:E end.
  - pose proof (Hsteps db _ _ _ E eq_refl) as Hs. unfold savedIs in Hs.
    unfold bind, query_ROLLBACK, throw. rewrite Hs. intros H. now injection H as <- _.
  - discriminate.
Qed.

Ltac tx_steps :=
  repeat first
    [ apply preservesOnError_COMMIT
    | apply preservesOnError_COMMIT_only
    | apply preservesOnError_bind; [|intros ?]
    | apply preserves_bind; [|intros ?]
    | apply preserves_SELECT
    | apply preserves_ret
    | apply preserves_forEach; intros ?
    | apply savedIs_UPDATE
    | apply savedIs_INSERT_ride
    | apply savedIs_INSERT_ride_passenger
    | apply preservesOnError_weaken, preserves_throw
    | apply preserves_throw
    | match goal with
      | |- preservesOnError _ (match ?x with _ => _ end) => destruct x
      | |- preservesOnError _ (if ?b then _ else _) => destruct b
      | |- preserves _ (match ?x with _ => _ end) => destruct x
      | |- preserves _ (if ?b then _ else _) => destruct b
      end ].

(** *** Confirm booking *)

Lemma confirmBooking_rolls_back db newRideId requestId rideData c' e :
  RideService.confirmBooking newRideId requestId rideData (connect db) = (c', inl e) ->
  conn_db c' = db.
Proof.
  unfold RideService.confirmBooking. apply transaction_rolls_back. intros saved.
  unfold RideService.selectRequestForUpdate, RideService.selectAvailableCab,
    RideService.insertPassengerAndConfirm.
  tx_steps.
Qed.




(** *** Complete trip *)

Lemma completed_rows rideId rows :
  filter (fun r => String.eqb (ride_id r) rideId)
         (updateRows rideCondHolds applyRideSet
            [SetRideStatus COMPLETED; SetRideVersionPlus1] [RideIdEq rideId] rows)
  = map completedRow (filter (fun r => String.eqb (ride_id r) rideId) rows).
Proof.
  unfold updateRows. induction rows as [|row rows IH]; simpl; [reflexivity|].
  destruct (String.eqb (ride_id row) rideId) eqn:E; simpl.
  - rewrite E. simpl. f_equal. exact IH.
  - rewrite E. exact IH.
Qed.

Lemma applyUpdate_cabs_rides sets conds db :
  rides (applyUpdate (UpdateCabs sets conds) db) = rides db.
Proof. reflexivity. Qed.

Lemma freeCab_rides cabId lat lng c :
  exists c', RideCompletionService.freeCab cabId lat lng c = (c', inr tt)
             /\ rides (conn_db c') = rides (conn_db c)
             /\ conn_snapshot c' = conn_snapshot c.
Proof.
  unfold RideCompletionService.freeCab.
  destruct lat as [lat|], lng as [lng|];
    try destruct (RideCompletionService.truthy (Some lat)
                  && RideCompletionService.truthy (Some lng));
    eexists; (split; [reflexivity|split; reflexivity]).
Qed.

(** A successful completion marks every trip row with this id [COMPLETED],
    and there is such a row. *)
Lemma completeRide_success db rideId :
  out_error (runOp (CompleteRide rideId) db) = None ->
  rides (out_db (runOp (CompleteRide rideId) db))
  = updateRows rideCondHolds applyRideSet
      [SetRideStatus COMPLETED; SetRideVersionPlus1] [RideIdEq rideId] (rides db)
  /\ filter (fun r => String.eqb (ride_id r) rideId) (rides db) <> [].
Proof.
  unfold runOp, outcome, RideCompletionService.completeRide, tryCatch, bind,
    query_BEGIN, RideCompletionService.selectRideStatus,
    RideCompletionService.selectRoute, query_SELECT, throw, query_ROLLBACK,
    query_UPDATE, query_COMMIT.
  cbn [connect conn_db conn_snapshot conn_log].
  destruct (filter (fun r => String.eqb (ride_id r) rideId) (rides db))
    as [|row rows] eqn:Erows; cbn [map]; [discriminate|].
  destruct (RideStatus_eqb (ride_status row) COMPLETED); [discriminate|].
  destruct (RideStatus_eqb (ride_status row) CANCELLED); [discriminate|].
  cbn [conn_db conn_snapshot conn_log]. rewrite Erows. cbn [map].
  destruct (RideCompletionService.finalDropoff (ride_route row)) as [lat lng].
  match goal with
  | |- context [RideCompletionService.freeCab ?cab ?la ?ln ?c] =>
      destruct (freeCab_rides cab la ln c) as [c' [-> [Hr Hs]]]
  end.
  cbn [conn_db conn_snapshot conn_log snd fst out_error out_db applyUpdate rides] in *.
  intros _. split; [exact Hr|discriminate].
Qed.

(** Claim C9.  After a successful [completeRide], a second call for the
    same ride fails with "Ride already completed" and leaves the store as
    the first call left it: the cab's availability and location and the
    status of every request are unchanged. *)
Theorem completeRide_twice_conflicts (db : DB) (rideId : string) :
  out_error (runOp (CompleteRide rideId) db) = None ->
  let afterFirst := out_db (runOp (CompleteRide rideId) db) in
  let second := runOp (CompleteRide rideId) afterFirst in
  out_error second = Some RideAlreadyCompleted
  /\ out_db second = afterFirst
  /\ cabs (out_db second) = cabs afterFirst
  /\ ride_requests (out_db second) = ride_requests afterFirst.
Proof.
  intros Hok. destruct (completeRide_success db rideId Hok) as [Hrides Hfound].
  cbn zeta. set (afterFirst := out_db (runOp (CompleteRide rideId) db)) in *.
  assert (Hrun : RideCompletionService.completeRide rideId (connect afterFirst)
                 = (connect afterFirst, inl RideAlreadyCompleted)).
  { unfold RideCompletionService.completeRide, tryCatch, bind, query_BEGIN,
      RideCompletionService.selectRideStatus, query_SELECT, throw, query_ROLLBACK.
    cbn [connect conn_db conn_snapshot conn_log].
    rewrite Hrides, completed_rows.
    destruct (filter (fun r => String.eqb (ride_id r) rideId) (rides db))
      as [|row rows]; [congruence|].
    reflexivity. }
  unfold runOp, outcome. rewrite Hrun. cbn. auto.
Qed.

(** *** The updates a call sends *)

Section UpdateLog.

Variable allowed : Update -> Prop.








End UpdateLog.



End ServiceFacts.

(** ** Concrete runs *)

Section Runs.

Local Open Scope string_scope.

(** Claim C1, at a failing input.  Five parties of two wait at the pickup
    of the target, itself a party of two, all for the same dropoff.  Each
    of the five pairings scores 100, the solo trip scores 50, and the five
    results returned are the pairings: the solo trip of the target is not
    among them. *)
Theorem findMatches_drops_solo :
  exists matches,
    RideMatchingEngine.findMatches localDistance defaultConfig
      (partyOfTwo "t") waitingParties = Some matches
    /\ map (fun m => map pi_requestId (rd_passengers (mr_ride m))) matches
       = [["a"; "t"]; ["b"; "t"]; ["c"; "t"]; ["d"; "t"]; ["e"; "t"]]
    /\ forallb (fun m => Qeq_bool (mr_score m) 100) matches = true
    /\ existsb (fun m => (length (rd_passengers (mr_ride m)) =? 1)%nat) matches = false.
Proof.
  eexists. split; [vm_compute; reflexivity|].
  repeat split; vm_compute; reflexivity.
Qed.

(** Claim C4, counterexample.  For five riders along one meridian the
    greedy route is longer than the naive route. *)
Lemma greedy_route_exceeds_naive :
  exists result,
    optimizeRoute localDistance fiveRiders = Some result
    /\ (routeKm localDistance (naiveRoute fiveRiders) < totalDistance result)%Q.
Proof.
  eexists. split; [vm_compute; reflexivity|]. vm_compute. reflexivity.
Qed.

Lemma optimizeRoute_order_and_bound_witness :
  exists result,
    optimizeRoute localDistance [riderB; riderA] = Some result
    /\ (forall r, In r [riderB; riderA] -> pickupBeforeDropoff (waypoints result) r)
    /\ ((length [riderB; riderA] <= 4)%nat ->
        (totalDistance result
         <= routeKm localDistance (naiveRoute [riderB; riderA]))%Q).
Proof.
  apply (optimizeRoute_order_and_bound localDistance [riderB; riderA]). discriminate.
Defined.

Lemma constraint_check_within_capacity_witness :
  RideMatchingEngine.checkConstraints defaultConfig [riderB; riderA] = true
  /\ (totalPassengers [riderB; riderA] <= 4)%Z
  /\ (totalLuggageUnits [riderB; riderA] <= 6)%Z.
Proof.
  split; [reflexivity|].
  apply (constraint_check_within_capacity [riderB; riderA]). reflexivity.
Defined.

Lemma leg_fare_tier_from_trip_total_witness :
  exists matches m leg legKm,
    RideService.findMatches flatHopKm localDistance defaultConfig 1 12 riderA [riderB]
    = Some matches
    /\ In m matches /\ In leg (rd_passengers (mr_ride m))
    /\ RideService.calculatePassengerDistance flatHopKm leg (rd_route (mr_ride m))
       = Some legKm
    /\ pi_fare leg
       = fareSpec legKm 1 12 (tripPassengers (rd_passengers (mr_ride m)))
           (pi_passengers leg).
Proof.
  destruct (RideService.findMatches flatHopKm localDistance defaultConfig 1 12
              riderA [riderB]) as [[|m ms]|] eqn:E;
    try (vm_compute in E; discriminate).
  assert (Hleg : exists leg, In leg (rd_passengers (mr_ride m))).
  { vm_compute in E. injection E as <- _. eexists. left. reflexivity. }
  destruct Hleg as [leg Hleg].
  assert (Hnn : forall r, In r [riderA; riderB] -> (0 <= rq_passengers r)%Z).
  { intros r [<-|[<-|[]]]; simpl; lia. }
  destruct (leg_fare_tier_from_trip_total flatHopKm localDistance defaultConfig 1 12
              riderA [riderB] (m :: ms) m leg Hnn E (or_introl eq_refl) Hleg)
    as [legKm [Hkm Hfare]].
  exists (m :: ms), m, leg, legKm. repeat split; auto. now left.
Defined.


Lemma completeRide_twice_conflicts_witness :
  out_error (runOp (CompleteRide "ride-1") bookedDb) = None
  /\ out_error (runOp (CompleteRide "ride-1")
                  (out_db (runOp (CompleteRide "ride-1") bookedDb)))
     = Some RideAlreadyCompleted.
Proof.
  assert (Hok : out_error (runOp (CompleteRide "ride-1") bookedDb) = None)
    by (vm_compute; reflexivity).
  split; [exact Hok|].
  apply (completeRide_twice_conflicts bookedDb "ride-1" Hok).
Defined.


(** Claim C10, at a failing input.  In the pooled ride of A and B the
    shared route takes rider A two minutes longer than the direct trip,
    yet the leg of A carries [detourMinutes = 0], and so does the row that
    the booking writes. *)
Theorem persisted_detour_is_zero :
  exists route,
    optimizeRoute localDistance [riderB; riderA] = Some route
    /\ RideMatchingEngine.calculateDetours localDistance [riderB; riderA] route
       = Some [0; 2]%Z
    /\ map (fun p => (pi_requestId p, pi_detourMinutes p)) (rd_passengers pooledRide)
       = [("B", 0%Z); ("A", 0%Z)]
    /\ out_error
         (runOp (ConfirmBooking "ride-1" "A" (rideDataOfRide pooledRide)) bookingDb)
       = None
    /\ map (fun p => (rp_request_id p, rp_detour_minutes p)) (ride_passengers bookedDb)
       = [("B", 0%Z); ("A", 0%Z)].
Proof.
  eexists. split; [vm_compute; reflexivity|].
  repeat split; vm_compute; reflexivity.
Qed.

End Runs.

(** ** Pricing, further *)

Section PricingExtras.

Local Open Scope Q_scope.

Local Open Scope Q_scope.

(** Property X1.  A fare is a whole number of cents: [calculateFare] returns
    either the rounded total or the minimum fare of 8.00. *)
Theorem calculateFare_whole_cents (params : PricingParams) :
  exists cents : Z, PricingEngine.calculateFare params == inject_Z cents / 100.
Proof.
  unfold PricingEngine.calculateFare, JS.Math_max.
  match goal with
  | |- exists _, Qmax ?a ?b == _ => destruct (Q.max_spec a b) as [[_ E]|[_ E]]
  end.
  - eexists. rewrite E. reflexivity.
  - exists 800%Z. rewrite E. reflexivity.
Qed.

Lemma getPoolingDiscount_mono t1 t2 :
  (1 <= t1 <= t2)%Z ->
  PricingEngine.getPoolingDiscount t1 <= PricingEngine.getPoolingDiscount t2.
Proof.
  intros H. unfold PricingEngine.getPoolingDiscount.
  destruct t1 as [|p1|p1]; try lia.
  destruct t2 as [|p2|p2]; try lia.
  assert (C1 : p1 = 1%positive \/ p1 = 2%positive \/ p1 = 3%positive \/ (4 <= p1)%positive) by lia.
  assert (C2 : p2 = 1%positive \/ p2 = 2%positive \/ p2 = 3%positive \/ (4 <= p2)%positive) by lia.
  assert (D : forall p, (4 <= p)%positive ->
     match p with
     | 1%positive => 0 | 2%positive => 0.20 | 3%positive => 0.30 | 4%positive => 0.40
     | _ => 0.40 end = 0.40).
  { intros p Hp. destruct p as [[q|q|]|[q|q|]|]; try reflexivity; try lia;
      destruct q; reflexivity || lia. }
  destruct C1 as [->|[->|[->|H1]]]; destruct C2 as [->|[->|[->|H2]]];
    try lia; try (rewrite (D _ H1)); try (rewrite (D _ H2)); discriminate.
Qed.

Lemma orPassengers_positive t p : (1 <= t)%Z -> PricingEngine.orPassengers (Some t) p = t.
Proof. intros H. destruct t; simpl; lia || reflexivity. Qed.

(** Property X2.  With distance, surge, hour and the booking's own passenger
    count fixed and not negative, the fare does not grow when the ride's
    total passenger count grows: a fuller cab is never dearer. *)
Theorem calculateFare_discount_monotone (params : PricingParams) (t1 t2 : Z) :
  0 <= actualDistance params -> 0 <= surgeFactor params ->
  (0 <= passengers params)%Z -> (1 <= t1 <= t2)%Z ->
  PricingEngine.calculateFare (withTotalPassengers params t2)
  <= PricingEngine.calculateFare (withTotalPassengers params t1).
Proof.
  intros Hd Hs Hp Ht.
  assert (Hp' : 0 <= inject_Z (passengers params))
    by (change 0 with (inject_Z 0); rewrite <- Zle_Qle; exact Hp).
  pose proof (timeMultiplier_pos (timeOfDay params)) as Htm.
  pose proof (getPoolingDiscount_mono t1 t2 Ht) as Hdisc.
  unfold PricingEngine.calculateFare, JS.Math_max.
  cbn [actualDistance surgeFactor passengers timeOfDay totalPassengersInRide
       withTotalPassengers].
  rewrite !orPassengers_positive by lia.
  apply Q.max_le_compat_l, round2_mono.
  apply Qmult_le_compat_r; [|exact Hp'].
  rewrite !(Qmult_comm _ (1 - _)).
  apply Qmult_le_compat_r; [lra|].
  apply Qmult_le_0_compat; [|lra].
  apply Qmult_le_0_compat; [|exact Hs].
  unfold PricingEngine.BASE_FARE, PricingEngine.RATE_PER_KM. lra.
Qed.

(** *** Surge *)
Lemma surge_formula a c :
  0 < c -> 0 <= a ->
  let r := Qmin (a / c) 2 in
  PricingEngine.calculateSurgeFactor a c == Qmin 3 (1 + r * r) /\ 0 <= r <= 2.
Proof.
  intros Hc Ha r.
  assert (Hr : 0 <= a / c).
  { apply Qle_shift_div_l; [exact Hc|]. lra. }
  assert (Hr0 : 0 <= r) by (apply Q.min_glb; [exact Hr|discriminate]).
  assert (Hr2 : r <= 2) by apply Q.le_min_r.
  split; [|split; assumption].
  unfold PricingEngine.calculateSurgeFactor, JS.Math_min, JS.Math_max.
  destruct (Qeq_bool c 0) eqn:E; [apply Qeq_bool_iff in E; lra|].
  fold r. simpl Qpower.
  assert (E3 : 3.0 == 3) by reflexivity. assert (E1 : 1.0 == 1) by reflexivity.
  rewrite E3, E1. rewrite (Q.max_r 1 (1 + r * r)); [reflexivity|]. nra.
Qed.

Lemma surge_mono_aux a1 a2 c :
  0 < c -> 0 <= a1 -> a1 <= a2 ->
  PricingEngine.calculateSurgeFactor a1 c <= PricingEngine.calculateSurgeFactor a2 c.
Proof.
  intros Hc H1 H12.
  destruct (surge_formula a1 c Hc H1) as [E1 [L1 U1]].
  destruct (surge_formula a2 c Hc ltac:(lra)) as [E2 [L2 U2]].
  cbv zeta in *. rewrite E1, E2.
  assert (Hr : Qmin (a1 / c) 2 <= Qmin (a2 / c) 2).
  { apply Q.min_le_compat_r. unfold Qdiv. apply Qmult_le_compat_r; [exact H12|].
    apply Qlt_le_weak, Qinv_lt_0_compat, Hc. }
  apply Q.min_le_compat_l. nra.
Qed.

Lemma surge_cap_aux a c :
  0 < c -> 0 <= a ->
  (PricingEngine.calculateSurgeFactor a c == 3 <-> 2 * (c * c) <= a * a).
Proof.
  intros Hc Ha.
  destruct (surge_formula a c Hc Ha) as [E [L U]]. cbv zeta in *.
  rewrite E.
  set (q := a / c) in *.
  assert (Hq : a == q * c) by (unfold q; field; lra).
  assert (Hq0 : 0 <= q) by (unfold q; apply Qle_shift_div_l; [exact Hc|lra]).
  destruct (Q.min_spec q 2) as [[Hlt Em]|[Hge Em]]; rewrite Em.
  - destruct (Q.min_spec 3 (1 + q * q)) as [[Hlt' Em']|[Hge' Em']]; rewrite Em'.
    + split; [intros _|reflexivity]. rewrite Hq.
      setoid_replace (q * c * (q * c)) with ((q * q) * (c * c)) by ring.
      assert (0 < c * c) by nra. nra.
    + split.
      * intros H3. rewrite Hq.
        assert (Eq : q * q == 2) by lra.
        setoid_replace (q * c * (q * c)) with ((q * q) * (c * c)) by ring.
        rewrite Eq. lra.
      * intros H. rewrite Hq in H.
        setoid_replace (q * c * (q * c)) with ((q * q) * (c * c)) in H by ring.
        assert (0 < c * c) by nra.
        assert (2 <= q * q) by nra. lra.
  - rewrite (Q.min_l 3 (1 + 2 * 2)) by discriminate.
    split; [intros _|reflexivity]. rewrite Hq.
    setoid_replace (q * c * (q * c)) with ((q * q) * (c * c)) by ring.
    assert (0 < c * c) by nra. assert (4 <= q * q) by nra. nra.
Qed.

(** Property X3.  With at least one cab available and no negative count,
    the surge factor does not fall when the number of active requests
    grows, and it is at its cap of 3 exactly when the square of the
    requests is at least twice the square of the cabs, that is from about
    1.41 requests for each cab on. *)
Theorem calculateSurgeFactor_monotone_cap (fewer more available : Q) :
  0 < available -> 0 <= fewer -> fewer <= more ->
  PricingEngine.calculateSurgeFactor fewer available
  <= PricingEngine.calculateSurgeFactor more available
  /\ (PricingEngine.calculateSurgeFactor more available == 3
      <-> 2 * (available * available) <= more * more).
Proof.
  intros Hc H1 H12. split; [now apply surge_mono_aux|].
  apply surge_cap_aux; [exact Hc|lra].
Qed.

(** *** Splitting a fare *)
Lemma fold_left_Qplus ds start : fold_left Qplus ds start == start + sumQ ds.
Proof.
  revert start. induction ds as [|d ds IH]; intros start; simpl.
  - ring.
  - rewrite IH. ring.
Qed.

Lemma round_cents_close x :
  Qabs (inject_Z (JS.Math_round (x * 100)) / 100 - x) <= 1 # 200.
Proof.
  unfold JS.Math_round.
  pose proof (Qfloor_le (x * 100 + (1 # 2))) as Hlo.
  pose proof (Qlt_floor (x * 100 + (1 # 2))) as Hhi.
  rewrite inject_Z_plus in Hhi. change (inject_Z 1) with 1 in Hhi.
  set (f := inject_Z (Qfloor (x * 100 + (1 # 2)))) in *.
  setoid_replace (f / 100 - x) with ((f - x * 100) * (1 # 100)) by field.
  apply Qabs_Qle_condition. split; lra.
Qed.

Lemma splitFare_sum_aux totalFare D ds :
  Qabs (sumQ (map (fun d => inject_Z (JS.Math_round (totalFare * (d / D) * 100)) / 100) ds)
        - totalFare * (sumQ ds / D))
  <= inject_Z (Z.of_nat (length ds)) * (1 # 200).
Proof.
  induction ds as [|d ds IH].
  - unfold sumQ. cbn [map fold_right length].
    assert (E : 0 - totalFare * (0 / D) == 0) by (unfold Qdiv; ring).
    rewrite E. discriminate.
  - unfold sumQ. cbn [map fold_right length].
    rewrite Nat2Z.inj_succ, <- Z.add_1_r, inject_Z_plus. change (inject_Z 1) with 1.
    pose proof (round_cents_close (totalFare * (d / D))) as Hd.
    set (s := inject_Z (JS.Math_round (totalFare * (d / D) * 100)) / 100) in *.
    set (rest := fold_right Qplus 0 (map _ ds)) in *.
    fold (sumQ ds).
    setoid_replace (s + rest - totalFare * ((d + sumQ ds) / D))
      with ((s - totalFare * (d / D)) + (rest - totalFare * (sumQ ds / D)))
      by (unfold Qdiv; ring).
    eapply Qle_trans; [apply Qabs_triangle|].
    unfold sumQ in IH. fold rest in IH. fold (sumQ ds) in IH. lra.
Qed.

(** Property X4.  The shares that [splitFare] returns add up to the total
    fare up to half a cent for each share, whenever the distances do not
    add up to zero. *)
Theorem splitFare_sum_within_rounding totalFare ds :
  ~ fold_left Qplus ds 0 == 0 ->
  Qabs (sumQ (PricingEngine.splitFare totalFare ds) - totalFare)
  <= inject_Z (Z.of_nat (length ds)) * (1 # 200).
Proof.
  intros HD. unfold PricingEngine.splitFare. cbv zeta.
  set (D := fold_left Qplus ds 0) in *.
  pose proof (splitFare_sum_aux totalFare D ds) as H.
  assert (E : totalFare * (sumQ ds / D) == totalFare).
  { assert (ED : sumQ ds == D) by (unfold D; rewrite fold_left_Qplus; ring).
    rewrite ED. field. exact HD. }
  rewrite E in H. exact H.
Qed.

End PricingExtras.

(** ** Matching, further *)

Lemma tryGroup_detail dist cfg request group m :
  RideMatchingEngine.tryGroup dist cfg request group = Some (Some m) ->
  exists route detours,
    optimizeRoute dist (group ++ [request]) = Some route
    /\ RideMatchingEngine.calculateDetours dist (group ++ [request]) route = Some detours
    /\ RideMatchingEngine.validateDetours dist cfg (group ++ [request]) detours = true
    /\ mr_detourTime m = JS.Math_max_list detours
    /\ mr_score m = RideMatchingEngine.calculateMatchScore dist cfg (group ++ [request]) route detours
    /\ mr_savings m = RideMatchingEngine.calculateSavings dist (group ++ [request]) route.
Proof.
  unfold RideMatchingEngine.tryGroup.
  destruct (RideMatchingEngine.canAddToGroup cfg request group); simpl; [|discriminate].
  destruct (RideMatchingEngine.checkConstraints cfg (group ++ [request])); simpl;
    [|discriminate].
  destruct (optimizeRoute dist (group ++ [request])) as [route|] eqn:Er; [|discriminate].
  destruct (RideMatchingEngine.calculateDetours dist (group ++ [request]) route)
    as [detours|] eqn:Ed; [|discriminate].
  destruct (RideMatchingEngine.validateDetours dist cfg (group ++ [request]) detours)
    eqn:Ev; simpl; [|discriminate].
  intros H. injection H as <-. exists route, detours.
  repeat split; solve [reflexivity | assumption].
Qed.

Lemma createRequestGroups_sizes cfg requests group :
  In group (RideMatchingEngine.createRequestGroups cfg requests) ->
  (1 <= length group <= 3)%nat.
Proof.
  unfold RideMatchingEngine.createRequestGroups. intros Hg.
  repeat (apply in_app_or in Hg; destruct Hg as [Hg|Hg]).
  - apply in_map_iff in Hg. destruct Hg as [req [<- _]]. simpl. lia.
  - apply in_flat_map in Hg. destruct Hg as [i [_ Hg]].
    apply in_flat_map in Hg. destruct Hg as [j [_ Hg]].
    destruct (nth_error requests i) as [ri|]; [|destruct Hg].
    destruct (nth_error requests j) as [rj|]; [|destruct Hg].
    destruct (RideMatchingEngine.checkConstraints cfg [ri; rj]); [|destruct Hg].
    destruct Hg as [<-|[]]. simpl. lia.
  - apply in_flat_map in Hg. destruct Hg as [i [_ Hg]].
    apply in_flat_map in Hg. destruct Hg as [j [_ Hg]].
    apply in_flat_map in Hg. destruct Hg as [k [_ Hg]].
    destruct (nth_error requests i) as [ri|]; [|destruct Hg].
    destruct (nth_error requests j) as [rj|]; [|destruct Hg].
    destruct (nth_error requests k) as [rk|]; [|destruct Hg].
    destruct (RideMatchingEngine.checkConstraints cfg [ri; rj; rk]); [|destruct Hg].
    destruct Hg as [<-|[]]. simpl. lia.
Qed.

Lemma matchGroups_appends dist cfg request : forall groups acc all,
  RideMatchingEngine.matchGroups dist cfg request groups acc = Some all ->
  exists pooled,
    all = acc ++ pooled
    /\ forall m, In m pooled ->
         exists group, In group groups
           /\ RideMatchingEngine.tryGroup dist cfg request group = Some (Some m).
Proof.
  induction groups as [|group groups IH]; intros acc all; simpl.
  - intros H. injection H as <-. exists []. split; [now rewrite app_nil_r|intros ? []].
  - destruct (RideMatchingEngine.tryGroup dist cfg request group) as [[pushed|]|] eqn:E;
      [| |discriminate]; intros H; destruct (IH _ _ H) as [pooled [-> Hp]].
    + exists (pushed :: pooled). split; [now rewrite <- app_assoc|].
      intros m [<-|Hm]; [eauto|]. destruct (Hp _ Hm) as [g [Hg Ht]]. eauto.
    + exists pooled. split; [reflexivity|].
      intros m Hm. destruct (Hp _ Hm) as [g [Hg Ht]]. eauto.
Qed.

Lemma candidates_shape dist cfg request activeRequests :
  exists pooled,
    candidates dist cfg request activeRequests = Some (soloOption dist request :: pooled)
    /\ forall m, In m pooled ->
         exists group,
           In group (RideMatchingEngine.createRequestGroups cfg
                       (RideMatchingEngine.filterNearbyRequests dist cfg request
                          activeRequests))
           /\ RideMatchingEngine.tryGroup dist cfg request group = Some (Some m).
Proof.
  unfold candidates.
  pose proof (matchGroups_defined dist cfg request
                (RideMatchingEngine.createRequestGroups cfg
                   (RideMatchingEngine.filterNearbyRequests dist cfg request activeRequests))
                [soloOption dist request]) as Hdef.
  destruct (RideMatchingEngine.matchGroups dist cfg request _ _) as [all|] eqn:E;
    [|congruence].
  destruct (matchGroups_appends _ _ _ _ _ _ E) as [pooled [-> Hp]].
  exists pooled. split; [reflexivity|exact Hp].
Qed.

Lemma findMatches_candidates dist cfg request activeRequests :
  RideMatchingEngine.findMatches dist cfg request activeRequests
  = match candidates dist cfg request activeRequests with
    | None => None
    | Some all => Some (JS.slice0 5 (RideMatchingEngine.sortByScore all))
    end.
Proof. reflexivity. Qed.

(** *** Sorting *)
Lemma insertByScore_length m sorted :
  length (RideMatchingEngine.insertByScore m sorted) = S (length sorted).
Proof.
  induction sorted as [|x sorted IH]; simpl; [reflexivity|].
  destruct (JS.ltb (mr_score m) (mr_score x)); simpl; [now rewrite IH|reflexivity].
Qed.

Lemma sortByScore_length matches :
  length (RideMatchingEngine.sortByScore matches) = length matches.
Proof.
  induction matches as [|x matches IH]; simpl; [reflexivity|].
  now rewrite insertByScore_length, IH.
Qed.



Lemma insertByScore_sorted m sorted :
  StronglySorted byScoreDesc sorted ->
  StronglySorted byScoreDesc (RideMatchingEngine.insertByScore m sorted).
Proof.
  induction 1 as [|x sorted Hs IH Hx]; simpl.
  - repeat constructor.
  - destruct (JS.ltb (mr_score m) (mr_score x)) eqn:E.
    + apply ltb_lt in E. constructor; [exact IH|].
      apply Forall_forall. intros y Hy. apply insertByScore_In in Hy.
      destruct Hy as [->|Hy].
      * unfold byScoreDesc. lra.
      * rewrite Forall_forall in Hx. auto.
    + apply ltb_ge in E. constructor; [constructor; assumption|].
      constructor; [exact E|].
      rewrite Forall_forall in *. intros y Hy. specialize (Hx y Hy).
      unfold byScoreDesc in *. lra.
Qed.

Lemma sortByScore_sorted matches :
  StronglySorted byScoreDesc (RideMatchingEngine.sortByScore matches).
Proof.
  induction matches as [|x matches IH]; simpl; [constructor|].
  now apply insertByScore_sorted.
Qed.

Lemma firstn_sorted {A} (R : A -> A -> Prop) n : forall l,
  StronglySorted R l -> StronglySorted R (firstn n l).
Proof.
  induction n as [|n IH]; intros l Hl; simpl; [constructor|].
  destruct Hl as [|x l Hl Hx]; [constructor|].
  constructor; [now apply IH|].
  rewrite Forall_forall in *. intros y Hy. apply Hx.
  revert Hy. apply (slice0_In n l y).
Qed.

Lemma engine_findMatches_sorted dist cfg request activeRequests matches :
  RideMatchingEngine.findMatches dist cfg request activeRequests = Some matches ->
  StronglySorted byScoreDesc matches /\ (1 <= length matches <= 5)%nat.
Proof.
  rewrite findMatches_candidates.
  destruct (candidates_shape dist cfg request activeRequests) as [pooled [-> _]].
  intros H.
  assert (E : matches = JS.slice0 5 (RideMatchingEngine.sortByScore
                                       (soloOption dist request :: pooled)))
    by congruence.
  rewrite E. clear H E. split.
  - apply firstn_sorted, sortByScore_sorted.
  - unfold JS.slice0. rewrite length_firstn, sortByScore_length. cbn [length]. lia.
Qed.

(** *** What pricing leaves alone *)
Lemma priceLegs_Forall2 hopKm surge hour route total : forall legs priced,
  RideService.priceLegs hopKm surge hour route total legs = Some priced ->
  Forall2 (fun leg0 leg => exists fare, leg = RideService.setFare leg0 fare) legs priced.
Proof.
  induction legs as [|leg legs IH]; intros priced; simpl.
  - intros H. injection H as <-. constructor.
  - unfold RideService.priceLeg at 1.
    destruct (RideService.calculatePassengerDistance hopKm leg route); [|discriminate].
    destruct (RideService.priceLegs hopKm surge hour route total legs) as [ps|];
      [|discriminate].
    intros H. injection H as <-. constructor; [eauto|]. now apply IH.
Qed.


Lemma priceMatch_shape hopKm surge hour m0 m :
  RideService.priceMatch hopKm surge hour m0 = Some m ->
  mr_score m = mr_score m0 /\ mr_savings m = mr_savings m0
  /\ mr_detourTime m = mr_detourTime m0
  /\ rd_route (mr_ride m) = rd_route (mr_ride m0)
  /\ rd_totalDistance (mr_ride m) = rd_totalDistance (mr_ride m0)
  /\ rd_estimatedDuration (mr_ride m) = rd_estimatedDuration (mr_ride m0)
  /\ Forall2 (fun leg0 leg => exists fare, leg = RideService.setFare leg0 fare)
             (rd_passengers (mr_ride m0)) (rd_passengers (mr_ride m)).
Proof.
  unfold RideService.priceMatch.
  destruct (RideService.priceLegs hopKm surge hour (rd_route (mr_ride m0))
              (RideService.ridePassengerCount (rd_passengers (mr_ride m0)))
              (rd_passengers (mr_ride m0))) as [legs|] eqn:E; [|discriminate].
  intros H. injection H as <-. cbn. repeat split; try reflexivity.
  exact (priceLegs_Forall2 _ _ _ _ _ _ _ E).
Qed.

Lemma Forall2_In_right {A B} (R : A -> B -> Prop) l l' y :
  Forall2 R l l' -> In y l' -> exists x, In x l /\ R x y.
Proof.
  induction 1 as [|x0 y0 l l' H0 _ IH]; [intros []|].
  intros [<-|Hy]; [exists x0; simpl; auto|].
  destruct (IH Hy) as [x [Hx Hr]]. exists x. simpl. auto.
Qed.









(** *** Members of a match *)
Lemma findMatches_cases dist cfg request activeRequests matches m :
  RideMatchingEngine.findMatches dist cfg request activeRequests = Some matches ->
  In m matches ->
  m = soloOption dist request
  \/ exists group,
       In group (RideMatchingEngine.createRequestGroups cfg
                   (RideMatchingEngine.filterNearbyRequests dist cfg request activeRequests))
       /\ RideMatchingEngine.tryGroup dist cfg request group = Some (Some m).
Proof.
  rewrite findMatches_candidates.
  destruct (candidates_shape dist cfg request activeRequests) as [pooled [-> Hp]].
  intros H Hin.
  assert (E : matches = JS.slice0 5 (RideMatchingEngine.sortByScore
                                       (soloOption dist request :: pooled)))
    by congruence.
  rewrite E in Hin. clear H E.
  apply slice0_In in Hin. apply (proj1 (sortByScore_In _ _)) in Hin.
  destruct Hin as [<-|Hin]; [now left|right; auto].
Qed.

Lemma nearby_member dist cfg request activeRequests r :
  In r (RideMatchingEngine.filterNearbyRequests dist cfg request activeRequests) ->
  In r activeRequests /\ rq_id r <> rq_id request
  /\ (dist (rq_pickup request) (rq_pickup r) <= SEARCH_RADIUS_KM cfg)%Q.
Proof.
  unfold RideMatchingEngine.filterNearbyRequests. intros H.
  apply filter_In in H. destruct H as [Hin Hp]. split; [exact Hin|].
  destruct (String.eqb_spec (rq_id r) (rq_id request)) as [|Hne]; [discriminate|].
  split; [exact Hne|]. now apply Qle_bool_iff.
Qed.

Lemma findMatches_members_aux dist cfg request activeRequests matches m :
  RideMatchingEngine.findMatches dist cfg request activeRequests = Some matches ->
  In m matches ->
  exists group route,
    mr_ride m = RideMatchingEngine.createRide (group ++ [request]) route
    /\ optimizeRoute dist (group ++ [request]) = Some route
    /\ (length group <= 3)%nat
    /\ (group <> [] ->
        RideMatchingEngine.checkConstraints cfg (group ++ [request]) = true)
    /\ forall r, In r group ->
         In r activeRequests /\ rq_id r <> rq_id request
         /\ (dist (rq_pickup request) (rq_pickup r) <= SEARCH_RADIUS_KM cfg)%Q.
Proof.
  intros Hfind Hin.
  destruct (findMatches_cases _ _ _ _ _ _ Hfind Hin) as [->|[group [Hg Ht]]].
  - exists [], (createSimpleRoute dist request).
    split; [reflexivity|]. split; [reflexivity|]. split; [simpl; lia|].
    split; [congruence|intros r []].
  - destruct (tryGroup_pushed _ _ _ _ _ Ht) as [Hcheck [route [Hroute Hride]]].
    exists group, route. split; [exact Hride|]. split; [exact Hroute|].
    split; [apply createRequestGroups_sizes in Hg; lia|]. split; [auto|].
    intros r Hr. apply (nearby_member dist cfg request activeRequests r).
    exact (createRequestGroups_members cfg _ _ _ Hg Hr).
Qed.

(** Property X11.  The ride of every match is built from the target, as its
    last leg, and at most three other requests; each of these is an active
    request with another id than the target whose pickup is within the
    search radius of the target's, and together with the target they pass
    the constraint check. *)
Theorem findMatches_members (dist : Location -> Location -> Q) (cfg : MatchingConfig)
  (request : RideRequest) (activeRequests : list RideRequest)
  (matches : list MatchResult) (m : MatchResult) :
  RideMatchingEngine.findMatches dist cfg request activeRequests = Some matches ->
  In m matches ->
  exists group route,
    mr_ride m = RideMatchingEngine.createRide (group ++ [request]) route
    /\ optimizeRoute dist (group ++ [request]) = Some route
    /\ (length group <= 3)%nat
    /\ (group <> [] ->
        RideMatchingEngine.checkConstraints cfg (group ++ [request]) = true)
    /\ forall r, In r group ->
         In r activeRequests /\ rq_id r <> rq_id request
         /\ (dist (rq_pickup request) (rq_pickup r) <= SEARCH_RADIUS_KM cfg)%Q.
Proof. exact (findMatches_members_aux dist cfg request activeRequests matches m). Qed.

(** *** Detours *)
Lemma fold_left_max_spec : forall l x,
  In (fold_left Z.max l x) (x :: l)
  /\ Forall (fun d => (d <= fold_left Z.max l x)%Z) (x :: l).
Proof.
  induction l as [|y l IH]; intros x; simpl.
  - split; [now left|]. constructor; [lia|constructor].
  - destruct (IH (Z.max x y)) as [Hin Hall]. split.
    + destruct Hin as [E|Hin]; [|auto].
      destruct (Z.max_spec x y) as [[_ E']|[_ E']]; rewrite E' in *; auto.
    + inversion Hall as [|? ? H1 H2]; subst.
      constructor; [lia|]. constructor; [lia|exact H2].
Qed.

Lemma validateDetours_Forall2 dist cfg route : forall group detours,
  RideMatchingEngine.calculateDetours dist group route = Some detours ->
  RideMatchingEngine.validateDetours dist cfg group detours = true ->
  Forall2 (fun r d =>
             RideMatchingEngine.detourOf dist route r = Some d
             /\ (inject_Z d
                 <= Qmax (inject_Z (estimateTravelTime
                                      (dist (rq_pickup r) (rq_dropoff r)))
                          * inject_Z (MAX_DETOUR_PCT cfg) / 100)
                         (rq_maxDetourMinutes r))%Q)
          group detours.
Proof.
  induction group as [|r group IH]; intros detours; simpl.
  - intros H _. injection H as <-. constructor.
  - destruct (RideMatchingEngine.detourOf dist route r) as [d|] eqn:Ed; [|discriminate].
    destruct (RideMatchingEngine.calculateDetours dist group route) as [ds|];
      [|discriminate].
    intros H. injection H as <-. intros Hv.
    apply andb_prop in Hv. destruct Hv as [Hd Hrest].
    constructor; [|now apply IH].
    split; [exact Ed|]. now apply Qle_bool_iff.
Qed.

(** Property X12.  In every match other than the solo option the detour of
    each member is at most the larger of [MAX_DETOUR_PCT] percent of its
    direct travel time and its own [maxDetourMinutes], and [detourTime] is
    the largest of the members' detours. *)
Theorem pooled_detours_within_tolerance dist cfg request activeRequests matches m :
  RideMatchingEngine.findMatches dist cfg request activeRequests = Some matches ->
  In m matches ->
  m = soloOption dist request
  \/ exists group route detours,
       mr_ride m = RideMatchingEngine.createRide (group ++ [request]) route
       /\ Forall2 (fun r d =>
                     RideMatchingEngine.detourOf dist route r = Some d
                     /\ (inject_Z d
                         <= Qmax (inject_Z (estimateTravelTime
                                              (dist (rq_pickup r) (rq_dropoff r)))
                                  * inject_Z (MAX_DETOUR_PCT cfg) / 100)
                                 (rq_maxDetourMinutes r))%Q)
                  (group ++ [request]) detours
       /\ In (mr_detourTime m) detours
       /\ Forall (fun d => (d <= mr_detourTime m)%Z) detours.
Proof.
  intros Hfind Hin.
  destruct (findMatches_cases _ _ _ _ _ _ Hfind Hin) as [->|[group [Hg Ht]]];
    [now left|right].
  destruct (tryGroup_pushed _ _ _ _ _ Ht) as [_ [route [Hroute Hride]]].
  destruct (tryGroup_detail _ _ _ _ _ Ht)
    as [route' [detours [Hroute' [Hd [Hv [Hmax _]]]]]].
  assert (route' = route) by congruence. subst route'.
  exists group, route, detours. split; [exact Hride|].
  pose proof (validateDetours_Forall2 _ _ _ _ _ Hd Hv) as HF.
  split; [exact HF|]. rewrite Hmax.
  destruct detours as [|d ds].
  - apply Forall2_length in HF. rewrite length_app in HF. simpl in HF. lia.
  - exact (fold_left_max_spec ds d).
Qed.

(** Property X10.  When every active request is the target itself or has its
    pickup beyond the search radius, the only match is the solo option: a
    request is never pooled with itself. *)
Theorem findMatches_alone dist cfg request activeRequests :
  (forall r, In r activeRequests ->
     rq_id r = rq_id request
     \/ (SEARCH_RADIUS_KM cfg < dist (rq_pickup request) (rq_pickup r))%Q) ->
  RideMatchingEngine.findMatches dist cfg request activeRequests
  = Some [soloOption dist request].
Proof.
  intros Hfar.
  assert (Hnone : RideMatchingEngine.filterNearbyRequests dist cfg request activeRequests
                  = []).
  { unfold RideMatchingEngine.filterNearbyRequests.
    induction activeRequests as [|r rest IH]; [reflexivity|].
    cbn [filter].
    destruct (Hfar r (or_introl eq_refl)) as [E|E].
    - rewrite E, String.eqb_refl. apply IH. intros x Hx. apply Hfar. now right.
    - destruct (String.eqb (rq_id r) (rq_id request)).
      + apply IH. intros x Hx. apply Hfar. now right.
      + replace (JS.leb _ _) with false.
        * apply IH. intros x Hx. apply Hfar. now right.
        * symmetry. unfold JS.leb. destruct (Qle_bool _ _) eqn:Eb; [|reflexivity].
          apply Qle_bool_iff in Eb. apply Qlt_not_le in E. contradiction. }
  unfold RideMatchingEngine.findMatches. rewrite Hnone. reflexivity.
Qed.

(** ** Routes and the distances along them *)

Lemma routeDistanceLoop_acc dist route : forall total,
  (routeDistanceLoop dist total route == total + routeDistanceLoop dist 0 route)%Q.
Proof.
  induction route as [|a route IH]; intros total; [simpl; ring|].
  destruct route as [|b route]; [simpl; ring|].
  change (routeDistanceLoop dist total (a :: b :: route))
    with (routeDistanceLoop dist (total + dist a b) (b :: route)).
  change (routeDistanceLoop dist 0 (a :: b :: route))
    with (routeDistanceLoop dist (0 + dist a b) (b :: route)).
  rewrite (IH (total + dist a b)%Q), (IH (0 + dist a b)%Q). ring.
Qed.

Lemma calculateRouteDistance_cons dist a b route :
  (calculateRouteDistance dist (a :: b :: route)
   == dist a b + calculateRouteDistance dist (b :: route))%Q.
Proof.
  unfold calculateRouteDistance.
  change (routeDistanceLoop dist 0 (a :: b :: route))
    with (routeDistanceLoop dist (0 + dist a b) (b :: route)).
  rewrite routeDistanceLoop_acc. ring.
Qed.

(** Property X5.  The length of a route is the length up to any of its
    points plus the length from that point on. *)
Theorem calculateRouteDistance_split dist p after : forall before,
  (calculateRouteDistance dist (before ++ p :: after)
   == calculateRouteDistance dist (before ++ [p])
      + calculateRouteDistance dist (p :: after))%Q.
Proof.
  induction before as [|a before IH].
  - simpl app. unfold calculateRouteDistance at 2. simpl. ring.
  - destruct before as [|b before].
    + simpl app. rewrite !calculateRouteDistance_cons.
      unfold calculateRouteDistance at 2. simpl. ring.
    + change ((a :: b :: before) ++ p :: after) with (a :: b :: (before ++ p :: after)).
      change ((a :: b :: before) ++ [p]) with (a :: b :: (before ++ [p])).
      rewrite !calculateRouteDistance_cons.
      change (b :: before ++ p :: after) with ((b :: before) ++ p :: after).
      change (b :: before ++ [p]) with ((b :: before) ++ [p]).
      rewrite IH. ring.
Qed.

Lemma calculateRouteDistance_nonneg dist route :
  (forall a b, 0 <= dist a b)%Q -> (0 <= calculateRouteDistance dist route)%Q.
Proof.
  intros Hd. induction route as [|a route IH]; [discriminate|].
  destruct route as [|b route]; [discriminate|].
  rewrite calculateRouteDistance_cons. specialize (Hd a b). lra.
Qed.

(** *** The stretch of a route between two positions *)
Lemma at_skipn {A} (arr : list A) i :
  (0 <= i)%Z -> JS.at_ arr i = hd_error (skipn (Z.to_nat i) arr).
Proof.
  intros Hi. unfold JS.at_. destruct (Z.ltb_spec i 0); [lia|].
  generalize (Z.to_nat i). intros n. revert arr.
  induction n as [|n IH]; intros [|x arr]; simpl; auto.
Qed.

Lemma skipn_step {A} (arr : list A) n x rest :
  skipn n arr = x :: rest -> skipn (S n) arr = rest.
Proof.
  revert arr. induction n as [|n IH]; intros [|y arr]; simpl; try discriminate.
  - congruence.
  - apply IH.
Qed.

Lemma passengerDistanceLoop_stretch hopKm route : forall n i acc,
  (0 <= i)%Z -> (i + Z.of_nat n < Z.of_nat (length route))%Z ->
  RideService.passengerDistanceLoop hopKm n i route acc
  = Some (routeDistanceLoop hopKm acc (firstn (n + 1) (skipn (Z.to_nat i) route))).
Proof.
  induction n as [|n IH]; intros i acc Hi Hn.
  - simpl. destruct (skipn (Z.to_nat i) route) as [|x [|y rest]]; reflexivity.
  - cbn [RideService.passengerDistanceLoop].
    rewrite !at_skipn by lia.
    destruct (skipn (Z.to_nat i) route) as [|a rest] eqn:Ea.
    { exfalso. apply (f_equal (@length _)) in Ea. rewrite length_skipn in Ea.
      simpl in Ea. lia. }
    replace (Z.to_nat (i + 1)) with (S (Z.to_nat i)) by lia.
    rewrite (skipn_step _ _ _ _ Ea).
    destruct rest as [|b rest'] eqn:Eb.
    { exfalso. apply (f_equal (@length _)) in Ea. rewrite length_skipn in Ea.
      simpl in Ea. lia. }
    cbn [hd_error]. rewrite IH by lia.
    replace (Z.to_nat (i + 1)) with (S (Z.to_nat i)) by lia.
    rewrite (skipn_step _ _ _ _ Ea). rewrite !Nat.add_1_r. reflexivity.
Qed.

Lemma calculatePassengerDistance_stretch hopKm passenger route :
  (0 <= pi_pickupOrder passenger < Z.of_nat (length route))%Z ->
  RideService.calculatePassengerDistance hopKm passenger route
  = Some (calculateRouteDistance hopKm
            (stretch route (pi_pickupOrder passenger)
               (Z.min (pi_dropoffOrder passenger) (Z.of_nat (length route) - 1)))).
Proof.
  intros H. unfold RideService.calculatePassengerDistance, stretch, calculateRouteDistance.
  apply passengerDistanceLoop_stretch; lia.
Qed.

(** Property X7.  For a pickup position inside the route,
    [calculatePassengerDistance] is the length, hop by hop, of the route
    from the pickup position to the dropoff position; a dropoff position
    beyond the end counts as the last point, and one before the pickup
    gives 0. *)
Theorem calculatePassengerDistance_is_stretch (hopKm : Location -> Location -> Q)
  (passenger : PassengerInfo) (route : list Location) :
  (0 <= pi_pickupOrder passenger < Z.of_nat (length route))%Z ->
  RideService.calculatePassengerDistance hopKm passenger route
  = Some (calculateRouteDistance hopKm
            (stretch route (pi_pickupOrder passenger)
               (Z.min (pi_dropoffOrder passenger) (Z.of_nat (length route) - 1)))).
Proof. exact (calculatePassengerDistance_stretch hopKm passenger route). Qed.

Lemma legDistanceLoop_stretch dist wps : forall n i acc,
  (0 <= i)%Z -> (i + Z.of_nat n < Z.of_nat (length wps))%Z ->
  RideMatchingEngine.legDistanceLoop dist n i wps acc
  = Some (routeDistanceLoop dist acc
            (map wp_location (firstn (n + 1) (skipn (Z.to_nat i) wps)))).
Proof.
  induction n as [|n IH]; intros i acc Hi Hn.
  - simpl. destruct (skipn (Z.to_nat i) wps) as [|x [|y rest]]; reflexivity.
  - cbn [RideMatchingEngine.legDistanceLoop].
    rewrite !at_skipn by lia.
    destruct (skipn (Z.to_nat i) wps) as [|a rest] eqn:Ea.
    { exfalso. apply (f_equal (@length _)) in Ea. rewrite length_skipn in Ea.
      simpl in Ea. lia. }
    replace (Z.to_nat (i + 1)) with (S (Z.to_nat i)) by lia.
    rewrite (skipn_step _ _ _ _ Ea).
    destruct rest as [|b rest'] eqn:Eb.
    { exfalso. apply (f_equal (@length _)) in Ea. rewrite length_skipn in Ea.
      simpl in Ea. lia. }
    cbn [hd_error]. rewrite IH by lia.
    replace (Z.to_nat (i + 1)) with (S (Z.to_nat i)) by lia.
    rewrite (skipn_step _ _ _ _ Ea). rewrite !Nat.add_1_r. reflexivity.
Qed.

Lemma detourOf_stretch dist route request :
  pickupBeforeDropoff (waypoints route) request ->
  RideMatchingEngine.detourOf dist route request
  = Some (estimateTravelTime
            (routeKm dist
               (stretch (waypoints route)
                  (JS.findIndex (isPickupOf (rq_id request)) (waypoints route))
                  (JS.findIndex (isDropoffOf (rq_id request)) (waypoints route))))
          - estimateTravelTime (dist (rq_pickup request) (rq_dropoff request)))%Z.
Proof.
  unfold pickupBeforeDropoff, ordered, RideMatchingEngine.detourOf. intros H.
  assert (Hd : (JS.findIndex (isDropoffOf (rq_id request)) (waypoints route)
                < Z.of_nat (length (waypoints route)))%Z)
    by (apply findIndex_bounds; lia).
  rewrite legDistanceLoop_stretch by lia. reflexivity.
Qed.

(** *** Small groups get a shortest route *)
Lemma single_valid_order request other :
  Permutation other (allWaypoints [request]) -> isValidRoute other = true ->
  other = [pickupWaypoint request; dropoffWaypoint request].
Proof.
  intros Hp Hv. simpl in Hp. apply Permutation_sym in Hp.
  apply Permutation_length_2_inv in Hp. destruct Hp as [->| ->]; [reflexivity|].
  unfold isValidRoute in Hv. simpl in Hv. discriminate.
Qed.

Lemma optimizeRoute_small_shortest dist requests :
  requests <> [] -> (length requests <= 4)%nat ->
  exists result,
    optimizeRoute dist requests = Some result
    /\ Permutation (waypoints result) (allWaypoints requests)
    /\ isValidRoute (waypoints result) = true
    /\ (totalDistance result == routeKm dist (waypoints result))%Q
    /\ estimatedDuration result = estimateTravelTime (totalDistance result)
    /\ forall other,
         Permutation other (allWaypoints requests) -> isValidRoute other = true ->
         (totalDistance result <= routeKm dist other)%Q.
Proof.
  intros Hne Hlen. destruct requests as [|r [|r2 rest]]; [congruence| |].
  - exists (createSimpleRoute dist r). split; [reflexivity|].
    cbn [createSimpleRoute waypoints totalDistance estimatedDuration].
    split; [reflexivity|]. split.
    { unfold isValidRoute. simpl. now rewrite String.eqb_refl. }
    split; [unfold routeKm, calculateRouteDistance; simpl; ring|].
    split; [reflexivity|].
    intros other Hp Hv. rewrite (single_valid_order r other Hp Hv).
    unfold routeKm, calculateRouteDistance. simpl. lra.
  - remember (r :: r2 :: rest) as requests eqn:E.
    assert (Hopt : optimizeRoute dist requests = optimizeRouteDynamic dist requests).
    { subst. cbn [optimizeRoute].
      destruct (Nat.leb_spec (length (r :: r2 :: rest)) 4); [reflexivity|lia]. }
    rewrite Hopt. clear Hopt E. unfold optimizeRouteDynamic.
    pose proof (fold_considerRoute_best dist
                  (generateValidRoutes (allWaypoints requests)) [] None eq_refl) as H.
    simpl in H.
    destruct (fold_left (considerRoute dist) _ None) as [[route km]|].
    + destruct H as [Hin [Hkm Hmin]]. eexists. split; [reflexivity|].
      cbn [waypoints totalDistance estimatedDuration].
      apply generateValidRoutes_In in Hin. destruct Hin as [Hperm [Hvalid Hwps]].
      split; [exact Hperm|]. split; [exact Hvalid|].
      split; [now rewrite Hkm|]. split; [reflexivity|].
      intros other Hp Hv. apply Hmin. apply generateValidRoutes_In. auto.
    + exfalso. pose proof (naiveRoute_generated requests Hne) as Hn.
      rewrite H in Hn. destruct Hn.
Qed.

(** Property X6.  For one to four requests [optimizeRoute] returns a route
    that visits each pickup and each dropoff of the group exactly once,
    every pickup before its dropoff; [totalDistance] is the length of that
    route and [estimatedDuration] its travel time; and no other such order
    of the waypoints is shorter. *)
Theorem optimizeRoute_small_groups_shortest (dist : Location -> Location -> Q)
  (requests : list RideRequest) :
  requests <> [] -> (length requests <= 4)%nat ->
  exists result,
    optimizeRoute dist requests = Some result
    /\ Permutation (waypoints result) (allWaypoints requests)
    /\ isValidRoute (waypoints result) = true
    /\ (totalDistance result == routeKm dist (waypoints result))%Q
    /\ estimatedDuration result = estimateTravelTime (totalDistance result)
    /\ forall other,
         Permutation other (allWaypoints requests) -> isValidRoute other = true ->
         (totalDistance result <= routeKm dist other)%Q.
Proof. exact (optimizeRoute_small_shortest dist requests). Qed.

(** *** Positions of the legs *)
Lemma service_match_origin hopKm dist cfg surge hour request activeRequests matches m :
  RideService.findMatches hopKm dist cfg surge hour request activeRequests = Some matches ->
  In m matches ->
  exists raw m0,
    RideMatchingEngine.findMatches dist cfg request activeRequests = Some raw
    /\ In m0 raw
    /\ RideService.priceMatch hopKm surge hour m0 = Some m.
Proof.
  unfold RideService.findMatches.
  destruct (RideMatchingEngine.findMatches dist cfg request activeRequests)
    as [raw|] eqn:Eraw; [|discriminate].
  intros Hp Hm. destruct (priceMatches_origin hopKm surge hour raw matches m Hp Hm)
    as [m0 [Hm0 Hprice]].
  exists raw, m0. auto.
Qed.

(** Property X14.  Every leg of every match that the service returns has its
    pickup position before its dropoff position, both inside the route,
    and the distance its fare is computed from is the length, hop by hop,
    of the route between these two positions. *)
Theorem leg_positions_on_route hopKm dist cfg surge hour request activeRequests matches m leg :
  RideService.findMatches hopKm dist cfg surge hour request activeRequests = Some matches ->
  In m matches ->
  In leg (rd_passengers (mr_ride m)) ->
  (0 <= pi_pickupOrder leg < pi_dropoffOrder leg)%Z
  /\ (pi_dropoffOrder leg < Z.of_nat (length (rd_route (mr_ride m))))%Z
  /\ RideService.calculatePassengerDistance hopKm leg (rd_route (mr_ride m))
     = Some (calculateRouteDistance hopKm
               (stretch (rd_route (mr_ride m)) (pi_pickupOrder leg) (pi_dropoffOrder leg))).
Proof.
  intros Hfind Hm Hleg.
  destruct (service_match_origin _ _ _ _ _ _ _ _ _ Hfind Hm) as [raw [m0 [Eraw [Hm0 Hprice]]]].
  destruct (priceMatch_shape _ _ _ _ _ Hprice) as [_ [_ [_ [Hroute [_ [_ Hlegs]]]]]].
  destruct (Forall2_In_right _ _ _ _ Hlegs Hleg) as [leg0 [Hleg0 [fare ->]]].
  destruct (findMatches_rides dist cfg request activeRequests raw m0 Eraw Hm0)
    as [group [route [Hne [Hopt Hride]]]].
  destruct (optimizeRoute_ordered_bounded dist group Hne) as [route' [Hopt' [Horder _]]].
  assert (route' = route) by congruence. subst route'.
  rewrite Hroute, Hride. rewrite Hride in Hleg0.
  cbn [RideMatchingEngine.createRide rd_passengers rd_route] in *.
  apply in_map_iff in Hleg0. destruct Hleg0 as [r [<- Hr]].
  cbn [RideService.setFare pi_pickupOrder pi_dropoffOrder]. rewrite length_map.
  specialize (Horder r Hr). unfold pickupBeforeDropoff, ordered in Horder.
  assert (Hd : (JS.findIndex (isDropoffOf (rq_id r)) (waypoints route)
                < Z.of_nat (length (waypoints route)))%Z)
    by (apply findIndex_bounds; lia).
  split; [exact Horder|]. split; [exact Hd|].
  rewrite calculatePassengerDistance_stretch
    by (cbn [RideService.setFare pi_pickupOrder]; rewrite length_map; lia).
  cbn [RideService.setFare pi_pickupOrder pi_dropoffOrder]. rewrite length_map.
  rewrite Z.min_l by lia. reflexivity.
Qed.

(** Property X15.  The ride of every match holds at most four requests, so
    its route is never the greedy one: it visits each pickup and dropoff
    of the group once, pickups before dropoffs, and no such order of the
    group's waypoints is shorter. *)
Theorem match_route_shortest dist cfg request activeRequests matches m :
  RideMatchingEngine.findMatches dist cfg request activeRequests = Some matches ->
  In m matches ->
  exists group route,
    mr_ride m = RideMatchingEngine.createRide (group ++ [request]) route
    /\ (length (group ++ [request]) <= 4)%nat
    /\ Permutation (waypoints route) (allWaypoints (group ++ [request]))
    /\ isValidRoute (waypoints route) = true
    /\ (rd_totalDistance (mr_ride m) == routeKm dist (waypoints route))%Q
    /\ rd_estimatedDuration (mr_ride m) = estimateTravelTime (rd_totalDistance (mr_ride m))
    /\ forall other,
         Permutation other (allWaypoints (group ++ [request])) ->
         isValidRoute other = true ->
         (rd_totalDistance (mr_ride m) <= routeKm dist other)%Q.
Proof.
  intros Hfind Hm.
  destruct (findMatches_members_aux _ _ _ _ _ _ Hfind Hm)
    as [group [route [Hride [Hopt [Hlen _]]]]].
  assert (Hlen' : (length (group ++ [request]) <= 4)%nat)
    by (rewrite length_app; simpl; lia).
  destruct (optimizeRoute_small_shortest dist (group ++ [request]))
    as [route' [Hopt' [Hperm [Hvalid [Hkm [Hdur Hmin]]]]]];
    [destruct group; discriminate|exact Hlen'|].
  assert (route' = route) by congruence. subst route'.
  exists group, route. rewrite Hride.
  cbn [RideMatchingEngine.createRide rd_totalDistance rd_estimatedDuration].
  repeat split; auto.
Qed.

(** *** Detours are not negative *)
Lemma estimateTravelTime_mono x y :
  (x <= y)%Q -> (estimateTravelTime x <= estimateTravelTime y)%Z.
Proof.
  intros H. unfold estimateTravelTime, JS.Math_ceil. apply Qceiling_resp_le.
  apply Qmult_le_compat_r; [|discriminate].
  unfold Qdiv. apply Qmult_le_compat_r; [exact H|discriminate].
Qed.

Section Metric.

Variable dist : Location -> Location -> Q.

Hypothesis triangle : forall a b c, (dist a c <= dist a b + dist b c)%Q.

Lemma path_bound : forall l a,
  l <> [] -> (dist a (last l a) <= calculateRouteDistance dist (a :: l))%Q.
Proof.
  induction l as [|b l IH]; intros a Hne; [congruence|].
  rewrite calculateRouteDistance_cons.
  destruct l as [|c l].
  - unfold calculateRouteDistance. cbn [last routeDistanceLoop]. lra.
  - assert (Hne' : c :: l <> []) by discriminate.
    specialize (IH b Hne').
    change (last (b :: c :: l) a) with (last (c :: l) a).
    replace (last (c :: l) a) with (last (c :: l) b)
      by (clear; revert c; induction l as [|x l IHl]; intros c; [reflexivity|apply IHl]).
    eapply Qle_trans; [apply (triangle a b)|]. apply Qplus_le_r. exact IH.
Qed.

End Metric.

Lemma findIndexFrom_at {A} (p : A -> bool) : forall arr k,
  (0 <= k)%Z -> (k <= JS.findIndexFrom p k arr)%Z ->
  exists w, nth_error arr (Z.to_nat (JS.findIndexFrom p k arr - k)) = Some w
            /\ p w = true.
Proof.
  induction arr as [|x arr IH]; intros k Hk; simpl; [lia|].
  destruct (p x) eqn:E.
  - intros _. rewrite Z.sub_diag. exists x. auto.
  - intros H.
    destruct (findIndexFrom_range p arr (k + 1)) as [Hr|Hr]; [lia|].
    destruct (IH (k + 1)%Z) as [w [Hw Hp]]; [lia|lia|].
    exists w. split; [|exact Hp].
    replace (Z.to_nat (JS.findIndexFrom p (k + 1) arr - k))
      with (S (Z.to_nat (JS.findIndexFrom p (k + 1) arr - (k + 1)))) by lia.
    exact Hw.
Qed.

Lemma findIndex_at {A} (p : A -> bool) arr :
  (0 <= JS.findIndex p arr)%Z ->
  exists w, nth_error arr (Z.to_nat (JS.findIndex p arr)) = Some w /\ p w = true.
Proof.
  unfold JS.findIndex. intros H. destruct (findIndexFrom_at p arr 0 (Z.le_refl 0) H) as [w [Hw Hp]].
  rewrite Z.sub_0_r in Hw. eauto.
Qed.

Lemma stretch_ends {A} (arr : list A) i j x y :
  (0 <= i < j)%Z ->
  nth_error arr (Z.to_nat i) = Some x ->
  nth_error arr (Z.to_nat j) = Some y ->
  exists l, stretch arr i j = x :: l /\ l <> [] /\ last l x = y.
Proof.
  unfold stretch. intros Hij Hx Hy.
  replace (Z.to_nat j) with (Z.to_nat i + Z.to_nat (j - i))%nat in Hy by lia.
  rewrite <- nth_error_skipn in Hy.
  rewrite <- (Nat.add_0_r (Z.to_nat i)) in Hx. rewrite <- nth_error_skipn in Hx.
  destruct (skipn (Z.to_nat i) arr) as [|x0 rest]; [discriminate|].
  injection Hx as ->.
  assert (Hn : exists n, Z.to_nat (j - i) = S n) by (exists (Z.to_nat (j - i) - 1)%nat; lia).
  destruct Hn as [n Hn]. rewrite Hn in *. cbn [nth_error] in Hy.
  rewrite Nat.add_1_r. cbn [firstn]. exists (firstn (S n) rest).
  split; [reflexivity|].
  clear Hn Hij. revert rest Hy. induction n as [|n IH]; intros rest Hy.
  - destruct rest as [|z rest]; [discriminate|]. injection Hy as ->.
    split; [discriminate|reflexivity].
  - destruct rest as [|z rest]; [discriminate|]. cbn [nth_error] in Hy.
    destruct (IH rest Hy) as [Hne Hlast]. split; [discriminate|].
    change (firstn (S (S n)) (z :: rest)) with (z :: firstn (S n) rest).
    destruct (firstn (S n) rest) as [|u l] eqn:Ef; [congruence|].
    change (last (z :: u :: l) x) with (last (u :: l) x). exact Hlast.
Qed.

Lemma NoDup_ids_unique {A B} (f : A -> B) (l : list A) a b :
  NoDup (map f l) -> In a l -> In b l -> f a = f b -> a = b.
Proof.
  induction l as [|x l IH]; simpl; intros Hnd Ha Hb E; [destruct Ha|].
  inversion Hnd as [|? ? Hnotin Hrest]; subst.
  destruct Ha as [->|Ha], Hb as [->|Hb]; auto.
  - exfalso. apply Hnotin. rewrite E. now apply in_map.
  - exfalso. apply Hnotin. rewrite <- E. now apply in_map.
Qed.

Lemma waypoint_of_member group r w :
  NoDup (map rq_id group) -> In r group -> In w (allWaypoints group) ->
  (isPickupOf (rq_id r) w = true -> wp_location w = rq_pickup r)
  /\ (isDropoffOf (rq_id r) w = true -> wp_location w = rq_dropoff r).
Proof.
  intros Hnd Hr Hw. unfold allWaypoints in Hw. apply in_flat_map in Hw.
  destruct Hw as [r' [Hr' [<-|[<-|[]]]]]; unfold isPickupOf, isDropoffOf;
    cbn [pickupWaypoint dropoffWaypoint wp_type wp_requestId wp_location];
    split; try discriminate; intros E; apply String.eqb_eq in E;
    now rewrite (NoDup_ids_unique rq_id group r' r Hnd Hr' Hr E).
Qed.

Lemma detourOf_nonneg_aux dist group route r :
  (forall a b c, dist a c <= dist a b + dist b c)%Q ->
  NoDup (map rq_id group) -> In r group ->
  Permutation (waypoints route) (allWaypoints group) ->
  isValidRoute (waypoints route) = true ->
  exists d, RideMatchingEngine.detourOf dist route r = Some d /\ (0 <= d)%Z.
Proof.
  intros Htri Hnd Hr Hperm Hvalid.
  pose proof (valid_route_order (waypoints route) group r Hvalid Hperm Hr) as Hord.
  rewrite (detourOf_stretch dist route r Hord). eexists. split; [reflexivity|].
  unfold pickupBeforeDropoff, ordered in Hord.
  set (i := JS.findIndex (isPickupOf (rq_id r)) (waypoints route)) in *.
  set (j := JS.findIndex (isDropoffOf (rq_id r)) (waypoints route)) in *.
  destruct (findIndex_at (isPickupOf (rq_id r)) (waypoints route)) as [wi [Hwi Hpi]];
    [fold i; lia|].
  destruct (findIndex_at (isDropoffOf (rq_id r)) (waypoints route)) as [wj [Hwj Hpj]];
    [fold j; lia|].
  fold i in Hwi. fold j in Hwj.
  destruct (stretch_ends (waypoints route) i j wi wj Hord Hwi Hwj) as [l [El [Hne Hlast]]].
  assert (Hli : wp_location wi = rq_pickup r).
  { apply (waypoint_of_member group r wi Hnd Hr); [|exact Hpi].
    apply (Permutation_in _ Hperm). eapply nth_error_In, Hwi. }
  assert (Hlj : wp_location wj = rq_dropoff r).
  { apply (waypoint_of_member group r wj Hnd Hr); [|exact Hpj].
    apply (Permutation_in _ Hperm). eapply nth_error_In, Hwj. }
  apply Zle_minus_le_0, estimateTravelTime_mono.
  unfold routeKm. rewrite El. cbn [map].
  rewrite <- Hli, <- Hlj, <- Hlast.
  replace (wp_location (last l wi)) with (last (map wp_location l) (wp_location wi)).
  - apply path_bound; [exact Htri|]. destruct l; [congruence|discriminate].
  - clear. induction l as [|x l IH]; [reflexivity|].
    destruct l as [|y l]; [reflexivity|]. exact IH.
Qed.

Lemma filterNearbyRequests_distinct dist cfg request activeRequests :
  NoDup (map rq_id activeRequests) ->
  NoDup (map rq_id
           (RideMatchingEngine.filterNearbyRequests dist cfg request activeRequests)).
Proof.
  unfold RideMatchingEngine.filterNearbyRequests.
  generalize (fun r : RideRequest =>
                if String.eqb (rq_id r) (rq_id request) then false
                else JS.leb (dist (rq_pickup request) (rq_pickup r))
                            (SEARCH_RADIUS_KM cfg)) as near.
  intros near Hnd. induction activeRequests as [|r rest IH]; [constructor|].
  apply NoDup_cons_iff in Hnd. destruct Hnd as [Hfresh Hrest].
  cbn [filter]. destruct (near r); [|exact (IH Hrest)].
  cbn [map]. apply NoDup_cons; [|exact (IH Hrest)].
  intros Hin. apply Hfresh. apply in_map_iff in Hin.
  destruct Hin as [r' [Eid Hr']]. apply filter_In in Hr'.
  apply in_map_iff. exists r'. tauto.
Qed.

Lemma distinct_positions (requests : list RideRequest) i j ri rj :
  NoDup (map rq_id requests) -> (i < j)%nat ->
  nth_error requests i = Some ri -> nth_error requests j = Some rj ->
  rq_id ri <> rq_id rj.
Proof.
  intros Hnd Hij Hi Hj E.
  assert (Hlen : (i < length (map rq_id requests))%nat).
  { rewrite length_map. apply nth_error_Some. congruence. }
  assert (i = j); [|lia].
  apply (proj1 (NoDup_nth_error (map rq_id requests)) Hnd i j Hlen).
  rewrite !nth_error_map, Hi, Hj. simpl. now rewrite E.
Qed.

Lemma createRequestGroups_NoDup cfg requests group :
  NoDup (map rq_id requests) ->
  In group (RideMatchingEngine.createRequestGroups cfg requests) ->
  NoDup (map rq_id group).
Proof.
  unfold RideMatchingEngine.createRequestGroups, RideMatchingEngine.indicesFrom.
  intros Hnd Hg.
  repeat (apply in_app_or in Hg; destruct Hg as [Hg|Hg]).
  - apply in_map_iff in Hg. destruct Hg as [req [<- _]]. simpl.
    constructor; [intros []|constructor].
  - apply in_flat_map in Hg. destruct Hg as [i [_ Hg]].
    apply in_flat_map in Hg. destruct Hg as [j [Hj Hg]].
    apply in_seq in Hj.
    destruct (nth_error requests i) as [ri|] eqn:Ei; [|destruct Hg].
    destruct (nth_error requests j) as [rj|] eqn:Ej; [|destruct Hg].
    destruct (RideMatchingEngine.checkConstraints cfg [ri; rj]); [|destruct Hg].
    destruct Hg as [<-|[]]. simpl.
    pose proof (distinct_positions requests i j ri rj Hnd ltac:(lia) Ei Ej).
    constructor; [simpl; intuition|]. constructor; [intros []|constructor].
  - apply in_flat_map in Hg. destruct Hg as [i [_ Hg]].
    apply in_flat_map in Hg. destruct Hg as [j [Hj Hg]].
    apply in_flat_map in Hg. destruct Hg as [k [Hk Hg]].
    apply in_seq in Hj. apply in_seq in Hk.
    destruct (nth_error requests i) as [ri|] eqn:Ei; [|destruct Hg].
    destruct (nth_error requests j) as [rj|] eqn:Ej; [|destruct Hg].
    destruct (nth_error requests k) as [rk|] eqn:Ek; [|destruct Hg].
    destruct (RideMatchingEngine.checkConstraints cfg [ri; rj; rk]); [|destruct Hg].
    destruct Hg as [<-|[]]. simpl.
    pose proof (distinct_positions requests i j ri rj Hnd ltac:(lia) Ei Ej).
    pose proof (distinct_positions requests i k ri rk Hnd ltac:(lia) Ei Ek).
    pose proof (distinct_positions requests j k rj rk Hnd ltac:(lia) Ej Ek).
    constructor; [simpl; intuition|]. constructor; [simpl; intuition|].
    constructor; [intros []|constructor].
Qed.

(** Property X13.  When distances obey the triangle inequality and the ids
    of the active requests are distinct, no match has a negative
    [detourTime]. *)
Theorem match_detour_nonnegative dist cfg request activeRequests matches m :
  (forall a b c, dist a c <= dist a b + dist b c)%Q ->
  NoDup (map rq_id activeRequests) ->
  RideMatchingEngine.findMatches dist cfg request activeRequests = Some matches ->
  In m matches ->
  (0 <= mr_detourTime m)%Z.
Proof.
  intros Htri Hnd Hfind Hm.
  destruct (findMatches_cases _ _ _ _ _ _ Hfind Hm) as [->|[group [Hg Ht]]];
    [simpl; lia|].
  destruct (tryGroup_detail _ _ _ _ _ Ht)
    as [route [detours [Hopt [Hdet [Hv [Hmax _]]]]]].
  pose proof (validateDetours_Forall2 _ _ _ _ _ Hdet Hv) as HF.
  assert (Hin : In (mr_detourTime m) detours).
  { rewrite Hmax. destruct detours as [|d ds].
    - apply Forall2_length in HF. rewrite length_app in HF. simpl in HF. lia.
    - exact (proj1 (fold_left_max_spec ds d)). }
  destruct (Forall2_In_right _ _ _ _ HF Hin) as [r [Hr [Hd _]]].
  assert (Hnd' : NoDup (map rq_id (group ++ [request]))).
  { rewrite map_app. apply NoDup_app.
    - refine (createRequestGroups_NoDup cfg _ group _ Hg).
      now apply filterNearbyRequests_distinct.
    - repeat constructor. intros [].
    - intros a Ha [<-|[]]. apply in_map_iff in Ha. destruct Ha as [x [E Hx]].
      pose proof (createRequestGroups_members cfg _ _ _ Hg Hx) as Hnear.
      apply nearby_member in Hnear. tauto. }
  destruct (optimizeRoute_small_shortest dist (group ++ [request]))
    as [route' [Hopt' [Hperm [Hvalid _]]]].
  { destruct group; discriminate. }
  { apply createRequestGroups_sizes in Hg. rewrite length_app. simpl. lia. }
  assert (route' = route) by congruence. subst route'.
  destruct (detourOf_nonneg_aux dist (group ++ [request]) route r Htri Hnd' Hr Hperm Hvalid)
    as [d [Hd' Hpos]].
  congruence.
Qed.

(** ** The Coordinator operations, further *)

Section CoordinatorExtras.

Local Open Scope tx_scope.

Local Open Scope tx_scope.






Lemma updateRows_confirm db requestId rows :
  updateRows (requestCondHolds db) applyRequestSet
    [SetRequestStatus CONFIRMED; SetRequestVersionPlus1] [RequestIdEq requestId] rows
  = confirmRequest requestId rows.
Proof.
  unfold updateRows, confirmRequest. apply map_ext. intros r. simpl.
  now rewrite andb_true_r.
Qed.

Lemma confirmRequest_ids requestId rows :
  map rq_id (confirmRequest requestId rows) = map rq_id rows.
Proof.
  unfold confirmRequest. rewrite map_map. apply map_ext. intros r.
  destruct (String.eqb (rq_id r) requestId); reflexivity.
Qed.

Lemma confirmRequests_ids ids : forall rows,
  map rq_id (confirmRequests ids rows) = map rq_id rows.
Proof.
  induction ids as [|requestId ids IH]; intros rows; simpl; [reflexivity|].
  unfold confirmRequests in *. simpl. now rewrite IH, confirmRequest_ids.
Qed.

Lemma existsb_ids (rows rows' : list RideRequest) requestId :
  map rq_id rows = map rq_id rows' ->
  existsb (fun r => String.eqb (rq_id r) requestId) rows
  = existsb (fun r => String.eqb (rq_id r) requestId) rows'.
Proof.
  revert rows'. induction rows as [|r rows IH]; intros [|r' rows']; simpl;
    try discriminate; [reflexivity|].
  intros H. injection H as -> H. now rewrite (IH _ H).
Qed.

Lemma bookLeg_inv rideId leg c c' :
  RideService.insertPassengerAndConfirm rideId leg c = (c', inr tt) ->
  hasRide (conn_db c) rideId = true
  /\ hasRequest (conn_db c) (pi_requestId leg) = true
  /\ legFree (conn_db c) rideId (pi_requestId leg) = true
  /\ conn_db c' = bookLegs rideId [leg] (conn_db c)
  /\ conn_snapshot c' = conn_snapshot c.
Proof.
  unfold RideService.insertPassengerAndConfirm, bind, query_INSERT_ride_passenger,
    query_UPDATE, hasRide, hasRequest, legFree.
  cbn [rp_ride_id rp_request_id].
  destruct (existsb (fun r => String.eqb (ride_id r) rideId) (rides (conn_db c)));
    cbn [negb]; [|discriminate].
  destruct (existsb (fun r => String.eqb (rq_id r) (pi_requestId leg))
              (ride_requests (conn_db c))); cbn [negb]; [|discriminate].
  destruct (existsb _ (ride_passengers (conn_db c))); cbn [negb]; [discriminate|].
  intros H. injection H as <-. cbn [conn_db conn_snapshot applyUpdate].
  rewrite updateRows_confirm. repeat split; reflexivity.
Qed.


Lemma legFree_after rideId leg db requestId :
  legFree (bookLegs rideId [leg] db) rideId requestId
  = legFree db rideId requestId && negb (String.eqb (pi_requestId leg) requestId).
Proof.
  unfold legFree, bookLegs. cbn [ride_passengers map].
  rewrite existsb_app. cbn [existsb passengerRow rp_ride_id rp_request_id].
  rewrite String.eqb_refl, orb_false_r, negb_orb. reflexivity.
Qed.

Lemma hasRequest_after rideId legs db requestId :
  hasRequest (bookLegs rideId legs db) requestId = hasRequest db requestId.
Proof.
  unfold hasRequest, bookLegs. cbn [ride_requests].
  apply existsb_ids, confirmRequests_ids.
Qed.

Lemma bookLegs_cons rideId leg legs db :
  bookLegs rideId legs (bookLegs rideId [leg] db) = bookLegs rideId (leg :: legs) db.
Proof.
  unfold bookLegs. cbn [ride_requests cabs rides ride_passengers map].
  now rewrite <- app_assoc.
Qed.

Lemma bookLoop_inv rideId : forall legs c c',
  forEach legs (RideService.insertPassengerAndConfirm rideId) c = (c', inr tt) ->
  conn_db c' = bookLegs rideId legs (conn_db c)
  /\ conn_snapshot c' = conn_snapshot c
  /\ (forall leg, In leg legs ->
        hasRequest (conn_db c) (pi_requestId leg) = true
        /\ legFree (conn_db c) rideId (pi_requestId leg) = true)
  /\ NoDup (map pi_requestId legs).
Proof.
  induction legs as [|leg legs IH]; intros c c'.
  - cbn [forEach]. unfold ret. intros H. injection H as <-.
    split; [|split; [reflexivity|split; [intros ? []|constructor]]].
    unfold bookLegs. simpl. rewrite app_nil_r. now destruct (conn_db c).
  - cbn [forEach]. unfold bind at 1.
    destruct (RideService.insertPassengerAndConfirm rideId leg c) as [c1 [e|[]]] eqn:E;
      [discriminate|].
    intros H. destruct (bookLeg_inv _ _ _ _ E) as [Hride [Hreq [Hfree [Hdb Hsnap]]]].
    destruct (IH _ _ H) as [Hdb' [Hsnap' [Hlegs Hnodup]]].
    rewrite Hdb in Hdb', Hlegs. rewrite bookLegs_cons in Hdb'.
    split; [exact Hdb'|]. split; [congruence|].
    assert (Hrest : forall l, In l legs ->
              hasRequest (conn_db c) (pi_requestId l) = true
              /\ legFree (conn_db c) rideId (pi_requestId l) = true
              /\ pi_requestId leg <> pi_requestId l).
    { intros l Hl. destruct (Hlegs l Hl) as [H1 H2].
      rewrite hasRequest_after in H1. rewrite legFree_after in H2.
      apply andb_prop in H2. destruct H2 as [H2 H3].
      repeat split; auto. apply negb_true_iff, String.eqb_neq in H3. exact H3. }
    split.
    + intros l [<-|Hl]; [auto|]. destruct (Hrest l Hl) as [H1 [H2 _]]. auto.
    + cbn [map]. constructor; [|exact Hnodup].
      intros Hin. apply in_map_iff in Hin. destruct Hin as [l [El Hl]].
      destruct (Hrest l Hl) as [_ [_ Hne]]. congruence.
Qed.


Lemma updateRows_reserve cabId rows :
  updateRows cabCondHolds (fun _ => applyCabSet) [SetCabAvailable false] [CabIdEq cabId] rows
  = reserveCab cabId rows.
Proof.
  unfold updateRows, reserveCab. apply map_ext. intros cab. simpl.
  now rewrite andb_true_r.
Qed.

Lemma reserveCab_ids cabId rows : map cab_id (reserveCab cabId rows) = map cab_id rows.
Proof.
  unfold reserveCab. rewrite map_map. apply map_ext. intros cab.
  destruct (String.eqb (cab_id cab) cabId); reflexivity.
Qed.

Lemma firstAvailableCab_select db :
  firstn 1 (map cab_id (filter cab_is_available (cabs db)))
  = match firstAvailableCab db with Some cabId => [cabId] | None => [] end.
Proof.
  unfold firstAvailableCab. destruct (filter cab_is_available (cabs db)); reflexivity.
Qed.

Lemma firstAvailableCab_exists db cabId :
  firstAvailableCab db = Some cabId ->
  existsb (fun cab => String.eqb (cab_id cab) cabId) (reserveCab cabId (cabs db)) = true.
Proof.
  unfold firstAvailableCab. intros H.
  destruct (filter cab_is_available (cabs db)) as [|cab rest] eqn:E; [discriminate|].
  injection H as <-.
  assert (Hin : In cab (cabs db)).
  { apply (proj1 (filter_In cab_is_available cab (cabs db))). rewrite E. now left. }
  apply existsb_exists. unfold reserveCab.
  exists (if String.eqb (cab_id cab) (cab_id cab)
          then applyCabSet cab (SetCabAvailable false) else cab).
  split; [apply (in_map (fun c => if String.eqb (cab_id c) (cab_id cab)
                                  then applyCabSet c (SetCabAvailable false) else c)),
          Hin|].
  rewrite String.eqb_refl. simpl. apply String.eqb_refl.
Qed.

Lemma requestStatus_select db requestId :
  map (fun r => (rq_version r, rq_status r))
      (filter (fun r => String.eqb (rq_id r) requestId) (ride_requests db))
  = [] /\ requestStatus db requestId = None
  \/ exists version status rest,
       map (fun r => (rq_version r, rq_status r))
           (filter (fun r => String.eqb (rq_id r) requestId) (ride_requests db))
       = (version, status) :: rest
       /\ requestStatus db requestId = Some status.
Proof.
  unfold requestStatus.
  destruct (filter _ (ride_requests db)) as [|r rows]; [now left|right].
  simpl. eauto.
Qed.

(** What [confirmBooking] does up to the loop over the legs. *)
Lemma confirmBooking_prefix newRideId requestId rideData db :
  RideService.confirmBooking newRideId requestId rideData (connect db)
  = match requestStatus db requestId with
    | None => (connect db, inl RequestNotFound)
    | Some status =>
        if negb (RideStatus_eqb status PENDING)
        then (connect db, inl RequestAlreadyProcessed)
        else
          match firstAvailableCab db with
          | None => (connect db, inl NoAvailableCabs)
          | Some cabId =>
              tryCatch
                (query_INSERT_ride (bookedRide newRideId cabId rideData) ;;
                 forEach (data_passengers rideData)
                   (RideService.insertPassengerAndConfirm newRideId) ;;
                 query_COMMIT ;;
                 ret newRideId)
                (fun error => query_ROLLBACK ;; throw error)
                {| conn_db := {| ride_requests := ride_requests db;
                                 cabs := reserveCab cabId (cabs db);
                                 rides := rides db;
                                 ride_passengers := ride_passengers db |};
                   conn_snapshot := Some db;
                   conn_log := [UpdateCabs [SetCabAvailable false] [CabIdEq cabId]] |}
          end
    end.
Proof.
  unfold RideService.confirmBooking, tryCatch at 1, bind at 1, query_BEGIN.
  cbn [connect conn_db conn_log].
  unfold bind at 1, RideService.selectRequestForUpdate, query_SELECT at 1.
  cbn [conn_db].
  destruct (requestStatus_select db requestId)
    as [[-> ->]|[version [status [rest [-> ->]]]]].
  - reflexivity.
  - destruct (RideStatus_eqb status PENDING); cbn [negb]; [|reflexivity].
    unfold bind at 1, RideService.selectAvailableCab, query_SELECT at 1.
    cbn [conn_db]. rewrite firstAvailableCab_select.
    destruct (firstAvailableCab db) as [cabId|]; [|reflexivity].
    unfold bind at 1, query_UPDATE at 1.
    cbn [conn_db conn_snapshot conn_log applyUpdate app].
    rewrite updateRows_reserve. unfold tryCatch. reflexivity.
Qed.

Lemma confirmBooking_success newRideId requestId rideData db c' a :
  RideService.confirmBooking newRideId requestId rideData (connect db) = (c', inr a) ->
  a = newRideId
  /\ requestStatus db requestId = Some PENDING
  /\ hasRide db newRideId = false
  /\ (forall leg, In leg (data_passengers rideData) ->
        hasRequest db (pi_requestId leg) = true
        /\ legFree db newRideId (pi_requestId leg) = true)
  /\ NoDup (map pi_requestId (data_passengers rideData))
  /\ exists cabId,
       firstAvailableCab db = Some cabId
       /\ conn_db c' = bookedStore newRideId cabId rideData db.
Proof.
  rewrite confirmBooking_prefix.
  destruct (requestStatus db requestId) as [status|]; [|discriminate].
  destruct status; cbn [RideStatus_eqb negb]; try discriminate.
  destruct (firstAvailableCab db) as [cabId|] eqn:Ecab; [|discriminate].
  unfold tryCatch, bind at 1, query_INSERT_ride.
  cbn [conn_db conn_snapshot conn_log rides cabs ride_id ride_cab_id bookedRide].
  fold (hasRide db newRideId).
  destruct (hasRide db newRideId); [unfold bind, query_ROLLBACK, throw; discriminate|].
  rewrite (firstAvailableCab_exists db cabId Ecab). cbn [negb].
  unfold bind at 1.
  match goal with
  | |- context [forEach ?legs ?body ?c0] =>
      destruct (forEach legs body c0) as [c1 [e|[]]] eqn:E
  end; [unfold bind, query_ROLLBACK, throw; discriminate|].
  destruct (bookLoop_inv _ _ _ _ E) as [Hdb [Hsnap [Hlegs Hnodup]]].
  cbn [conn_db conn_snapshot] in Hdb, Hsnap, Hlegs.
  unfold bind, query_COMMIT, ret. intros H. injection H as <- <-.
  cbn [conn_db]. split; [reflexivity|]. split; [reflexivity|]. split; [reflexivity|].
  split; [exact Hlegs|]. split; [exact Hnodup|].
  exists cabId. split; [reflexivity|]. rewrite Hdb. reflexivity.
Qed.


(** *** The three ride operations, step by step *)
Lemma freeCab_update cabId route lat lng :
  RideCompletionService.finalDropoff route = (lat, lng) ->
  RideCompletionService.freeCab cabId lat lng = query_UPDATE (freeCabUpdate cabId route).
Proof.
  unfold freeCabUpdate, RideCompletionService.freeCab. intros ->.
  destruct lat as [lat|], lng as [lng|]; try reflexivity.
  destruct (RideCompletionService.truthy (Some lat)
            && RideCompletionService.truthy (Some lng)); reflexivity.
Qed.

Lemma startRide_run rideId db :
  RideCompletionService.startRide rideId (connect db)
  = match rideRow db rideId with
    | None => (connect db, inl RideNotFound)
    | Some row =>
        if negb (RideStatus_eqb (ride_status row) CONFIRMED)
        then (connect db, inl CanOnlyStartConfirmedRides)
        else ({| conn_db := startedStore rideId db;
                 conn_snapshot := None;
                 conn_log := [UpdateRides [SetRideStatus IN_PROGRESS; SetRideVersionPlus1]
                                          [RideIdEq rideId];
                              UpdateRequests [SetRequestStatus IN_PROGRESS]
                                             [RequestIdInPassengersOf rideId]] |},
              inr tt)
    end.
Proof.
  unfold RideCompletionService.startRide, tryCatch, bind, query_BEGIN,
    RideCompletionService.selectRideStatus, query_SELECT, rideRow.
  cbn [connect conn_db conn_log conn_snapshot].
  destruct (filter (fun r => String.eqb (ride_id r) rideId) (rides db)) as [|row rows];
    [reflexivity|].
  cbn [map hd_error].
  destruct (RideStatus_eqb (ride_status row) CONFIRMED); reflexivity.
Qed.

Lemma cancelRide_run rideId db :
  RideService.cancelRide rideId (connect db)
  = match rideRow db rideId with
    | None => (connect db, inl RideNotFound)
    | Some row =>
        if RideStatus_eqb (ride_status row) CANCELLED
        then (connect db, inl RideAlreadyCancelled)
        else if RideStatus_eqb (ride_status row) COMPLETED
        then (connect db, inl CannotCancelCompletedRide)
        else ({| conn_db := cancelledStore rideId (ride_cab_id row) db;
                 conn_snapshot := None;
                 conn_log := [UpdateRides [SetRideStatus CANCELLED; SetRideVersionPlus1]
                                          [RideIdEq rideId];
                              UpdateCabs [SetCabAvailable true] [CabIdEq (ride_cab_id row)];
                              UpdateRequests [SetRequestStatus PENDING]
                                             [RequestIdInPassengersOf rideId]] |},
              inr tt)
    end.
Proof.
  unfold RideService.cancelRide, tryCatch, bind, query_BEGIN,
    RideService.selectRideForUpdate, query_SELECT, rideRow.
  cbn [connect conn_db conn_log conn_snapshot].
  destruct (filter (fun r => String.eqb (ride_id r) rideId) (rides db)) as [|row rows];
    [reflexivity|].
  cbn [map hd_error].
  destruct (RideStatus_eqb (ride_status row) CANCELLED); [reflexivity|].
  destruct (RideStatus_eqb (ride_status row) COMPLETED); reflexivity.
Qed.

Lemma completeRide_run rideId db :
  RideCompletionService.completeRide rideId (connect db)
  = match rideRow db rideId with
    | None => (connect db, inl RideNotFound)
    | Some row =>
        if RideStatus_eqb (ride_status row) COMPLETED
        then (connect db, inl RideAlreadyCompleted)
        else if RideStatus_eqb (ride_status row) CANCELLED
        then (connect db, inl CannotCompleteCancelledRide)
        else ({| conn_db := completedStore rideId row db;
                 conn_snapshot := None;
                 conn_log := [UpdateRides [SetRideStatus COMPLETED; SetRideVersionPlus1]
                                          [RideIdEq rideId];
                              freeCabUpdate (ride_cab_id row) (ride_route row);
                              UpdateRequests [SetRequestStatus COMPLETED]
                                             [RequestIdInPassengersOf rideId]] |},
              inr tt)
    end.
Proof.
  unfold RideCompletionService.completeRide, tryCatch, bind at 1, query_BEGIN.
  cbn [connect conn_db conn_log conn_snapshot].
  unfold bind at 1, RideCompletionService.selectRideStatus, query_SELECT at 1, rideRow.
  cbn [conn_db].
  destruct (filter (fun r => String.eqb (ride_id r) rideId) (rides db))
    as [|row rows] eqn:Erows; [reflexivity|].
  cbn [map hd_error].
  destruct (RideStatus_eqb (ride_status row) COMPLETED); [reflexivity|].
  destruct (RideStatus_eqb (ride_status row) CANCELLED); [reflexivity|].
  unfold bind at 1, RideCompletionService.selectRoute, query_SELECT at 1.
  cbn [conn_db]. rewrite Erows. cbn [map].
  destruct (RideCompletionService.finalDropoff (ride_route row)) as [lat lng] eqn:Efd.
  rewrite (freeCab_update (ride_cab_id row) _ _ _ Efd).
  reflexivity.
Qed.

Lemma confirmRequests_closed : forall ids rows,
  NoDup ids ->
  confirmRequests ids rows
  = map (fun r => if existsb (String.eqb (rq_id r)) ids
                  then setRequest CONFIRMED 1 r else r) rows.
Proof.
  induction ids as [|requestId ids IH]; intros rows Hnodup.
  - simpl. now rewrite map_id.
  - inversion Hnodup as [|? ? Hnotin Hnodup']; subst.
    change (confirmRequests (requestId :: ids) rows)
      with (confirmRequests ids (confirmRequest requestId rows)).
    rewrite IH by exact Hnodup'. unfold confirmRequest. rewrite map_map.
    apply map_ext. intros r. cbn [existsb].
    destruct (String.eqb_spec (rq_id r) requestId) as [E|E]; cbn [orb].
    + change (rq_id (confirmedRequest r)) with (rq_id r).
      destruct (existsb (String.eqb (rq_id r)) ids) eqn:Ex; [|reflexivity].
      exfalso. apply Hnotin. apply existsb_exists in Ex.
      destruct Ex as [x [Hx Ex]]. apply String.eqb_eq in Ex. congruence.
    + reflexivity.
Qed.

Lemma onRide_booked rideId cabId rideData db r :
  hasPassengersOf db rideId = false ->
  existsb (fun p => String.eqb (rp_ride_id p) rideId
                    && String.eqb (rp_request_id p) (rq_id r))
          (ride_passengers (bookedStore rideId cabId rideData db))
  = isLeg rideData r.
Proof.
  intros Hnone. unfold bookedStore, isLeg. cbn [ride_passengers].
  rewrite existsb_app.
  replace (existsb _ (ride_passengers db)) with false.
  - cbn [orb]. induction (data_passengers rideData) as [|leg legs IH]; [reflexivity|].
    cbn [map existsb passengerRow rp_ride_id rp_request_id].
    rewrite String.eqb_refl, IH. cbn [andb]. f_equal. apply String.eqb_sym.
  - symmetry. unfold hasPassengersOf in Hnone.
    induction (ride_passengers db) as [|p ps IH]; [reflexivity|].
    cbn [existsb] in *. apply orb_false_elim in Hnone. destruct Hnone as [-> H].
    cbn [andb orb]. now apply IH.
Qed.

Lemma rideRow_fresh db rideId row :
  hasRide db rideId = false -> ride_id row = rideId ->
  filter (fun r => String.eqb (ride_id r) rideId) (rides db ++ [row]) = [row].
Proof.
  intros Hfresh Hid. rewrite filter_app. cbn [filter]. rewrite Hid, String.eqb_refl.
  replace (filter _ (rides db)) with (@nil RideRow); [reflexivity|].
  symmetry. unfold hasRide in Hfresh.
  induction (rides db) as [|r rs IH]; [reflexivity|].
  cbn [existsb filter] in *. apply orb_false_elim in Hfresh. destruct Hfresh as [-> H].
  now apply IH.
Qed.

Lemma updateRides_fresh db rideId row sets :
  hasRide db rideId = false -> ride_id row = rideId ->
  updateRows rideCondHolds applyRideSet sets [RideIdEq rideId] (rides db ++ [row])
  = rides db ++ [fold_left (applyRideSet row) sets row].
Proof.
  intros Hfresh Hid. unfold updateRows. rewrite map_app. cbn [map forallb rideCondHolds].
  rewrite Hid, String.eqb_refl. cbn [andb]. f_equal.
  unfold hasRide in Hfresh.
  induction (rides db) as [|r rs IH]; [reflexivity|].
  cbn [existsb map forallb rideCondHolds] in *.
  apply orb_false_elim in Hfresh. destruct Hfresh as [-> H]. cbn [andb].
  f_equal. now apply IH.
Qed.

Lemma freeCabUpdate_shape cabId route :
  exists more,
    freeCabUpdate cabId route = UpdateCabs (SetCabAvailable true :: more) [CabIdEq cabId]
    /\ (more = []
        \/ exists lat lng, more = [SetCabLat lat; SetCabLng lng]
                           /\ RideCompletionService.finalDropoff route = (Some lat, Some lng)
                           /\ ~ (lat == 0)%Q /\ ~ (lng == 0)%Q).
Proof.
  unfold freeCabUpdate.
  destruct (RideCompletionService.finalDropoff route) as [[lat|] [lng|]];
    try (exists []; split; [reflexivity|now left]).
  unfold RideCompletionService.truthy.
  destruct (Qeq_bool lat 0) eqn:Elat; cbn [negb andb];
    [exists []; split; [reflexivity|now left]|].
  destruct (Qeq_bool lng 0) eqn:Elng; cbn [negb];
    [exists []; split; [reflexivity|now left]|].
  exists [SetCabLat lat; SetCabLng lng]. split; [reflexivity|right].
  exists lat, lng. repeat split; try reflexivity.
  - intros H. apply Qeq_bool_iff in H. congruence.
  - intros H. apply Qeq_bool_iff in H. congruence.
Qed.

Lemma free_after_reserve cabId more rows :
  updateRows cabCondHolds (fun _ => applyCabSet) (SetCabAvailable true :: more)
    [CabIdEq cabId] (reserveCab cabId rows)
  = updateRows cabCondHolds (fun _ => applyCabSet) (SetCabAvailable true :: more)
      [CabIdEq cabId] rows.
Proof.
  unfold updateRows, reserveCab. rewrite map_map. apply map_ext. intros cab.
  cbn [forallb cabCondHolds].
  destruct (String.eqb (cab_id cab) cabId) eqn:E; cbn [andb].
  - change (cab_id (applyCabSet cab (SetCabAvailable false))) with (cab_id cab).
    rewrite E. reflexivity.
  - rewrite E. reflexivity.
Qed.

Lemma updateRequests_onRide db status rideId :
  ride_requests (applyUpdate (UpdateRequests [SetRequestStatus status]
                                             [RequestIdInPassengersOf rideId]) db)
  = map (fun r =>
           if existsb (fun p => String.eqb (rp_ride_id p) rideId
                                && String.eqb (rp_request_id p) (rq_id r))
                      (ride_passengers db)
           then applyRequestSet r r (SetRequestStatus status) else r)
        (ride_requests db).
Proof.
  cbn [applyUpdate ride_requests]. unfold updateRows. apply map_ext. intros r.
  cbn [forallb requestCondHolds]. rewrite andb_true_r. reflexivity.
Qed.

Lemma bookedStore_rideStore rideId cabId rideData db :
  NoDup (map pi_requestId (data_passengers rideData)) ->
  bookedStore rideId cabId rideData db
  = rideStore CONFIRMED CONFIRMED 0 rideId cabId rideData (reserveCab cabId (cabs db)) db.
Proof.
  intros Hnodup. unfold bookedStore, rideStore.
  rewrite (confirmRequests_closed _ _ Hnodup). reflexivity.
Qed.

Lemma rideStore_row status legStatus bump rideId cabId rideData fleet db :
  hasRide db rideId = false ->
  rideRow (rideStore status legStatus bump rideId cabId rideData fleet db) rideId
  = Some (setRide status bump (bookedRide rideId cabId rideData)).
Proof.
  intros Hfresh. unfold rideRow, rideStore. cbn [rides].
  now rewrite (rideRow_fresh db rideId (setRide status bump (bookedRide rideId cabId rideData)) Hfresh eq_refl).
Qed.

Lemma onRide_rideStore status legStatus bump rideId cabId rideData fleet db r :
  hasPassengersOf db rideId = false ->
  existsb (fun p => String.eqb (rp_ride_id p) rideId
                    && String.eqb (rp_request_id p) (rq_id r))
          (ride_passengers (rideStore status legStatus bump rideId cabId rideData fleet db))
  = isLeg rideData r.
Proof. exact (onRide_booked rideId cabId rideData db r). Qed.

(** An update of the ride row and of the requests on the ride takes the
    store from one status to the next. *)
Lemma rideStore_step status legStatus bump next legNext rideId cabId rideData fleet db :
  hasRide db rideId = false ->
  hasPassengersOf db rideId = false ->
  applyUpdate (UpdateRequests [SetRequestStatus legNext] [RequestIdInPassengersOf rideId])
    (applyUpdate (UpdateRides [SetRideStatus next; SetRideVersionPlus1] [RideIdEq rideId])
       (rideStore status legStatus bump rideId cabId rideData fleet db))
  = rideStore next legNext (bump + 1) rideId cabId rideData fleet db.
Proof.
  intros Hfresh Hnone.
  set (mid := applyUpdate (UpdateRides _ _) _).
  assert (Hp : ride_passengers mid
               = ride_passengers (rideStore status legStatus bump rideId cabId rideData
                                    fleet db))
    by reflexivity.
  assert (Hrides : rides mid
                   = rides db ++ [setRide next (bump + 1)
                                    (bookedRide rideId cabId rideData)]).
  { unfold mid. cbn [applyUpdate rides rideStore].
    rewrite (updateRides_fresh db rideId (setRide status bump (bookedRide rideId cabId rideData)) _ Hfresh eq_refl).
    f_equal. unfold setRide. cbn -[Z.add]. do 2 f_equal. lia. }
  assert (Hreq : ride_requests (applyUpdate (UpdateRequests [SetRequestStatus legNext]
                                               [RequestIdInPassengersOf rideId]) mid)
                 = map (fun r => if isLeg rideData r then setRequest legNext 1 r else r)
                       (ride_requests db)).
  { rewrite updateRequests_onRide. unfold mid at 2.
    cbn [applyUpdate ride_requests rideStore]. rewrite map_map. apply map_ext.
    intros r. rewrite Hp.
    rewrite (onRide_rideStore status legStatus bump rideId cabId rideData fleet db _ Hnone).
    unfold isLeg at 1.
    replace (rq_id (if isLeg rideData r then setRequest legStatus 1 r else r))
      with (rq_id r) by (destruct (isLeg rideData r); reflexivity).
    fold (isLeg rideData r). destruct (isLeg rideData r); reflexivity. }
  unfold rideStore. rewrite <- Hreq, <- Hrides. reflexivity.
Qed.

Lemma rideStore_step_cabs status legStatus bump next legNext rideId cabId rideData
  fleet db sets conds :
  hasRide db rideId = false ->
  hasPassengersOf db rideId = false ->
  applyUpdate (UpdateRequests [SetRequestStatus legNext] [RequestIdInPassengersOf rideId])
    (applyUpdate (UpdateCabs sets conds)
       (applyUpdate (UpdateRides [SetRideStatus next; SetRideVersionPlus1]
                                 [RideIdEq rideId])
          (rideStore status legStatus bump rideId cabId rideData fleet db)))
  = rideStore next legNext (bump + 1) rideId cabId rideData
      (updateRows cabCondHolds (fun _ => applyCabSet) sets conds fleet) db.
Proof.
  intros Hfresh Hnone.
  pose proof (rideStore_step status legStatus bump next legNext rideId cabId rideData
                fleet db Hfresh Hnone) as H.
  apply (f_equal (fun d => {| ride_requests := ride_requests d;
                              cabs := updateRows cabCondHolds (fun _ => applyCabSet)
                                        sets conds fleet;
                              rides := rides d;
                              ride_passengers := ride_passengers d |})) in H.
  exact H.
Qed.

Lemma RideStatus_eqb_neq a b : a <> b -> RideStatus_eqb a b = false.
Proof. destruct a, b; simpl; congruence. Qed.

Lemma startRide_booked status legStatus bump rideId cabId rideData fleet db :
  hasRide db rideId = false ->
  hasPassengersOf db rideId = false ->
  let before := rideStore status legStatus bump rideId cabId rideData fleet db in
  if RideStatus_eqb status CONFIRMED
  then out_error (runOp (StartRide rideId) before) = None
       /\ out_db (runOp (StartRide rideId) before)
          = rideStore IN_PROGRESS IN_PROGRESS (bump + 1) rideId cabId rideData fleet db
  else out_error (runOp (StartRide rideId) before) = Some CanOnlyStartConfirmedRides.
Proof.
  intros Hfresh Hnone. cbn zeta. unfold runOp, outcome.
  rewrite startRide_run, rideStore_row by exact Hfresh.
  cbn [ride_status setRide].
  destruct (RideStatus_eqb status CONFIRMED); cbn [negb fst snd out_error out_db conn_db].
  - split; [reflexivity|]. unfold startedStore. now apply rideStore_step.
  - reflexivity.
Qed.

Lemma cancelRide_booked status legStatus bump rideId cabId rideData fleet db :
  hasRide db rideId = false ->
  hasPassengersOf db rideId = false ->
  status <> CANCELLED -> status <> COMPLETED ->
  let before := rideStore status legStatus bump rideId cabId rideData fleet db in
  out_error (runOp (CancelRide rideId) before) = None
  /\ out_db (runOp (CancelRide rideId) before)
     = rideStore CANCELLED PENDING (bump + 1) rideId cabId rideData
         (updateRows cabCondHolds (fun _ => applyCabSet) [SetCabAvailable true]
            [CabIdEq cabId] fleet) db.
Proof.
  intros Hfresh Hnone H1 H2. cbn zeta. unfold runOp, outcome.
  rewrite cancelRide_run, rideStore_row by exact Hfresh.
  cbn [ride_status ride_cab_id setRide bookedRide].
  rewrite (RideStatus_eqb_neq _ _ H1), (RideStatus_eqb_neq _ _ H2).
  cbn [fst snd out_error out_db conn_db]. split; [reflexivity|].
  unfold cancelledStore. now apply rideStore_step_cabs.
Qed.

Lemma completeRide_booked status legStatus bump rideId cabId rideData fleet db :
  hasRide db rideId = false ->
  hasPassengersOf db rideId = false ->
  status <> CANCELLED -> status <> COMPLETED ->
  let before := rideStore status legStatus bump rideId cabId rideData fleet db in
  exists more,
    freeCabUpdate cabId (data_route rideData)
    = UpdateCabs (SetCabAvailable true :: more) [CabIdEq cabId]
    /\ out_error (runOp (CompleteRide rideId) before) = None
    /\ out_db (runOp (CompleteRide rideId) before)
       = rideStore COMPLETED COMPLETED (bump + 1) rideId cabId rideData
           (updateRows cabCondHolds (fun _ => applyCabSet) (SetCabAvailable true :: more)
              [CabIdEq cabId] fleet) db.
Proof.
  intros Hfresh Hnone H1 H2. cbn zeta.
  destruct (freeCabUpdate_shape cabId (data_route rideData)) as [more [Hshape _]].
  exists more. split; [exact Hshape|].
  unfold runOp, outcome.
  rewrite completeRide_run, rideStore_row by exact Hfresh.
  cbn [ride_status setRide].
  rewrite (RideStatus_eqb_neq _ _ H1), (RideStatus_eqb_neq _ _ H2).
  cbn [fst snd out_error out_db conn_db]. split; [reflexivity|].
  unfold completedStore. cbn [ride_cab_id ride_route setRide bookedRide].
  rewrite Hshape. now apply rideStore_step_cabs.
Qed.

Lemma confirmBooking_outcome db newRideId requestId rideData :
  out_error (runOp (ConfirmBooking newRideId requestId rideData) db) = None ->
  requestStatus db requestId = Some PENDING
  /\ hasRide db newRideId = false
  /\ (forall leg, In leg (data_passengers rideData) ->
        hasRequest db (pi_requestId leg) = true)
  /\ NoDup (map pi_requestId (data_passengers rideData))
  /\ exists cabId,
       firstAvailableCab db = Some cabId
       /\ out_db (runOp (ConfirmBooking newRideId requestId rideData) db)
          = rideStore CONFIRMED CONFIRMED 0 newRideId cabId rideData (reserveCab cabId (cabs db)) db.
Proof.
  unfold runOp, outcome. cbn [out_error out_db].
  destruct (RideService.confirmBooking newRideId requestId rideData (connect db))
    as [c' [e|a]] eqn:E; [discriminate|]. intros _.
  destruct (confirmBooking_success _ _ _ _ _ _ E)
    as [_ [Hstatus [Hfresh [Hlegs [Hnodup [cabId [Hcab Hdb]]]]]]].
  repeat (split; [first [assumption | intros leg Hleg; apply (Hlegs leg Hleg)]|]).
  exists cabId. split; [exact Hcab|]. cbn [fst]. rewrite Hdb.
  now apply bookedStore_rideStore.
Qed.

Lemma existsb_eqb_In (ids : list string) x :
  existsb (fun y => String.eqb y x) ids = true <-> In x ids.
Proof.
  rewrite existsb_exists. split.
  - intros [y [Hy E]]. apply String.eqb_eq in E. now subst.
  - intros H. exists x. split; [exact H|apply String.eqb_refl].
Qed.

Lemma hasRide_In db rideId : hasRide db rideId = true <-> In rideId (map ride_id (rides db)).
Proof.
  unfold hasRide. rewrite <- existsb_eqb_In.
  induction (rides db) as [|r rs IH]; simpl; [reflexivity|].
  destruct (String.eqb (ride_id r) rideId); simpl; [reflexivity|exact IH].
Qed.

Lemma hasRequest_In db requestId :
  hasRequest db requestId = true <-> In requestId (map rq_id (ride_requests db)).
Proof.
  unfold hasRequest. rewrite <- existsb_eqb_In.
  induction (ride_requests db) as [|r rs IH]; simpl; [reflexivity|].
  destruct (String.eqb (rq_id r) requestId); simpl; [reflexivity|exact IH].
Qed.

Lemma integrity_no_passengers db rideId :
  integrity db -> hasRide db rideId = false -> hasPassengersOf db rideId = false.
Proof.
  intros Hint Hfresh. unfold hasPassengersOf.
  destruct (existsb _ (ride_passengers db)) eqn:E; [|reflexivity].
  apply existsb_exists in E. destruct E as [p [Hp E]]. apply String.eqb_eq in E.
  pose proof (passengers_ride_fkey db Hint p Hp) as Hin.
  rewrite E in Hin. apply hasRide_In in Hin. congruence.
Qed.


Lemma updateRows_ids {Row SetC Cond Key} (key : Row -> Key) (holds : Row -> Cond -> bool)
  (apply : Row -> Row -> SetC -> Row) sets conds rows :
  (forall old row s, key (apply old row s) = key row) ->
  map key (updateRows holds apply sets conds rows) = map key rows.
Proof.
  intros Hkey. unfold updateRows. rewrite map_map. apply map_ext. intros row.
  destruct (forallb (holds row) conds); [|reflexivity].
  assert (H : forall acc, key (fold_left (apply row) sets acc) = key acc).
  { induction sets as [|s sets IH]; intros acc; simpl; [reflexivity|].
    now rewrite IH, Hkey. }
  apply H.
Qed.

Lemma applyUpdate_keys u db :
  map rq_id (ride_requests (applyUpdate u db)) = map rq_id (ride_requests db)
  /\ map cab_id (cabs (applyUpdate u db)) = map cab_id (cabs db)
  /\ map ride_id (rides (applyUpdate u db)) = map ride_id (rides db)
  /\ map (fun r => (ride_id r, ride_cab_id r)) (rides (applyUpdate u db))
     = map (fun r => (ride_id r, ride_cab_id r)) (rides db)
  /\ ride_passengers (applyUpdate u db) = ride_passengers db.
Proof.
  destruct u as [sets conds|sets conds|sets conds]; cbn [applyUpdate ride_requests cabs
    rides ride_passengers]; repeat split; try reflexivity;
    apply updateRows_ids; intros old row []; reflexivity.
Qed.

(** Integrity only looks at keys. *)
Lemma integrity_keys db db' :
  map rq_id (ride_requests db') = map rq_id (ride_requests db) ->
  map cab_id (cabs db') = map cab_id (cabs db) ->
  map (fun r => (ride_id r, ride_cab_id r)) (rides db')
  = map (fun r => (ride_id r, ride_cab_id r)) (rides db) ->
  ride_passengers db' = ride_passengers db ->
  integrity db -> integrity db'.
Proof.
  intros Hq Hc Hr Hp Hint.
  assert (Hrid : map ride_id (rides db') = map ride_id (rides db)).
  { apply (f_equal (map fst)) in Hr. now rewrite !map_map in Hr. }
  constructor.
  - rewrite Hq. apply (requests_pkey db Hint).
  - rewrite Hc. apply (cabs_pkey db Hint).
  - rewrite Hrid. apply (rides_pkey db Hint).
  - intros ride Hin. rewrite Hc.
    assert (Hpair : In (ride_id ride, ride_cab_id ride)
                       (map (fun r => (ride_id r, ride_cab_id r)) (rides db)))
      by (rewrite <- Hr; now apply (in_map (fun r => (ride_id r, ride_cab_id r)))).
    apply in_map_iff in Hpair. destruct Hpair as [ride0 [E Hin0]].
    injection E as _ <-. apply (rides_cab_fkey db Hint ride0 Hin0).
  - rewrite Hp, Hrid. apply (passengers_ride_fkey db Hint).
  - rewrite Hp, Hq. apply (passengers_request_fkey db Hint).
  - rewrite Hp. apply (passengers_unique db Hint).
Qed.

Lemma integrity_applyUpdate u db : integrity db -> integrity (applyUpdate u db).
Proof.
  destruct (applyUpdate_keys u db) as [Hq [Hc [_ [Hr Hp]]]].
  now apply integrity_keys.
Qed.

Lemma firstAvailableCab_In db cabId :
  firstAvailableCab db = Some cabId ->
  exists cab, In cab (cabs db) /\ cab_id cab = cabId /\ cab_is_available cab = true.
Proof.
  unfold firstAvailableCab. intros H.
  destruct (filter cab_is_available (cabs db)) as [|cab rest] eqn:E; [discriminate|].
  injection H as <-. exists cab.
  assert (Hin : In cab (filter cab_is_available (cabs db))) by (rewrite E; now left).
  apply filter_In in Hin. destruct Hin as [Hin Hav]. auto.
Qed.

Lemma NoDup_map_pair {A} (x : string) (f : A -> string) (l : list A) :
  NoDup (map f l) -> NoDup (map (fun a => (x, f a)) l).
Proof.
  induction l as [|a l IH]; simpl; intros H; [constructor|].
  inversion H as [|? ? Hnotin Hrest]; subst. constructor; [|now apply IH].
  intros Hin. apply in_map_iff in Hin. destruct Hin as [b [E Hb]].
  injection E as E. apply Hnotin. rewrite <- E. now apply in_map.
Qed.

Lemma integrity_bookedStore db rideId cabId rideData :
  integrity db ->
  firstAvailableCab db = Some cabId ->
  hasRide db rideId = false ->
  (forall leg, In leg (data_passengers rideData) ->
     hasRequest db (pi_requestId leg) = true) ->
  NoDup (map pi_requestId (data_passengers rideData)) ->
  integrity (bookedStore rideId cabId rideData db).
Proof.
  intros Hint Hcab Hfresh Hlegs Hnodup.
  assert (Hnew : ~ In rideId (map ride_id (rides db))).
  { intros H. apply hasRide_In in H. congruence. }
  constructor; unfold bookedStore; cbn [ride_requests cabs rides ride_passengers].
  - rewrite confirmRequests_ids. apply (requests_pkey db Hint).
  - rewrite reserveCab_ids. apply (cabs_pkey db Hint).
  - rewrite map_app. cbn [map bookedRide ride_id].
    apply NoDup_app; [apply (rides_pkey db Hint)|repeat constructor; intros []|].
    intros a Ha [<-|[]]. contradiction.
  - rewrite reserveCab_ids. intros ride Hin. apply in_app_or in Hin.
    destruct Hin as [Hin|[<-|[]]]; [apply (rides_cab_fkey db Hint ride Hin)|].
    cbn [bookedRide ride_cab_id].
    destruct (firstAvailableCab_In db cabId Hcab) as [cab [Hin [<- _]]].
    now apply in_map.
  - intros p Hin. rewrite map_app. apply in_or_app. apply in_app_or in Hin.
    destruct Hin as [Hin|Hin]; [left; apply (passengers_ride_fkey db Hint p Hin)|right].
    apply in_map_iff in Hin. destruct Hin as [leg [<- _]]. simpl. auto.
  - intros p Hin. rewrite confirmRequests_ids. apply in_app_or in Hin.
    destruct Hin as [Hin|Hin]; [apply (passengers_request_fkey db Hint p Hin)|].
    apply in_map_iff in Hin. destruct Hin as [leg [<- Hleg]].
    cbn [passengerRow rp_request_id]. apply hasRequest_In, Hlegs, Hleg.
  - rewrite map_app, map_map. cbn [passengerRow rp_ride_id rp_request_id].
    apply NoDup_app; [apply (passengers_unique db Hint)| |].
    + apply (NoDup_map_pair rideId pi_requestId). exact Hnodup.
    + intros [rid qid] Hold Hin.
      apply in_map_iff in Hin. destruct Hin as [leg [E _]]. injection E as <- _.
      apply in_map_iff in Hold. destruct Hold as [p [E Hp]]. injection E as E _.
      apply Hnew. rewrite <- E. apply (passengers_ride_fkey db Hint p Hp).
Qed.

(** Property X23.  Every Coordinator operation, failed or not, keeps the
    keys of the schema: ids stay unique, every ride has its cab, every
    passenger row its ride and its request, and no ride has two rows for
    one request. *)
Theorem operations_keep_integrity op db : integrity db -> integrity (out_db (runOp op db)).
Proof.
  intros Hint.
  destruct op as [newRideId requestId rideData|rideId|rideId|rideId|requestId];
    unfold runOp, outcome; cbn [out_db].
  - destruct (RideService.confirmBooking newRideId requestId rideData (connect db))
      as [c' [e|a]] eqn:E; cbn [fst].
    + now rewrite (confirmBooking_rolls_back _ _ _ _ _ _ E).
    + destruct (confirmBooking_success _ _ _ _ _ _ E)
        as [_ [_ [Hfresh [Hlegs [Hnodup [cabId [Hcab ->]]]]]]].
      apply integrity_bookedStore; auto. intros leg Hleg. apply (Hlegs leg Hleg).
  - rewrite cancelRide_run. destruct (rideRow db rideId) as [row|]; [|exact Hint].
    destruct (RideStatus_eqb (ride_status row) CANCELLED); [exact Hint|].
    destruct (RideStatus_eqb (ride_status row) COMPLETED); [exact Hint|].
    cbn [fst conn_db]. unfold cancelledStore. now repeat apply integrity_applyUpdate.
  - rewrite completeRide_run. destruct (rideRow db rideId) as [row|]; [|exact Hint].
    destruct (RideStatus_eqb (ride_status row) COMPLETED); [exact Hint|].
    destruct (RideStatus_eqb (ride_status row) CANCELLED); [exact Hint|].
    cbn [fst conn_db]. unfold completedStore. now repeat apply integrity_applyUpdate.
  - rewrite startRide_run. destruct (rideRow db rideId) as [row|]; [|exact Hint].
    destruct (negb (RideStatus_eqb (ride_status row) CONFIRMED)); [exact Hint|].
    cbn [fst conn_db]. unfold startedStore. now repeat apply integrity_applyUpdate.
  - unfold RideService.markNoDriverAvailable, query_UPDATE. cbn [fst conn_db connect].
    now apply integrity_applyUpdate.
Qed.

Lemma free_first_available db cabId :
  NoDup (map cab_id (cabs db)) ->
  firstAvailableCab db = Some cabId ->
  updateRows cabCondHolds (fun _ => applyCabSet) [SetCabAvailable true] [CabIdEq cabId]
    (cabs db)
  = cabs db.
Proof.
  intros Hnd Hcab. destruct (firstAvailableCab_In db cabId Hcab) as [cab0 [Hin0 [Hid0 Hav0]]].
  unfold updateRows. rewrite <- (map_id (cabs db)) at 2. apply map_ext_in.
  intros cab Hin. cbn [forallb cabCondHolds fold_left].
  destruct (String.eqb_spec (cab_id cab) cabId) as [E|E]; cbn [andb]; [|reflexivity].
  assert (cab = cab0) by (apply (NoDup_ids_unique cab_id (cabs db)); congruence).
  subst cab0. destruct cab. cbn in *. now rewrite Hav0.
Qed.

(** Property X19.  After a successful booking, [startRide] and then
    [completeRide] of the new ride succeed.  The ride row goes from
    [CONFIRMED] to [IN_PROGRESS] to [COMPLETED] with version 1, 2, 3, the
    requests of its legs follow it, and the cab is free again at the end;
    when the route was stored as an array of locations, as booking a match
    stores it, the cab rows end as they were before the booking. *)
Theorem booked_started_completed db newRideId requestId rideData :
  integrity db ->
  out_error (runOp (ConfirmBooking newRideId requestId rideData) db) = None ->
  let booked := out_db (runOp (ConfirmBooking newRideId requestId rideData) db) in
  let started := runOp (StartRide newRideId) booked in
  let completed := runOp (CompleteRide newRideId) (out_db started) in
  exists cabId more,
    firstAvailableCab db = Some cabId
    /\ freeCabUpdate cabId (data_route rideData)
       = UpdateCabs (SetCabAvailable true :: more) [CabIdEq cabId]
    /\ booked = rideStore CONFIRMED CONFIRMED 0 newRideId cabId rideData
                  (reserveCab cabId (cabs db)) db
    /\ out_error started = None
    /\ out_db started = rideStore IN_PROGRESS IN_PROGRESS 1 newRideId cabId rideData
                          (reserveCab cabId (cabs db)) db
    /\ out_error completed = None
    /\ out_db completed
       = rideStore COMPLETED COMPLETED 2 newRideId cabId rideData
           (updateRows cabCondHolds (fun _ => applyCabSet) (SetCabAvailable true :: more)
              [CabIdEq cabId] (cabs db)) db
    /\ (more = [] -> cabs (out_db completed) = cabs db).
Proof.
  intros Hint Hok. cbn zeta.
  destruct (confirmBooking_outcome _ _ _ _ Hok)
    as [_ [Hfresh [_ [_ [cabId [Hcab ->]]]]]].
  pose proof (integrity_no_passengers db newRideId Hint Hfresh) as Hnone.
  pose proof (startRide_booked CONFIRMED CONFIRMED 0 newRideId cabId rideData
                (reserveCab cabId (cabs db)) db Hfresh Hnone) as Hstart.
  cbn zeta in Hstart. cbn [RideStatus_eqb] in Hstart. destruct Hstart as [Hs1 Hs2].
  rewrite Hs2.
  destruct (completeRide_booked IN_PROGRESS IN_PROGRESS (0 + 1) newRideId cabId rideData
              (reserveCab cabId (cabs db)) db Hfresh Hnone)
    as [more [Hshape [Hc1 Hc2]]]; try discriminate.
  exists cabId, more. rewrite Hc2, free_after_reserve.
  repeat (split; [first [assumption | reflexivity]|]).
  intros ->. cbn [rideStore cabs].
  apply free_first_available; [apply (cabs_pkey db Hint)|exact Hcab].
Qed.

Lemma freeCabUpdate_locations cabId locations :
  freeCabUpdate cabId (RouteLocations locations)
  = UpdateCabs [SetCabAvailable true] [CabIdEq cabId].
Proof. reflexivity. Qed.

(** Property X20.  Cancelling a ride right after it was booked succeeds: the
    cab rows are again as before the booking, the requests of the legs are
    [PENDING] again, with the version the booking gave them, and the ride
    row and the passenger rows stay, the ride as [CANCELLED]. *)
Theorem booked_then_cancelled db newRideId requestId rideData :
  integrity db ->
  out_error (runOp (ConfirmBooking newRideId requestId rideData) db) = None ->
  let booked := out_db (runOp (ConfirmBooking newRideId requestId rideData) db) in
  let cancelled := runOp (CancelRide newRideId) booked in
  exists cabId,
    firstAvailableCab db = Some cabId
    /\ out_error cancelled = None
    /\ out_db cancelled
       = rideStore CANCELLED PENDING 1 newRideId cabId rideData (cabs db) db.
Proof.
  intros Hint Hok. cbn zeta.
  destruct (confirmBooking_outcome _ _ _ _ Hok)
    as [_ [Hfresh [_ [_ [cabId [Hcab ->]]]]]].
  pose proof (integrity_no_passengers db newRideId Hint Hfresh) as Hnone.
  destruct (cancelRide_booked CONFIRMED CONFIRMED 0 newRideId cabId rideData
              (reserveCab cabId (cabs db)) db Hfresh Hnone) as [Hc1 Hc2];
    try discriminate.
  exists cabId. split; [exact Hcab|]. split; [exact Hc1|]. rewrite Hc2.
  rewrite (free_after_reserve cabId []).
  rewrite (free_first_available db cabId (cabs_pkey db Hint) Hcab). reflexivity.
Qed.

(** *** A booked request cannot be booked again *)
Lemma requestStatus_rideStore status legStatus bump rideId cabId rideData fleet db
  requestId :
  requestStatus (rideStore status legStatus bump rideId cabId rideData fleet db) requestId
  = match requestStatus db requestId with
    | None => None
    | Some old =>
        if existsb (String.eqb requestId) (map pi_requestId (data_passengers rideData))
        then Some legStatus else Some old
    end.
Proof.
  unfold requestStatus, rideStore. cbn [ride_requests].
  induction (ride_requests db) as [|r rows IH]; [reflexivity|].
  cbn [map filter].
  replace (rq_id (if isLeg rideData r then setRequest legStatus 1 r else r))
    with (rq_id r) by (destruct (isLeg rideData r); reflexivity).
  destruct (String.eqb_spec (rq_id r) requestId) as [E|E]; [|exact IH].
  unfold isLeg. rewrite E.
  destruct (existsb (String.eqb requestId) _); reflexivity.
Qed.

(** Property X21.  Once a booking that has the target among its legs has
    succeeded, the target is [CONFIRMED], and any further booking for it
    fails with "Request already processed" and changes nothing. *)
Theorem rebooking_refused db newRideId requestId rideData otherRideId otherData :
  out_error (runOp (ConfirmBooking newRideId requestId rideData) db) = None ->
  In requestId (map pi_requestId (data_passengers rideData)) ->
  let booked := out_db (runOp (ConfirmBooking newRideId requestId rideData) db) in
  let again := runOp (ConfirmBooking otherRideId requestId otherData) booked in
  requestStatus booked requestId = Some CONFIRMED
  /\ out_error again = Some RequestAlreadyProcessed
  /\ out_db again = booked.
Proof.
  intros Hok Hleg. cbn zeta.
  destruct (confirmBooking_outcome _ _ _ _ Hok)
    as [Hpending [_ [_ [_ [cabId [_ ->]]]]]].
  set (booked := rideStore _ _ _ _ _ _ _ _).
  assert (Hstatus : requestStatus booked requestId = Some CONFIRMED).
  { unfold booked. rewrite requestStatus_rideStore, Hpending.
    replace (existsb _ _) with true; [reflexivity|].
    symmetry. apply existsb_exists. exists requestId. split; [exact Hleg|].
    apply String.eqb_refl. }
  split; [exact Hstatus|].
  unfold runOp, outcome. rewrite confirmBooking_prefix, Hstatus.
  cbn [RideStatus_eqb negb fst snd out_error out_db conn_db connect]. auto.
Qed.


(** Property X17.  Whether [cancelRide], [completeRide] and [startRide]
    succeed, and the error if not, follows from the status of the ride
    alone: a ride that is not there is not found, a completed or cancelled
    ride accepts none of the three, only a confirmed ride can be started,
    and a ride can be completed without having been started. *)
Theorem ride_operation_outcomes db rideId :
  let cancel := out_error (runOp (CancelRide rideId) db) in
  let complete := out_error (runOp (CompleteRide rideId) db) in
  let start := out_error (runOp (StartRide rideId) db) in
  match rideStatusOf db rideId with
  | None =>
      cancel = Some RideNotFound /\ complete = Some RideNotFound
      /\ start = Some RideNotFound
  | Some CONFIRMED => cancel = None /\ complete = None /\ start = None
  | Some COMPLETED =>
      cancel = Some CannotCancelCompletedRide /\ complete = Some RideAlreadyCompleted
      /\ start = Some CanOnlyStartConfirmedRides
  | Some CANCELLED =>
      cancel = Some RideAlreadyCancelled /\ complete = Some CannotCompleteCancelledRide
      /\ start = Some CanOnlyStartConfirmedRides
  | Some _ =>
      cancel = None /\ complete = None /\ start = Some CanOnlyStartConfirmedRides
  end.
Proof.
  cbn zeta. unfold runOp, outcome, rideStatusOf.
  rewrite cancelRide_run, completeRide_run, startRide_run.
  destruct (rideRow db rideId) as [row|]; cbn [option_map]; [|auto].
  destruct (ride_status row); cbn; auto.
Qed.




End CoordinatorExtras.

(** ** The sweep of expired rides *)

Section SweepFacts.

Local Open Scope tx_scope.

Local Open Scope tx_scope.

Variable createdAt : string -> Q.

Variable now : Q.

Lemma completeExpired_run rideId cabId c row :
  rideRow (conn_db c) rideId = Some row ->
  RideCompletionSweep.completeExpired (rideId, cabId) c
  = ({| conn_db :=
          applyUpdate (UpdateRequests [SetRequestStatus COMPLETED]
                                      [RequestIdInPassengersOf rideId])
            (applyUpdate (freeCabUpdate cabId (ride_route row))
               (applyUpdate (UpdateRides [SetRideStatus COMPLETED; SetRideVersionPlus1]
                                         [RideIdEq rideId]) (conn_db c)));
        conn_snapshot := conn_snapshot c;
        conn_log := conn_log c
                    ++ [UpdateRides [SetRideStatus COMPLETED; SetRideVersionPlus1]
                                    [RideIdEq rideId];
                        freeCabUpdate cabId (ride_route row);
                        UpdateRequests [SetRequestStatus COMPLETED]
                                       [RequestIdInPassengersOf rideId]] |},
     inr tt).
Proof.
  unfold rideRow, RideCompletionSweep.completeExpired. intros Hrow.
  unfold bind at 1, RideCompletionService.selectRoute, query_SELECT.
  destruct (filter (fun r => String.eqb (ride_id r) rideId) (rides (conn_db c)))
    as [|row0 rows]; [discriminate|].
  injection Hrow as ->. cbn [map].
  destruct (RideCompletionService.finalDropoff (ride_route row)) as [lat lng] eqn:Efd.
  rewrite (freeCab_update cabId _ _ _ Efd).
  unfold bind, query_UPDATE. cbn [conn_db conn_snapshot conn_log].
  rewrite <- !app_assoc. reflexivity.
Qed.

Lemma rideRow_In db rideId :
  In rideId (map ride_id (rides db)) -> exists row, rideRow db rideId = Some row.
Proof.
  unfold rideRow. intros Hin. apply in_map_iff in Hin. destruct Hin as [r [E Hr]].
  destruct (filter (fun r => String.eqb (ride_id r) rideId) (rides db)) as [|row rows] eqn:Ef.
  - exfalso. assert (Hf : In r (filter (fun r => String.eqb (ride_id r) rideId) (rides db))).
    { apply filter_In. split; [exact Hr|]. rewrite E. apply String.eqb_refl. }
    rewrite Ef in Hf. destruct Hf.
  - exists row. reflexivity.
Qed.

(** One ride of the sweep: the ride row, the cab, the requests. *)
Lemma completeExpired_effect rideId cabId c :
  In rideId (map ride_id (rides (conn_db c))) ->
  exists c',
    RideCompletionSweep.completeExpired (rideId, cabId) c = (c', inr tt)
    /\ conn_snapshot c' = conn_snapshot c
    /\ rides (conn_db c')
       = map (fun r => if String.eqb (ride_id r) rideId then completedRow r else r)
             (rides (conn_db c))
    /\ ride_requests (conn_db c')
       = map (fun r => if requestCondHolds (conn_db c) r (RequestIdInPassengersOf rideId)
                       then applyRequestSet r r (SetRequestStatus COMPLETED) else r)
             (ride_requests (conn_db c))
    /\ ride_passengers (conn_db c') = ride_passengers (conn_db c)
    /\ Forall2 (fun cab cab' =>
                  cab_id cab' = cab_id cab
                  /\ (if String.eqb (cab_id cab) cabId
                      then cab_is_available cab' = true else cab' = cab))
               (cabs (conn_db c)) (cabs (conn_db c')).
Proof.
  intros Hin. destruct (rideRow_In _ _ Hin) as [row Hrow].
  rewrite (completeExpired_run rideId cabId c row Hrow).
  destruct (freeCabUpdate_shape cabId (ride_route row)) as [more [-> Hmore]].
  eexists.
  split; [reflexivity|]. cbn [conn_db conn_snapshot].
  split; [reflexivity|]. split.
  { cbn [applyUpdate rides]. unfold updateRows. apply map_ext. intros r.
    cbn [forallb rideCondHolds]. now rewrite andb_true_r. }
  split.
  { rewrite updateRequests_onRide. reflexivity. }
  split; [reflexivity|].
  cbn [applyUpdate cabs]. unfold updateRows.
  induction (cabs (conn_db c)) as [|cab rest IH]; cbn [map]; constructor; [|exact IH].
  cbn [forallb cabCondHolds]. rewrite andb_true_r.
  destruct (String.eqb (cab_id cab) cabId); [|split; reflexivity].
  destruct Hmore as [->|[lat [lng [-> _]]]]; split; reflexivity.
Qed.

Lemma Forall2_compose {A} (R1 R2 R : A -> A -> Prop) :
  (forall a b c, R1 a b -> R2 b c -> R a c) ->
  forall l1 l2 l3, Forall2 R1 l1 l2 -> Forall2 R2 l2 l3 -> Forall2 R l1 l3.
Proof.
  intros H l1 l2 l3 H12. revert l3.
  induction H12 as [|a b l1 l2 Hab _ IH]; intros l3 H23; inversion H23; subst;
    constructor; eauto.
Qed.

Lemma sweepLoop_effect : forall expiredRides completedCount c,
  NoDup (map fst expiredRides) ->
  (forall rideId, In rideId (map fst expiredRides) ->
                  In rideId (map ride_id (rides (conn_db c)))) ->
  exists c',
    RideCompletionSweep.sweepLoop expiredRides completedCount c
    = (c', inr (completedCount + Z.of_nat (length expiredRides))%Z)
    /\ conn_snapshot c' = conn_snapshot c
    /\ rides (conn_db c')
       = map (fun r => if existsb (String.eqb (ride_id r)) (map fst expiredRides)
                       then completedRow r else r)
             (rides (conn_db c))
    /\ ride_requests (conn_db c')
       = map (fun r => if onRides (conn_db c) (map fst expiredRides) r
                       then applyRequestSet r r (SetRequestStatus COMPLETED) else r)
             (ride_requests (conn_db c))
    /\ ride_passengers (conn_db c') = ride_passengers (conn_db c)
    /\ Forall2 (fun cab cab' =>
                  cab_id cab' = cab_id cab
                  /\ (In (cab_id cab) (map snd expiredRides) ->
                      cab_is_available cab' = true)
                  /\ (~ In (cab_id cab) (map snd expiredRides) -> cab' = cab))
               (cabs (conn_db c)) (cabs (conn_db c')).
Proof.
  induction expiredRides as [|[rideId cabId] rest IH]; intros n c Hnodup Hin.
  - exists c. cbn [RideCompletionSweep.sweepLoop length map existsb]. unfold ret, onRides.
    cbn [existsb]. rewrite Z.add_0_r, !map_id.
    repeat (split; [reflexivity|]).
    induction (cabs (conn_db c)); constructor; auto.
  - cbn [map fst] in Hnodup, Hin. inversion Hnodup as [|? ? Hnotin Hnodup']; subst.
    destruct (completeExpired_effect rideId cabId c (Hin rideId (or_introl eq_refl)))
      as [c1 [E1 [Hs1 [Hr1 [Hq1 [Hp1 Hc1]]]]]].
    assert (Hids : map ride_id (rides (conn_db c1)) = map ride_id (rides (conn_db c))).
    { rewrite Hr1, map_map. apply map_ext. intros r.
      destruct (String.eqb (ride_id r) rideId); reflexivity. }
    destruct (IH (n + 1)%Z c1 Hnodup') as [c' [E [Hs [Hr [Hq [Hp Hc]]]]]].
    { intros x Hx. rewrite Hids. apply Hin. now right. }
    exists c'. cbn [RideCompletionSweep.sweepLoop]. unfold bind at 1. rewrite E1, E.
    split; [do 2 f_equal; cbn [length]; lia|].
    split; [congruence|]. split.
    { rewrite Hr, Hr1, map_map. apply map_ext. intros r. cbn [map fst existsb].
      destruct (String.eqb_spec (ride_id r) rideId) as [Eid|Eid]; cbn [orb].
      - change (ride_id (completedRow r)) with (ride_id r).
        destruct (existsb (String.eqb (ride_id r)) (map fst rest)) eqn:Ex; [|reflexivity].
        exfalso. apply Hnotin. apply existsb_exists in Ex. destruct Ex as [x [Hx Ex]].
        apply String.eqb_eq in Ex. congruence.
      - reflexivity. }
    split.
    { rewrite Hq, Hq1, map_map. apply map_ext. intros r.
      unfold onRides. cbn [map fst existsb requestCondHolds]. rewrite Hp1.
      replace (rq_id (if existsb _ (ride_passengers (conn_db c))
                      then applyRequestSet r r (SetRequestStatus COMPLETED) else r))
        with (rq_id r) by (destruct (existsb _ (ride_passengers (conn_db c))); reflexivity).
      destruct (existsb (fun p => String.eqb (rp_ride_id p) rideId
                                  && String.eqb (rp_request_id p) (rq_id r))
                        (ride_passengers (conn_db c))); cbn [orb];
        destruct (existsb _ (map fst rest)); reflexivity. }
    split; [congruence|].
    refine (Forall2_compose _ _ _ _ _ _ _ Hc1 Hc).
    intros a b c0 [Hb1 Hb2] [Hc01 [Hc02 Hc03]]. cbn [map snd].
    split; [congruence|]. rewrite Hb1 in Hc02, Hc03.
    destruct (String.eqb_spec (cab_id a) cabId) as [Eid|Eid].
    + split; [|intros Hnot; exfalso; apply Hnot; left; congruence].
      intros _. destruct (in_dec string_dec (cab_id a) (map snd rest)) as [Hr'|Hr'];
        [auto|]. rewrite (Hc03 Hr'). exact Hb2.
    + subst b. split.
      * intros [Eq|Hr']; [congruence|auto].
      * intros Hnot. apply Hc03. intros Hr'. apply Hnot. now right.
Qed.

(** The ids and cabs that the first query of the sweep returns. *)
Lemma expired_selected (rows : list RideRow) :
  NoDup (map ride_id rows) ->
  NoDup (map fst (map (fun r => (ride_id r, ride_cab_id r))
                      (filter (RideCompletionSweep.expired createdAt now) rows)))
  /\ forall r, In r rows ->
       existsb (String.eqb (ride_id r))
               (map fst (map (fun r => (ride_id r, ride_cab_id r))
                             (filter (RideCompletionSweep.expired createdAt now) rows)))
       = RideCompletionSweep.expired createdAt now r.
Proof.
  intros Hnodup. rewrite map_map. cbn [fst]. split.
  - induction rows as [|r rows IH]; cbn [filter map]; [constructor|].
    cbn [map] in Hnodup. inversion Hnodup as [|? ? Hnotin Hrest]; subst.
    destruct (RideCompletionSweep.expired createdAt now r); [|now apply IH].
    cbn [map]. constructor; [|now apply IH].
    intros Hin. apply Hnotin. apply in_map_iff in Hin. destruct Hin as [x [Ex Hx]].
    apply filter_In in Hx. rewrite <- Ex. apply in_map. tauto.
  - intros r Hr. destruct (RideCompletionSweep.expired createdAt now r) eqn:Eexp.
    + apply existsb_exists. exists (ride_id r). split; [|apply String.eqb_refl].
      apply in_map. apply filter_In. auto.
    + destruct (existsb _ _) eqn:Ex; [|reflexivity].
      apply existsb_exists in Ex. destruct Ex as [x [Hx Ex]]. apply String.eqb_eq in Ex.
      subst x. apply in_map_iff in Hx. destruct Hx as [r' [Eid Hr']].
      apply filter_In in Hr'. destruct Hr' as [Hr' Hexp'].
      assert (r' = r) by (apply (NoDup_ids_unique ride_id rows); auto).
      congruence.
Qed.

Lemma expired_completedRow r : RideCompletionSweep.expired createdAt now (completedRow r) = false.
Proof. reflexivity. Qed.

Lemma sweep_run db :
  NoDup (map ride_id (rides db)) ->
  exists c',
    RideCompletionSweep.completeExpiredRides createdAt now (connect db)
    = (c', inr (Z.of_nat (length (filter (RideCompletionSweep.expired createdAt now) (rides db)))))
    /\ rides (conn_db c')
       = map (fun r => if RideCompletionSweep.expired createdAt now r then completedRow r else r)
             (rides db)
    /\ ride_requests (conn_db c')
       = map (fun r =>
                if onRides db (map ride_id (filter (RideCompletionSweep.expired createdAt now) (rides db))) r
                then applyRequestSet r r (SetRequestStatus COMPLETED) else r)
             (ride_requests db)
    /\ ride_passengers (conn_db c') = ride_passengers db
    /\ Forall2 (fun cab cab' =>
                  cab_id cab' = cab_id cab
                  /\ (In (cab_id cab)
                         (map ride_cab_id (filter (RideCompletionSweep.expired createdAt now) (rides db))) ->
                      cab_is_available cab' = true)
                  /\ (~ In (cab_id cab)
                           (map ride_cab_id
                              (filter (RideCompletionSweep.expired createdAt now) (rides db))) ->
                      cab' = cab))
               (cabs db) (cabs (conn_db c')).
Proof.
  intros Hnodup.
  destruct (expired_selected (rides db) Hnodup) as [Hsel Hex].
  set (selected := map (fun r => (ride_id r, ride_cab_id r))
                       (filter (RideCompletionSweep.expired createdAt now) (rides db))) in *.
  destruct (sweepLoop_effect selected 0
              {| conn_db := db; conn_snapshot := Some db; conn_log := [] |} Hsel)
    as [c1 [E [Hs [Hr [Hq [Hp Hc]]]]]].
  { cbn [conn_db]. intros rideId Hin. unfold selected in Hin. rewrite map_map in Hin.
    cbn [fst] in Hin. apply in_map_iff in Hin. destruct Hin as [r [<- Hr]].
    apply filter_In in Hr. apply in_map. tauto. }
  cbn [conn_db] in Hr, Hq, Hp, Hc.
  exists {| conn_db := conn_db c1; conn_snapshot := None; conn_log := conn_log c1 |}.
  split.
  { unfold RideCompletionSweep.completeExpiredRides, tryCatch, bind at 1, query_BEGIN.
    cbn [connect conn_db conn_log].
    unfold bind at 1, RideCompletionSweep.selectExpiredRides, query_SELECT. cbn [conn_db].
    fold selected. unfold bind at 1. rewrite E.
    unfold bind, query_COMMIT, ret. unfold selected. rewrite length_map. reflexivity. }
  cbn [conn_db]. split.
  { rewrite Hr. apply map_ext_in. intros r Hin. now rewrite (Hex r Hin). }
  split.
  { rewrite Hq. unfold selected. rewrite map_map. reflexivity. }
  split; [exact Hp|].
  unfold selected in Hc. rewrite map_map in Hc. exact Hc.
Qed.

Lemma none_expired_after rows :
  filter (RideCompletionSweep.expired createdAt now)
         (map (fun r => if RideCompletionSweep.expired createdAt now r then completedRow r else r) rows)
  = [].
Proof.
  induction rows as [|r rows IH]; [reflexivity|].
  cbn [map filter]. destruct (RideCompletionSweep.expired createdAt now r) eqn:Eexp.
  - rewrite expired_completedRow. exact IH.
  - rewrite Eexp. exact IH.
Qed.

(** Property X24.  On a store with unique ride ids the sweep never fails and
    returns the number of expired rides.  Exactly these rides become
    [COMPLETED], with their version incremented, the requests on them
    become [COMPLETED], the cabs assigned to them are available and all
    other cabs unchanged.  A second sweep at the same time finds nothing:
    it returns 0 and changes nothing. *)
Theorem completeExpiredRides_sweep db :
  NoDup (map ride_id (rides db)) ->
  exists c' c'',
    RideCompletionSweep.completeExpiredRides createdAt now (connect db)
    = (c', inr (Z.of_nat (length (filter (RideCompletionSweep.expired createdAt now) (rides db)))))
    /\ rides (conn_db c')
       = map (fun r => if RideCompletionSweep.expired createdAt now r then completedRow r else r)
             (rides db)
    /\ ride_requests (conn_db c')
       = map (fun r =>
                if onRides db (map ride_id (filter (RideCompletionSweep.expired createdAt now) (rides db))) r
                then applyRequestSet r r (SetRequestStatus COMPLETED) else r)
             (ride_requests db)
    /\ ride_passengers (conn_db c') = ride_passengers db
    /\ Forall2 (fun cab cab' =>
                  cab_id cab' = cab_id cab
                  /\ (In (cab_id cab)
                         (map ride_cab_id (filter (RideCompletionSweep.expired createdAt now) (rides db))) ->
                      cab_is_available cab' = true)
                  /\ (~ In (cab_id cab)
                           (map ride_cab_id
                              (filter (RideCompletionSweep.expired createdAt now) (rides db))) ->
                      cab' = cab))
               (cabs db) (cabs (conn_db c'))
    /\ RideCompletionSweep.completeExpiredRides createdAt now (connect (conn_db c')) = (c'', inr 0%Z)
    /\ conn_db c'' = conn_db c'.
Proof.
  intros Hnodup.
  destruct (sweep_run db Hnodup) as [c' [E [Hr [Hq [Hp Hc]]]]].
  assert (Hnone : filter (RideCompletionSweep.expired createdAt now) (rides (conn_db c')) = []).
  { rewrite Hr. apply none_expired_after. }
  exists c'. eexists. repeat (split; [eassumption|]).
  unfold RideCompletionSweep.completeExpiredRides, tryCatch, bind at 1, query_BEGIN.
  cbn [connect conn_db conn_log].
  unfold bind at 1, RideCompletionSweep.selectExpiredRides, query_SELECT. cbn [conn_db].
  rewrite Hnone. cbn [map RideCompletionSweep.sweepLoop]. split; reflexivity.
Qed.

End SweepFacts.

(** ** Further concrete runs *)

Section FurtherRuns.

Local Open Scope string_scope.

Lemma taxicab_triangle a b c :
  (taxicabDistance a c <= taxicabDistance a b + taxicabDistance b c)%Q.
Proof.
  unfold taxicabDistance.
  assert (H : forall x y z : Q, (Qabs (z - x) <= Qabs (y - x) + Qabs (z - y))%Q).
  { intros x y z. setoid_replace (z - x)%Q with ((y - x) + (z - y))%Q by ring.
    apply Qabs_triangle. }
  pose proof (H (latitude a) (latitude b) (latitude c)).
  pose proof (H (longitude a) (longitude b) (longitude c)). lra.
Qed.

Lemma bookingDb_integrity : integrity bookingDb.
Proof.
  constructor; cbn; try (intros ? []);
    repeat (constructor; [cbn; intuition discriminate|]); constructor.
Qed.

Lemma pooled_booking_succeeds : out_error (runOp bookPooledRide bookingDb) = None.
Proof. vm_compute. reflexivity. Qed.

Lemma calculateFare_discount_monotone_witness :
  (PricingEngine.calculateFare (withTotalPassengers noonRide 3)
   <= PricingEngine.calculateFare (withTotalPassengers noonRide 1))%Q.
Proof.
  apply (calculateFare_discount_monotone noonRide 1 3);
    [unfold Qle; simpl; lia|unfold Qle; simpl; lia|simpl; lia|lia].
Defined.

Lemma calculateSurgeFactor_monotone_cap_witness :
  (PricingEngine.calculateSurgeFactor 100 100 <= PricingEngine.calculateSurgeFactor 150 100
   /\ (PricingEngine.calculateSurgeFactor 150 100 == 3
       <-> 2 * (100 * 100) <= 150 * 150))%Q.
Proof.
  apply (calculateSurgeFactor_monotone_cap 100 150 100);
    [unfold Qlt; simpl; lia|unfold Qle; simpl; lia|unfold Qle; simpl; lia].
Defined.

Lemma splitFare_sum_within_rounding_witness :
  (Qabs (sumQ (PricingEngine.splitFare 10 [1; 1; 1]) - 10)
   <= inject_Z (Z.of_nat (length [1; 1; 1])) * (1 # 200))%Q.
Proof.
  apply (splitFare_sum_within_rounding 10 [1; 1; 1])%Q.
  intros H. vm_compute in H. discriminate H.
Defined.

Lemma optimizeRoute_small_groups_shortest_witness :
  exists result,
    optimizeRoute localDistance [riderB; riderA] = Some result
    /\ Permutation (waypoints result) (allWaypoints [riderB; riderA])
    /\ isValidRoute (waypoints result) = true
    /\ (totalDistance result == routeKm localDistance (waypoints result))%Q
    /\ estimatedDuration result = estimateTravelTime (totalDistance result)
    /\ forall other,
         Permutation other (allWaypoints [riderB; riderA]) ->
         isValidRoute other = true ->
         (totalDistance result <= routeKm localDistance other)%Q.
Proof.
  apply (optimizeRoute_small_groups_shortest localDistance [riderB; riderA]);
    [discriminate|simpl; lia].
Defined.

Lemma calculatePassengerDistance_is_stretch_witness :
  RideService.calculatePassengerDistance flatHopKm overlongLeg meridianRoute
  = Some (calculateRouteDistance flatHopKm
            (stretch meridianRoute (pi_pickupOrder overlongLeg)
               (Z.min (pi_dropoffOrder overlongLeg)
                      (Z.of_nat (length meridianRoute) - 1)))).
Proof.
  apply (calculatePassengerDistance_is_stretch flatHopKm overlongLeg meridianRoute).
  simpl. lia.
Defined.

Lemma findMatches_alone_witness :
  RideMatchingEngine.findMatches localDistance defaultConfig riderA [riderA]
  = Some [soloOption localDistance riderA].
Proof.
  apply (findMatches_alone localDistance defaultConfig riderA [riderA]).
  intros r [<-|[]]. now left.
Defined.

(** The first of the matches of rider A with rider B waiting. *)
Lemma first_match (dist : Location -> Location -> Q) :
  exists m ms,
    RideMatchingEngine.findMatches dist defaultConfig riderA [riderB] = Some (m :: ms).
Proof.
  destruct (matching_findMatches_defined dist defaultConfig riderA [riderB])
    as [matches [E _]].
  destruct (engine_findMatches_sorted _ _ _ _ _ E) as [_ Hlen].
  destruct matches as [|m ms]; [cbn [length] in Hlen; lia|].
  exists m, ms. exact E.
Qed.

Lemma findMatches_members_witness :
  exists matches m group route,
    RideMatchingEngine.findMatches localDistance defaultConfig riderA [riderB]
    = Some matches
    /\ In m matches
    /\ mr_ride m = RideMatchingEngine.createRide (group ++ [riderA]) route
    /\ (length group <= 3)%nat
    /\ forall r, In r group -> In r [riderB] /\ rq_id r <> rq_id riderA.
Proof.
  destruct (first_match localDistance) as [m [ms E]].
  destruct (findMatches_members localDistance defaultConfig riderA [riderB] (m :: ms) m E
              (or_introl eq_refl)) as [group [route [Hride [_ [Hlen [_ Hmembers]]]]]].
  exists (m :: ms), m, group, route.
  split; [exact E|]. split; [now left|]. split; [exact Hride|]. split; [exact Hlen|].
  intros r Hr. destruct (Hmembers r Hr) as [Hactive [Hid _]]. split; assumption.
Defined.

Lemma pooled_detours_within_tolerance_witness :
  exists matches m,
    RideMatchingEngine.findMatches localDistance defaultConfig riderA [riderB]
    = Some matches
    /\ In m matches
    /\ (m = soloOption localDistance riderA
        \/ exists detours,
             In (mr_detourTime m) detours
             /\ Forall (fun d => (d <= mr_detourTime m)%Z) detours).
Proof.
  destruct (first_match localDistance) as [m [ms E]].
  exists (m :: ms), m. split; [exact E|]. split; [now left|].
  destruct (pooled_detours_within_tolerance localDistance defaultConfig riderA [riderB]
              (m :: ms) m E (or_introl eq_refl))
    as [Hsolo|[group [route [detours [_ [_ [Hin Hmax]]]]]]]; [now left|right].
  exists detours. split; [exact Hin|exact Hmax].
Defined.

Lemma match_detour_nonnegative_witness :
  exists matches m,
    RideMatchingEngine.findMatches taxicabDistance defaultConfig riderA [riderB]
    = Some matches
    /\ In m matches
    /\ (0 <= mr_detourTime m)%Z.
Proof.
  destruct (first_match taxicabDistance) as [m [ms E]].
  exists (m :: ms), m. split; [exact E|]. split; [now left|].
  apply (match_detour_nonnegative taxicabDistance defaultConfig riderA [riderB]
           (m :: ms) m taxicab_triangle).
  - repeat constructor. intros [].
  - exact E.
  - now left.
Defined.

Lemma leg_positions_on_route_witness :
  exists matches m leg,
    RideService.findMatches flatHopKm localDistance defaultConfig 1 12 riderA [riderB]
    = Some matches
    /\ In m matches /\ In leg (rd_passengers (mr_ride m))
    /\ (0 <= pi_pickupOrder leg < pi_dropoffOrder leg)%Z
    /\ (pi_dropoffOrder leg < Z.of_nat (length (rd_route (mr_ride m))))%Z.
Proof.
  destruct (RideService.findMatches flatHopKm localDistance defaultConfig 1 12
              riderA [riderB]) as [[|m ms]|] eqn:E;
    try (vm_compute in E; discriminate).
  assert (Hleg : exists leg, In leg (rd_passengers (mr_ride m))).
  { vm_compute in E. injection E as <- _. eexists. left. reflexivity. }
  destruct Hleg as [leg Hleg].
  destruct (leg_positions_on_route flatHopKm localDistance defaultConfig 1 12
              riderA [riderB] (m :: ms) m leg E (or_introl eq_refl) Hleg)
    as [Horder [Hinside _]].
  exists (m :: ms), m, leg.
  split; [reflexivity|]. split; [now left|]. split; [exact Hleg|].
  split; [exact Horder|exact Hinside].
Defined.

Lemma match_route_shortest_witness :
  exists matches m,
    RideMatchingEngine.findMatches localDistance defaultConfig riderA [riderB]
    = Some matches
    /\ In m matches
    /\ rd_estimatedDuration (mr_ride m) = estimateTravelTime (rd_totalDistance (mr_ride m)).
Proof.
  destruct (first_match localDistance) as [m [ms E]].
  exists (m :: ms), m. split; [exact E|]. split; [now left|].
  destruct (match_route_shortest localDistance defaultConfig riderA [riderB]
              (m :: ms) m E (or_introl eq_refl))
    as [group [route [_ [_ [_ [_ [_ [Hduration _]]]]]]]].
  exact Hduration.
Defined.



Lemma booked_started_completed_witness :
  out_error (runOp (StartRide "ride-1") bookedDb) = None
  /\ out_error (runOp (CompleteRide "ride-1")
                  (out_db (runOp (StartRide "ride-1") bookedDb))) = None
  /\ cabs (out_db (runOp (CompleteRide "ride-1")
                     (out_db (runOp (StartRide "ride-1") bookedDb))))
     = cabs bookingDb.
Proof.
  destruct (booked_started_completed bookingDb "ride-1" "A" (rideDataOfRide pooledRide)
              bookingDb_integrity pooled_booking_succeeds)
    as [cabId [more [_ [Hshape [_ [Hstart [_ [Hcomplete [_ Hcabs]]]]]]]]].
  split; [exact Hstart|]. split; [exact Hcomplete|].
  apply Hcabs. change (data_route (rideDataOfRide pooledRide))
    with (RouteLocations (rd_route pooledRide)) in Hshape.
  rewrite freeCabUpdate_locations in Hshape. now injection Hshape as <-.
Defined.

Lemma booked_then_cancelled_witness :
  out_error (runOp (CancelRide "ride-1") bookedDb) = None
  /\ cabs (out_db (runOp (CancelRide "ride-1") bookedDb)) = cabs bookingDb.
Proof.
  destruct (booked_then_cancelled bookingDb "ride-1" "A" (rideDataOfRide pooledRide)
              bookingDb_integrity pooled_booking_succeeds)
    as [cabId [_ [Hcancel Hdb]]].
  split; [exact Hcancel|].
  change (out_db (runOp (CancelRide "ride-1") bookedDb))
    with (out_db (runOp (CancelRide "ride-1")
                    (out_db (runOp (ConfirmBooking "ride-1" "A"
                                      (rideDataOfRide pooledRide)) bookingDb)))).
  rewrite Hdb. reflexivity.
Defined.

Lemma rebooking_refused_witness :
  requestStatus bookedDb "A" = Some CONFIRMED
  /\ out_error (runOp (ConfirmBooking "ride-2" "A" (rideDataOfRide pooledRide)) bookedDb)
     = Some RequestAlreadyProcessed
  /\ out_db (runOp (ConfirmBooking "ride-2" "A" (rideDataOfRide pooledRide)) bookedDb)
     = bookedDb.
Proof.
  apply (rebooking_refused bookingDb "ride-1" "A" (rideDataOfRide pooledRide) "ride-2"
           (rideDataOfRide pooledRide) pooled_booking_succeeds).
  vm_compute. auto.
Defined.

Lemma operations_keep_integrity_witness : integrity bookedDb.
Proof.
  exact (operations_keep_integrity bookPooledRide bookingDb bookingDb_integrity).
Defined.

Lemma completeExpiredRides_sweep_witness :
  exists c' c'',
    RideCompletionSweep.completeExpiredRides (fun _ => 0%Q) 100 (connect bookedDb)
    = (c', inr (Z.of_nat (length (filter (RideCompletionSweep.expired (fun _ => 0%Q) 100)
                                         (rides bookedDb)))))
    /\ RideCompletionSweep.completeExpiredRides (fun _ => 0%Q) 100 (connect (conn_db c'))
       = (c'', inr 0%Z)
    /\ conn_db c'' = conn_db c'.
Proof.
  destruct (completeExpiredRides_sweep (fun _ => 0%Q) 100 bookedDb)
    as [c' [c'' [Hrun [_ [_ [_ [_ [Hagain Hsame]]]]]]]].
  - vm_compute. repeat constructor. intros [].
  - exists c', c''. split; [exact Hrun|]. split; [exact Hagain|exact Hsame].
Defined.

End FurtherRuns.
